(** * Online request processor of curator: a shallow embedding

    The development models
    [request_processor/online/base_online_request_processor.py]
    (class [BaseOnlineRequestProcessor]), the OpenAI adapter
    [request_processor/online/openai_online_request_processor.py]
    and the earlier [request_processor/openai_online_request_processor.py].

    Conventions.
    - Python [int] is [Z]; wall-clock time ([time.time()]) is an integer
      number of milliseconds, so [asyncio.sleep(0.3)] sleeps [300].
    - The processor runs on one asyncio event loop.  A coroutine runs
      without interruption from one [await] to the next; the model has one
      transition per such stretch of code, and the scheduler and the outside
      world (HTTP replies, the clock) are the choices of the transition
      function.
    - Methods of classes that the processor only calls (the status tracker's
      capacity book-keeping, the token estimator, the prompt formatter) are
      the variables of the section that needs them. *)

From Stdlib Require Import ZArith QArith String Ascii List Lia Permutation.
From stdpp Require Import base list strings pretty.

Open Scope string_scope.
Open Scope list_scope.
Open Scope Z_scope.

(** ** Strings as the code tests them *)

Module Text.

(** [needle in hay] of Python. *)
Definition contains (needle hay : string) : bool :=
  match String.index 0 needle hay with
  | Some _ => true
  | None => false
  end.

Definition lower_ascii (c : ascii) : ascii :=
  let n := nat_of_ascii c in
  if ((65 <=? n)%nat && (n <=? 90)%nat)%bool then ascii_of_nat (n + 32) else c.

(** [str.lower()] on ASCII text. *)
Fixpoint lower (s : string) : string :=
  match s with
  | EmptyString => EmptyString
  | String c r => String (lower_ascii c) (lower r)
  end.

End Text.

(** ** Exceptions

    An exception is its class name ([e.__class__.__name__]) and its text
    ([str(e)]). *)

Record Exn := mkExn { exn_class : string; exn_text : string }.

Definition str (e : Exn) : string := exn_text e.

(** ["ReadTimeout" in e.__class__.__name__] *)
Definition is_read_timeout (e : Exn) : bool :=
  Text.contains "ReadTimeout" (exn_class e).

(** ** Data model *)

(** [_TokenCount(input=..., output=...)] *)
Record TokenCount := mkTokenCount { tc_input : Z; tc_output : Z }.

(** A chat message is a dict from strings to strings. *)
Definition Message := list (string * string).

(** [GenericRequest]: the fields the processor reads. *)
Record GenericRequest := mkGenericRequest {
  original_row_idx : Z;
  messages : list Message
}.

(** [TokenUsage] *)
Record TokenUsage := mkTokenUsage {
  prompt_tokens : Z;
  completion_tokens : Z;
  total_tokens : Z
}.

(** [GenericResponse]: one line of the response file.  Time stamps, the raw
    request/response bodies and the cost are carried by the code but never
    read by it, and are left out. *)
Record GenericResponse := mkGenericResponse {
  response_message : option string;
  response_errors : option (list string);
  generic_request_of : GenericRequest;
  token_usage : option TokenUsage;
  finish_reason : option string
}.

(** [APIRequest] (dataclass): the mutable per-request state. *)
Record APIRequest := mkAPIRequest {
  task_id : Z;
  generic_request : GenericRequest;
  attempts_left : Z;
  result : list Exn
}.

(** ** The output-token moving window

    [self._output_tokens_window = deque(maxlen=_MAX_OUTPUT_MVA_WINDOW)] *)

Module MovingAverage.

Definition _MAX_OUTPUT_MVA_WINDOW : nat := 50.

(** [deque.append] on a deque with [maxlen]: when the deque is full the
    leftmost element is dropped. *)
Definition deque_append (maxlen : nat) (w : list Z) (x : Z) : list Z :=
  let w' := w ++ [x] in
  if (maxlen <? length w')%nat then drop (length w' - maxlen) w' else w'.

Definition _add_output_token_moving_window (w : list Z) (tokens : Z) : list Z :=
  deque_append _MAX_OUTPUT_MVA_WINDOW w tokens.

(** [sum(window)] *)
Definition sum (w : list Z) : Z := fold_right Z.add 0 w.

(** [len(window) or _MAX_OUTPUT_MVA_WINDOW] *)
Definition divisor (w : list Z) : Z :=
  if (length w =? 0)%nat then Z.of_nat _MAX_OUTPUT_MVA_WINDOW
  else Z.of_nat (length w).

(** Python's true division [a / b] of two ints, as an exact rational;
    it raises [ZeroDivisionError] ([None]) exactly when [b = 0]. *)
Definition truediv (a b : Z) : option Q :=
  if b =? 0 then None else Some (Qred (inject_Z a / inject_Z b)).

Definition _output_tokens_moving_average (w : list Z) : option Q :=
  truediv (sum w) (divisor w).

(** The window after a run of observations, oldest first. *)
Definition observe (w : list Z) (obs : list Z) : list Z :=
  fold_left _add_output_token_moving_window obs w.

End MovingAverage.

(** ** Coroutines and events

    [process_requests_from_file] is the main coroutine; every
    [asyncio.create_task(process_with_semaphore(...))] adds a task.  A task
    is named by its position in the list of tasks, which is also the name of
    the attempt it makes. *)

(** How a task's coroutine ended. *)
Inductive Ending := EndSucceeded | EndFailed | EndRequeued.

(** Where a task is suspended. *)
Inductive TaskPc :=
| TCreated                          (* at [async with request_semaphore] *)
| TInFlight (start_time : Z)        (* at [await session.post(...)] *)
| TSavingOk (r : GenericResponse)   (* line 537, [await self.append_generic_response], file not yet written *)
| TSavedOk                          (* line 537, the line is written, the coroutine not yet resumed *)
| TSavingFailed (r : GenericResponse) (* line 524, file not yet written *)
| TSavedFailed                      (* line 524, written, not yet resumed *)
| TFinished (how : Ending).

Record Task := mkTask {
  t_request : APIRequest;
  t_blocked : option TokenCount;
  t_pc : TaskPc
}.

(** Where the main coroutine is suspended. *)
Inductive MainPc :=
| MReadLine                         (* line 305, [async for line in file] *)
| MAcquire (line : GenericRequest)  (* line 307, blocked in [self._semaphore.acquire()] *)
| MWaitCapacity (request : APIRequest) (token_estimate : option TokenCount) (wake : Z)
                                    (* line 331, [asyncio.sleep(0.3)] *)
| MCoolDown (request : APIRequest) (token_estimate : option TokenCount) (wake : Z)
                                    (* line 259, [asyncio.sleep(remaining_seconds_to_pause)] *)
| MWaitFirstCompleted               (* line 365, [asyncio.wait(pending_requests, FIRST_COMPLETED)] *)
| MGather                           (* line 373, [asyncio.gather] of [pending_requests] *)
| MRetryLoop                        (* line 378/380, head of the retry loops *)
| MRetryAcquire                     (* line 382, blocked in [self._semaphore.acquire()] *)
| MRetryWaitCapacity (request : APIRequest) (token_estimate : option TokenCount) (wake : Z)
                                    (* line 400, [asyncio.sleep(0.5)] *)
| MRetryWait (first_completed : bool) (timeout : option Z)
                                    (* line 413, [asyncio.wait(pending_retries, ...)] *)
| MDone.                            (* line 419 and after *)

(** What the run does, as it happens; each event carries the attempt (task)
    it belongs to, which for the events of the main coroutine is the task it
    is about to create.  The trace is kept latest event first. *)
Inductive Event :=
| EvConsume (a : nat) (token_estimate : option TokenCount)  (* [status_tracker.consume_capacity] *)
| EvCoolDown (a : nat)                    (* [cool_down_if_rate_limit_error] is called *)
| EvLaunch (a : nat) (task : Z)           (* [asyncio.create_task] *)
| EvInProgress (a : nat) (delta : Z)      (* [num_tasks_in_progress += delta] *)
| EvHttpCall (a : nat) (task : Z) (now : Z)      (* [session.post] is issued *)
| EvRateLimit (a : nat) (now : Z)         (* [time_of_last_rate_limit_error = time.time()] *)
| EvUpdateStats (a : nat)                 (* [status_tracker.update_stats] *)
| EvFree (a : nat) (used : TokenCount) (blocked : option TokenCount) (* [status_tracker.free_capacity] *)
| EvRaised (a : nat) (e : Exn)            (* the [except] block is entered *)
| EvRequeue (a : nat) (task : Z)          (* [retry_queue.put_nowait] *)
| EvAppend (a : nat) (task : Z) (r : GenericResponse)  (* a line is written to the response file *)
| EvSucceeded (a : nat)                   (* [num_tasks_succeeded += 1] *)
| EvFailed (a : nat).                     (* [num_tasks_failed += 1] *)

(** ** Collaborators of the processor

    [OnlineStatusTracker] lives in [status_tracker/online_status_tracker.py],
    which is not among the sources; the processor reads and writes its
    counters directly and calls four of its methods.  The counters are the
    record [OnlineStatusTracker] below; the four methods act on the
    tracker's private capacity book-keeping (available requests and tokens,
    usage totals) and are the methods of this class.  Each of them may read
    the clock. *)
Class CapacityTracker := {
  Capacity : Type;
  has_capacity : Z -> Capacity -> option TokenCount -> bool * Capacity;
  consume_capacity : Z -> Capacity -> option TokenCount -> Capacity;
  (** [free_capacity(used_capacity, blocked_capacity)] *)
  free_capacity : Z -> Capacity -> TokenCount -> option TokenCount -> Capacity;
  update_stats : Capacity -> option TokenUsage -> Capacity
}.

(** The abstract methods of [BaseOnlineRequestProcessor] that the claims
    involve, and the prompt formatter's response check, which returns
    normally ([None]) or raises. *)
Class Provider := {
  estimate_total_tokens : list Message -> TokenCount;
  response_to_response_format : option string -> option Exn
}.

(** The counters and fields of the status tracker that the processor
    touches. *)
Record OnlineStatusTracker `{CapacityTracker} := mkTracker {
  num_tasks_started : Z;
  num_tasks_in_progress : Z;
  num_tasks_succeeded : Z;
  num_tasks_failed : Z;
  num_rate_limit_errors : Z;
  num_api_errors : Z;
  num_other_errors : Z;
  time_of_last_rate_limit_error : Z;
  max_tokens_per_minute : option Z;
  capacity : Capacity
}.

(** [self.config] and the constructor arguments that the processor reads. *)
Record Config := mkConfig {
  max_retries : Z;
  (** in milliseconds, like the clock *)
  seconds_to_pause_on_rate_limit : Z;
  invalid_finish_reasons : list string;
  return_completions_object : bool;
  max_batch : Z;
  manual_max_concurrent_requests : option Z
}.

(** ** What an HTTP call can come back with *)

(** [response["error"]]: its ["message"] entry, if any, and its rendering. *)
Record ApiError := mkApiError { err_message : option string; err_repr : string }.

(** The decoded body.  A body without ["error"] that lacks ["choices"] or
    ["usage"] makes the code raise [KeyError] with the tracker untouched;
    the handler sees that like an exception of the call itself, so such
    replies are covered by [HttpRaises]. *)
Record ResponseJson := mkResponseJson {
  resp_error : option ApiError;
  resp_content : string;
  resp_finish_reason : option string;
  resp_usage : TokenUsage;
  resp_repr : string
}.

Inductive HttpOutcome :=
| HttpRaises (e : Exn)
| HttpReturns (status : Z) (response : ResponseJson).

Section Handlers.
Context `{CapacityTracker} `{Provider}.

Definition bump_api (d : Z) (st : OnlineStatusTracker) : OnlineStatusTracker :=
  mkTracker _ (num_tasks_started st) (num_tasks_in_progress st)
    (num_tasks_succeeded st) (num_tasks_failed st) (num_rate_limit_errors st)
    (num_api_errors st + d) (num_other_errors st)
    (time_of_last_rate_limit_error st) (max_tokens_per_minute st) (capacity st).

Definition bump_other (d : Z) (st : OnlineStatusTracker) : OnlineStatusTracker :=
  mkTracker _ (num_tasks_started st) (num_tasks_in_progress st)
    (num_tasks_succeeded st) (num_tasks_failed st) (num_rate_limit_errors st)
    (num_api_errors st) (num_other_errors st + d)
    (time_of_last_rate_limit_error st) (max_tokens_per_minute st) (capacity st).

Definition bump_rate_limit (d : Z) (st : OnlineStatusTracker) : OnlineStatusTracker :=
  mkTracker _ (num_tasks_started st) (num_tasks_in_progress st)
    (num_tasks_succeeded st) (num_tasks_failed st) (num_rate_limit_errors st + d)
    (num_api_errors st) (num_other_errors st)
    (time_of_last_rate_limit_error st) (max_tokens_per_minute st) (capacity st).

Definition bump_started (d : Z) (st : OnlineStatusTracker) : OnlineStatusTracker :=
  mkTracker _ (num_tasks_started st + d) (num_tasks_in_progress st)
    (num_tasks_succeeded st) (num_tasks_failed st) (num_rate_limit_errors st)
    (num_api_errors st) (num_other_errors st)
    (time_of_last_rate_limit_error st) (max_tokens_per_minute st) (capacity st).

Definition bump_in_progress (d : Z) (st : OnlineStatusTracker) : OnlineStatusTracker :=
  mkTracker _ (num_tasks_started st) (num_tasks_in_progress st + d)
    (num_tasks_succeeded st) (num_tasks_failed st) (num_rate_limit_errors st)
    (num_api_errors st) (num_other_errors st)
    (time_of_last_rate_limit_error st) (max_tokens_per_minute st) (capacity st).

Definition bump_succeeded (d : Z) (st : OnlineStatusTracker) : OnlineStatusTracker :=
  mkTracker _ (num_tasks_started st) (num_tasks_in_progress st)
    (num_tasks_succeeded st + d) (num_tasks_failed st) (num_rate_limit_errors st)
    (num_api_errors st) (num_other_errors st)
    (time_of_last_rate_limit_error st) (max_tokens_per_minute st) (capacity st).

Definition bump_failed (d : Z) (st : OnlineStatusTracker) : OnlineStatusTracker :=
  mkTracker _ (num_tasks_started st) (num_tasks_in_progress st)
    (num_tasks_succeeded st) (num_tasks_failed st + d) (num_rate_limit_errors st)
    (num_api_errors st) (num_other_errors st)
    (time_of_last_rate_limit_error st) (max_tokens_per_minute st) (capacity st).

Definition set_time_of_last_rate_limit_error (t : Z) (st : OnlineStatusTracker)
  : OnlineStatusTracker :=
  mkTracker _ (num_tasks_started st) (num_tasks_in_progress st)
    (num_tasks_succeeded st) (num_tasks_failed st) (num_rate_limit_errors st)
    (num_api_errors st) (num_other_errors st)
    t (max_tokens_per_minute st) (capacity st).

Definition set_capacity (c : Capacity) (st : OnlineStatusTracker)
  : OnlineStatusTracker :=
  mkTracker _ (num_tasks_started st) (num_tasks_in_progress st)
    (num_tasks_succeeded st) (num_tasks_failed st) (num_rate_limit_errors st)
    (num_api_errors st) (num_other_errors st)
    (time_of_last_rate_limit_error st) (max_tokens_per_minute st) c.

(** ["rate limit" in error.get("message", "").lower()] *)
Definition is_rate_limit (error : ApiError) : bool :=
  Text.contains "rate limit" (Text.lower (default "" (err_message error))).

(** The tracker updates of [call_single_request] on a body with an
    ["error"] entry (online adapter, lines 211-219). *)
Definition on_api_error (now : Z) (error : ApiError) (st : OnlineStatusTracker)
  : OnlineStatusTracker :=
  let st := bump_api 1 st in
  if is_rate_limit error then
    let st := set_time_of_last_rate_limit_error now st in
    let st := bump_rate_limit 1 st in
    let st := bump_api (-1) st in
    (* because handle_single_request_with_retries will double count otherwise *)
    bump_other (-1) st
  else st.

(** [OpenAIOnlineRequestProcessor.call_single_request], from the point
    where [session.post] has returned or raised at time [now]. *)
Definition call_single_request (cfg : Config) (a : nat) (now : Z)
    (request : APIRequest) (st : OnlineStatusTracker) (o : HttpOutcome)
  : OnlineStatusTracker * (Exn + GenericResponse) * list Event :=
  match o with
  | HttpRaises e => (st, inl e, [])
  | HttpReturns status response =>
    match resp_error response with
    | Some error =>
      (on_api_error now error st,
       inl (mkExn "Exception" ("API error: " ++ err_repr error)),
       if is_rate_limit error then [EvRateLimit a now] else [])
    | None =>
      if negb (status =? 200) then
        (st, inl (mkExn "Exception"
                    ("API request failed with status " ++ pretty status
                     ++ ": " ++ resp_repr response)), [])
      else
        (st, inr {| response_message :=
                      Some (if return_completions_object cfg
                            then resp_repr response else resp_content response);
                    response_errors := None;
                    generic_request_of := generic_request request;
                    token_usage := Some (resp_usage response);
                    finish_reason :=
                      Some (default "unkown" (resp_finish_reason response)) |},
         [])
    end
  end.

(** [self._free_capacity] *)
Definition _free_capacity (a : nat) (now : Z) (st : OnlineStatusTracker)
    (used_capacity : TokenCount) (blocked_capacity : option TokenCount)
  : OnlineStatusTracker * list Event :=
  match max_tokens_per_minute st with
  | Some _ =>
    (set_capacity
       (free_capacity now (capacity st) used_capacity blocked_capacity) st,
     [EvFree a used_capacity blocked_capacity])
  | None => (st, [])
  end.

Definition finish_reason_is_invalid (cfg : Config) (r : GenericResponse) : bool :=
  match finish_reason r with
  | Some f => bool_decide (f ∈ invalid_finish_reasons cfg)
  | None => false
  end.

Definition used_capacity_of (r : GenericResponse) : TokenCount :=
  match token_usage r with
  | Some u => mkTokenCount (prompt_tokens u) (completion_tokens u)
  | None => mkTokenCount 0 0
  end.

(** [generic_response.token_usage.completion_tokens] *)
Definition completion_tokens_of (r : GenericResponse) : Z :=
  match token_usage r with
  | Some u => completion_tokens u
  | None => 0
  end.

(** How far the [try] block of [handle_single_request_with_retries] got. *)
Inductive TryResult :=
| TryRaisedInCall (e : Exn)
| TryRaisedOnFinishReason (e : Exn)
| TryRaisedOnFormat (e : Exn)
| TryCompleted (r : GenericResponse).

Definition raised (t : TryResult) : option Exn :=
  match t with
  | TryRaisedInCall e | TryRaisedOnFinishReason e | TryRaisedOnFormat e => Some e
  | TryCompleted _ => None
  end.

(** The [try] block (lines 459-493), from the point where the HTTP call
    has come back. *)
Definition try_block (cfg : Config) (a : nat) (now : Z) (request : APIRequest)
    (blocked_capacity : option TokenCount) (st : OnlineStatusTracker)
    (o : HttpOutcome) : OnlineStatusTracker * TryResult * list Event :=
  match call_single_request cfg a now request st o with
  | (st, inl e, evs) => (st, TryRaisedInCall e, evs)
  | (st, inr generic_response, evs) =>
    if finish_reason_is_invalid cfg generic_response then
      (st, TryRaisedOnFinishReason
             (mkExn "ValueError"
                ("finish_reason was " ++ default "None" (finish_reason generic_response))),
       evs)
    else
      let st := set_capacity
                  (update_stats (capacity st) (token_usage generic_response)) st in
      let evs := evs ++ [EvUpdateStats a] in
      match response_to_response_format (response_message generic_response) with
      | Some e => (st, TryRaisedOnFormat e, evs)
      | None =>
        let '(st, freed) :=
          _free_capacity a now st (used_capacity_of generic_response)
            blocked_capacity in
        (st, TryCompleted generic_response, evs ++ freed)
      end
  end.

Definition with_attempts_left (n : Z) (r : APIRequest) : APIRequest :=
  mkAPIRequest (task_id r) (generic_request r) n (result r).

Definition append_result (e : Exn) (r : APIRequest) : APIRequest :=
  mkAPIRequest (task_id r) (generic_request r) (attempts_left r) (result r ++ [e]).

(** What the [except] block decides. *)
Inductive Verdict :=
| Retry (request : APIRequest)
| GiveUp (request : APIRequest) (record : GenericResponse).

(** The record written for a request that has no attempts left. *)
Definition failure_record (request : APIRequest) : GenericResponse :=
  {| response_message := None;
     response_errors := Some (map str (result request));
     generic_request_of := generic_request request;
     token_usage := None;
     finish_reason := None |}.

(** The [except Exception as e] block (lines 495-527), up to the queue
    insertion or the [await] of the file append. *)
Definition except_block (request : APIRequest) (e : Exn) : Verdict :=
  let request := append_result e request in
  if 0 <? attempts_left request then
    let request :=
      if is_read_timeout e
      then with_attempts_left (attempts_left request - 1) request
      else request in
    let request := with_attempts_left (attempts_left request - 1) request in
    Retry request
  else
    GiveUp request (failure_record request).

End Handlers.

(** ** The earlier processor

    [request_processor/openai_online_request_processor.py], method
    [process_single_request]: one method holds the call, the counters and
    the retry decision.  Its [StatusTracker] has the same counters.  An
    exception of a later statement of the [try] block (a malformed body,
    the cost computation) reaches the handler with the tracker as the call
    left it and is covered by [HttpRaises]. *)
Module Legacy.
Section Legacy.
Context `{CapacityTracker}.

Inductive Effect :=
| Saved (record : GenericResponse)
| Requeued (request : APIRequest).

Definition on_api_error (now : Z) (error : ApiError) (st : OnlineStatusTracker)
  : OnlineStatusTracker :=
  let st := bump_api 1 st in
  if is_rate_limit error then
    let st := set_time_of_last_rate_limit_error now st in
    let st := bump_rate_limit 1 st in
    bump_api (-1) st
  else st.

Definition on_exception (request : APIRequest) (e : Exn) (st : OnlineStatusTracker)
  : OnlineStatusTracker * Effect :=
  let st := bump_other 1 st in
  let request := append_result e request in
  if 0 <? attempts_left request then
    (st, Requeued (with_attempts_left (attempts_left request - 1) request))
  else
    (bump_failed 1 (bump_in_progress (-1) st), Saved (failure_record request)).

Definition process_single_request (now : Z) (request : APIRequest)
    (st : OnlineStatusTracker) (o : HttpOutcome) : OnlineStatusTracker * Effect :=
  match o with
  | HttpRaises e => on_exception request e st
  | HttpReturns status response_json =>
    match resp_error response_json with
    | Some error =>
      on_exception request
        (mkExn "Exception" ("API error: " ++ err_repr error))
        (on_api_error now error st)
    | None =>
      if negb (status =? 200) then
        on_exception request
          (mkExn "Exception"
             ("API request failed with status " ++ pretty status
              ++ ": " ++ resp_repr response_json)) st
      else
        (bump_succeeded 1 (bump_in_progress (-1) st),
         Saved {| response_message := Some (resp_content response_json);
                  response_errors := None;
                  generic_request_of := generic_request request;
                  token_usage := Some (resp_usage response_json);
                  finish_reason := None |})
    end
  end.

End Legacy.
End Legacy.

(** ** The event loop *)

Section EventLoop.
Context `{CapacityTracker} `{Provider}.

Record State := mkState {
  clock : Z;
  tracker : OnlineStatusTracker;
  (** [self._semaphore]: [None], or the number of free slots *)
  _semaphore : option Z;
  (** free slots of [request_semaphore] *)
  request_semaphore : Z;
  (** the lines of the request file not yet read *)
  file : list GenericRequest;
  completed_request_ids : list Z;
  pending_requests : list nat;
  pending_retries : list nat;
  queue_of_requests_to_retry : list APIRequest;
  tasks : list Task;
  main : MainPc;
  (** the lines of the response file *)
  response_file : list GenericResponse;
  _output_tokens_window : list Z;
  trace : list Event
}.

Definition with_clock (v : Z) (s : State) : State :=
  mkState v (tracker s) (_semaphore s) (request_semaphore s) (file s)
    (completed_request_ids s) (pending_requests s) (pending_retries s)
    (queue_of_requests_to_retry s) (tasks s) (main s) (response_file s)
    (_output_tokens_window s) (trace s).

Definition with_tracker (v : OnlineStatusTracker) (s : State) : State :=
  mkState (clock s) v (_semaphore s) (request_semaphore s) (file s)
    (completed_request_ids s) (pending_requests s) (pending_retries s)
    (queue_of_requests_to_retry s) (tasks s) (main s) (response_file s)
    (_output_tokens_window s) (trace s).

Definition with_semaphore (v : option Z) (s : State) : State :=
  mkState (clock s) (tracker s) v (request_semaphore s) (file s)
    (completed_request_ids s) (pending_requests s) (pending_retries s)
    (queue_of_requests_to_retry s) (tasks s) (main s) (response_file s)
    (_output_tokens_window s) (trace s).

Definition with_request_semaphore (v : Z) (s : State) : State :=
  mkState (clock s) (tracker s) (_semaphore s) v (file s)
    (completed_request_ids s) (pending_requests s) (pending_retries s)
    (queue_of_requests_to_retry s) (tasks s) (main s) (response_file s)
    (_output_tokens_window s) (trace s).

Definition with_file (v : list GenericRequest) (s : State) : State :=
  mkState (clock s) (tracker s) (_semaphore s) (request_semaphore s) v
    (completed_request_ids s) (pending_requests s) (pending_retries s)
    (queue_of_requests_to_retry s) (tasks s) (main s) (response_file s)
    (_output_tokens_window s) (trace s).

Definition with_pending_requests (v : list nat) (s : State) : State :=
  mkState (clock s) (tracker s) (_semaphore s) (request_semaphore s) (file s)
    (completed_request_ids s) v (pending_retries s)
    (queue_of_requests_to_retry s) (tasks s) (main s) (response_file s)
    (_output_tokens_window s) (trace s).

Definition with_pending_retries (v : list nat) (s : State) : State :=
  mkState (clock s) (tracker s) (_semaphore s) (request_semaphore s) (file s)
    (completed_request_ids s) (pending_requests s) v
    (queue_of_requests_to_retry s) (tasks s) (main s) (response_file s)
    (_output_tokens_window s) (trace s).

Definition with_queue (v : list APIRequest) (s : State) : State :=
  mkState (clock s) (tracker s) (_semaphore s) (request_semaphore s) (file s)
    (completed_request_ids s) (pending_requests s) (pending_retries s)
    v (tasks s) (main s) (response_file s)
    (_output_tokens_window s) (trace s).

Definition with_tasks (v : list Task) (s : State) : State :=
  mkState (clock s) (tracker s) (_semaphore s) (request_semaphore s) (file s)
    (completed_request_ids s) (pending_requests s) (pending_retries s)
    (queue_of_requests_to_retry s) v (main s) (response_file s)
    (_output_tokens_window s) (trace s).

Definition with_main (v : MainPc) (s : State) : State :=
  mkState (clock s) (tracker s) (_semaphore s) (request_semaphore s) (file s)
    (completed_request_ids s) (pending_requests s) (pending_retries s)
    (queue_of_requests_to_retry s) (tasks s) v (response_file s)
    (_output_tokens_window s) (trace s).

Definition with_response_file (v : list GenericResponse) (s : State) : State :=
  mkState (clock s) (tracker s) (_semaphore s) (request_semaphore s) (file s)
    (completed_request_ids s) (pending_requests s) (pending_retries s)
    (queue_of_requests_to_retry s) (tasks s) (main s) v
    (_output_tokens_window s) (trace s).

Definition with_window (v : list Z) (s : State) : State :=
  mkState (clock s) (tracker s) (_semaphore s) (request_semaphore s) (file s)
    (completed_request_ids s) (pending_requests s) (pending_retries s)
    (queue_of_requests_to_retry s) (tasks s) (main s) (response_file s)
    v (trace s).

(** Record events, given oldest first. *)
Definition emit (evs : list Event) (s : State) : State :=
  mkState (clock s) (tracker s) (_semaphore s) (request_semaphore s) (file s)
    (completed_request_ids s) (pending_requests s) (pending_retries s)
    (queue_of_requests_to_retry s) (tasks s) (main s) (response_file s)
    (_output_tokens_window s) (rev evs ++ trace s).

Definition on_tracker (f : OnlineStatusTracker -> OnlineStatusTracker) (s : State)
  : State := with_tracker (f (tracker s)) s.

(** ** Semaphores *)

(** [self._semaphore.acquire()] would block. *)
Definition semaphore_blocks (s : State) : bool :=
  match _semaphore s with
  | Some n => n <=? 0
  | None => false
  end.

(** [if self._semaphore: await self._semaphore.acquire()], not blocking *)
Definition semaphore_acquire (s : State) : State :=
  with_semaphore (option_map (fun n => n - 1) (_semaphore s)) s.

(** [if self._semaphore: self._semaphore.release()] *)
Definition semaphore_release (s : State) : State :=
  with_semaphore (option_map (fun n => n + 1) (_semaphore s)) s.

(** ** Tasks *)

Definition is_finished (pc : TaskPc) : bool :=
  match pc with TFinished _ => true | _ => false end.

(** [task.done()] for the task named [a] *)
Definition task_done (s : State) (a : nat) : bool :=
  match tasks s !! a with
  | Some t => is_finished (t_pc t)
  | None => false
  end.

Definition set_task (a : nat) (t : Task) (s : State) : State :=
  with_tasks (<[a := t]> (tasks s)) s.

(** ** The main coroutine, between two suspensions *)

Definition token_estimate_for (s : State) (request : APIRequest)
  : option TokenCount :=
  match max_tokens_per_minute (tracker s) with
  | Some _ => Some (estimate_total_tokens (messages (generic_request request)))
  | None => None
  end.

(** Lines 337-368: consume the capacity, create the task, count it, and
    decide whether to wait for a task before the next line. *)
Definition launch (cfg : Config) (request : APIRequest)
    (token_estimate : option TokenCount) (s : State) : State :=
  let a := length (tasks s) in
  let s := on_tracker (fun st =>
             set_capacity (consume_capacity (clock s) (capacity st) token_estimate) st) s in
  let s := emit [EvConsume a token_estimate] s in
  let s := with_tasks (tasks s ++ [mkTask request token_estimate TCreated]) s in
  let s := emit [EvLaunch a (task_id request)] s in
  let s := with_pending_requests (pending_requests s ++ [a]) s in
  let s := on_tracker (bump_started 1) s in
  if max_batch cfg * 3 <=? Z.of_nat (length (pending_requests s))
  then with_main MWaitFirstCompleted s
  else with_main MReadLine s.

(** [cool_down_if_rate_limit_error] (lines 250-259), then the admission. *)
Definition cool_down_then_launch (cfg : Config) (request : APIRequest)
    (token_estimate : option TokenCount) (s : State) : State :=
  let s := emit [EvCoolDown (length (tasks s))] s in
  let seconds_since_rate_limit_error :=
    clock s - time_of_last_rate_limit_error (tracker s) in
  let remaining_seconds_to_pause :=
    seconds_to_pause_on_rate_limit cfg - seconds_since_rate_limit_error in
  if 0 <? remaining_seconds_to_pause
  then with_main (MCoolDown request token_estimate
                    (clock s + remaining_seconds_to_pause)) s
  else launch cfg request token_estimate s.

(** Lines 330-337: one test of [has_capacity]. *)
Definition poll_capacity (cfg : Config) (request : APIRequest)
    (token_estimate : option TokenCount) (s : State) : State :=
  let '(ok, c) := has_capacity (clock s) (capacity (tracker s)) token_estimate in
  let s := on_tracker (set_capacity c) s in
  if ok then cool_down_then_launch cfg request token_estimate s
  else with_main (MWaitCapacity request token_estimate (clock s + 300)) s.

(** Lines 309-327, with [self._semaphore] already acquired. *)
Definition parse_line (cfg : Config) (generic_request : GenericRequest)
    (s : State) : State :=
  if bool_decide (original_row_idx generic_request ∈ completed_request_ids s)
  then with_main MReadLine (semaphore_release s)
  else
    let request :=
      mkAPIRequest (num_tasks_started (tracker s)) generic_request
        (max_retries cfg) [] in
    poll_capacity cfg request (token_estimate_for s request) s.

(** Lines 403-409: the admission of a retry. *)
Definition launch_retry (retry_request : APIRequest)
    (token_estimate : option TokenCount) (s : State) : State :=
  let a := length (tasks s) in
  let s := on_tracker (fun st =>
             set_capacity (consume_capacity (clock s) (capacity st) token_estimate) st) s in
  let s := emit [EvConsume a token_estimate] s in
  let s := with_tasks (tasks s ++ [mkTask retry_request token_estimate TCreated]) s in
  let s := emit [EvLaunch a (task_id retry_request)] s in
  let s := with_pending_retries (pending_retries s ++ [a]) s in
  with_main MRetryLoop s.

(** Lines 399-403: one test of [has_capacity] in the retry loop. *)
Definition poll_capacity_retry (retry_request : APIRequest)
    (token_estimate : option TokenCount) (s : State) : State :=
  let '(ok, c) := has_capacity (clock s) (capacity (tracker s)) token_estimate in
  let s := on_tracker (set_capacity c) s in
  if ok then launch_retry retry_request token_estimate s
  else with_main (MRetryWaitCapacity retry_request token_estimate (clock s + 500)) s.

(** Lines 384-403, with [self._semaphore] already acquired.
    [queue.get()] on an empty queue does not return. *)
Definition take_retry (s : State) : option State :=
  match queue_of_requests_to_retry s with
  | [] => None
  | retry_request :: rest =>
    let s := with_queue rest s in
    Some (poll_capacity_retry retry_request (token_estimate_for s retry_request) s)
  end.

(** Lines 378-417: the tests at the head of the two retry loops, up to
    the next [await]. *)
Definition retry_loop (cfg : Config) (s : State) : option State :=
  let queue_empty := bool_decide (queue_of_requests_to_retry s = []) in
  if negb queue_empty
     && (Z.of_nat (length (pending_retries s)) <? max_batch cfg)
  then
    if semaphore_blocks s then Some (with_main MRetryAcquire s)
    else take_retry (semaphore_acquire s)
  else if negb (bool_decide (pending_retries s = [])) then
    Some (with_main (MRetryWait (negb queue_empty)
                       (if queue_empty then None else Some (clock s + 500))) s)
  else if queue_empty then Some (with_main MDone s)
  else Some (with_main MRetryLoop s).

(** The main coroutine is resumed. *)
Definition step_main (cfg : Config) (s : State) : option State :=
  match main s with
  | MReadLine =>
    match file s with
    | [] => Some (with_main MGather s)
    | line :: rest =>
      let s := with_file rest s in
      if semaphore_blocks s then Some (with_main (MAcquire line) s)
      else Some (parse_line cfg line (semaphore_acquire s))
    end
  | MAcquire line =>
    if semaphore_blocks s then None
    else Some (parse_line cfg line (semaphore_acquire s))
  | MWaitCapacity request token_estimate wake =>
    if clock s <? wake then None
    else Some (poll_capacity cfg request token_estimate s)
  | MCoolDown request token_estimate wake =>
    if clock s <? wake then None
    else Some (launch cfg request token_estimate s)
  | MWaitFirstCompleted =>
    if existsb (task_done s) (pending_requests s) then
      Some (with_main MReadLine
              (with_pending_requests
                 (filter (fun a => negb (task_done s a)) (pending_requests s)) s))
    else None
  | MGather =>
    if forallb (task_done s) (pending_requests s)
    then Some (with_main MRetryLoop s)
    else None
  | MRetryLoop => retry_loop cfg s
  | MRetryAcquire =>
    if semaphore_blocks s then None
    else take_retry (semaphore_acquire s)
  | MRetryWaitCapacity retry_request token_estimate wake =>
    if clock s <? wake then None
    else Some (poll_capacity_retry retry_request token_estimate s)
  | MRetryWait first_completed timeout =>
    let timed_out :=
      match timeout with Some w => w <=? clock s | None => false end in
    let ready :=
      if first_completed then existsb (task_done s) (pending_retries s)
      else forallb (task_done s) (pending_retries s) in
    if timed_out || ready then
      Some (with_main MRetryLoop
              (with_pending_retries
                 (filter (fun a => negb (task_done s a)) (pending_retries s)) s))
    else None
  | MDone => None
  end.

(** ** A task, between two suspensions *)

(** [process_with_semaphore] up to [await session.post]: lines 342-345,
    460-461 and 199-208. *)
Definition step_start (a : nat) (s : State) : option State :=
  match tasks s !! a with
  | Some (mkTask request blocked TCreated) =>
    if request_semaphore s <=? 0 then None
    else
      let s := with_request_semaphore (request_semaphore s - 1) s in
      let s := on_tracker (bump_in_progress 1) s in
      let s := emit [EvInProgress a 1] s in
      let s := emit [EvHttpCall a (task_id request) (clock s)] s in
      Some (set_task a (mkTask request blocked (TInFlight (clock s))) s)
  | _ => None
  end.

(** The HTTP call comes back: the rest of the [try] block, then the
    [else]/[finally] clauses (lines 528-534) up to the [await] of line
    537, or the [except] block up to its [await] of line 524 or to the
    end of the task (lines 527, 533-534 and 353-354). *)
Definition step_http (cfg : Config) (a : nat) (o : HttpOutcome) (s : State)
  : option State :=
  match tasks s !! a with
  | Some (mkTask request blocked (TInFlight start_time)) =>
    let '(st, t, evs) :=
      try_block cfg a (clock s) request blocked (tracker s) o in
    let s := emit evs (with_tracker st s) in
    match t with
    | TryCompleted generic_response =>
      let s := with_window
                 (MovingAverage._add_output_token_moving_window
                    (_output_tokens_window s)
                    (completion_tokens_of generic_response)) s in
      let s := semaphore_release s in
      Some (set_task a (mkTask request blocked (TSavingOk generic_response)) s)
    | _ =>
      let e := default (mkExn "" "") (raised t) in
      let s := emit [EvRaised a e] s in
      let s := on_tracker (bump_other 1) s in
      match except_block request e with
      | Retry request =>
        let s := with_queue (queue_of_requests_to_retry s ++ [request]) s in
        let s := emit [EvRequeue a (task_id request)] s in
        let s := semaphore_release s in
        let s := on_tracker (bump_in_progress (-1)) s in
        let s := emit [EvInProgress a (-1)] s in
        let s := with_request_semaphore (request_semaphore s + 1) s in
        Some (set_task a (mkTask request blocked (TFinished EndRequeued)) s)
      | GiveUp request record =>
        Some (set_task a (mkTask request blocked (TSavingFailed record)) s)
      end
    end
  | _ => None
  end.

(** The file write of [append_generic_response] takes place. *)
Definition step_write (a : nat) (s : State) : option State :=
  match tasks s !! a with
  | Some (mkTask request blocked (TSavingOk r)) =>
    let s := with_response_file (response_file s ++ [r]) s in
    let s := emit [EvAppend a (task_id request) r] s in
    Some (set_task a (mkTask request blocked TSavedOk) s)
  | Some (mkTask request blocked (TSavingFailed r)) =>
    let s := with_response_file (response_file s ++ [r]) s in
    let s := emit [EvAppend a (task_id request) r] s in
    Some (set_task a (mkTask request blocked TSavedFailed) s)
  | _ => None
  end.

(** The task is resumed after the write: lines 539-540 or 525-527 and
    533-534, then lines 353-354 and the release of [request_semaphore]. *)
Definition step_resume (a : nat) (s : State) : option State :=
  match tasks s !! a with
  | Some (mkTask request blocked TSavedOk) =>
    let s := on_tracker (bump_in_progress (-1)) s in
    let s := emit [EvInProgress a (-1)] s in
    let s := on_tracker (bump_succeeded 1) s in
    let s := emit [EvSucceeded a] s in
    let s := on_tracker (bump_in_progress (-1)) s in
    let s := emit [EvInProgress a (-1)] s in
    let s := with_request_semaphore (request_semaphore s + 1) s in
    Some (set_task a (mkTask request blocked (TFinished EndSucceeded)) s)
  | Some (mkTask request blocked TSavedFailed) =>
    let s := on_tracker (bump_in_progress (-1)) s in
    let s := emit [EvInProgress a (-1)] s in
    let s := on_tracker (bump_failed 1) s in
    let s := emit [EvFailed a] s in
    let s := semaphore_release s in
    let s := on_tracker (bump_in_progress (-1)) s in
    let s := emit [EvInProgress a (-1)] s in
    let s := with_request_semaphore (request_semaphore s + 1) s in
    Some (set_task a (mkTask request blocked (TFinished EndFailed)) s)
  | _ => None
  end.

(** ** The transition function *)

Inductive Choice :=
| Tick (dt : Z)                      (* time passes *)
| RunMain                            (* the main coroutine is resumed *)
| RunStart (a : nat)                 (* task [a] enters [request_semaphore] and posts *)
| RunHttp (a : nat) (o : HttpOutcome) (* the call of task [a] comes back *)
| RunWrite (a : nat)                 (* the file write of task [a] happens *)
| RunResume (a : nat).               (* task [a] is resumed after its write *)

Definition step (cfg : Config) (s : State) (c : Choice) : option State :=
  match c with
  | Tick dt => if dt <? 0 then None else Some (with_clock (clock s + dt) s)
  | RunMain => step_main cfg s
  | RunStart a => step_start a s
  | RunHttp a o => step_http cfg a o s
  | RunWrite a => step_write a s
  | RunResume a => step_resume a s
  end.

Fixpoint exec (cfg : Config) (s : State) (cs : list Choice) : option State :=
  match cs with
  | [] => Some s
  | c :: cs =>
    match step cfg s c with
    | Some s' => exec cfg s' cs
    | None => None
    end
  end.

End EventLoop.

(** ** Starting a run *)

(** Modelled from the spec: [validate_existing_response_file] is a method of
    [BaseRequestProcessor], whose file is not among the sources.  Spec,
    section 4.4: "On startup, the log is scanned; any record whose
    [generic_request.original_row_idx] is present is considered complete and
    its id added to the resume set."  The existing file is kept and appended
    to. *)
Definition validate_existing_response_file (existing : list GenericResponse)
  : list Z :=
  map (fun r => original_row_idx (generic_request_of r)) existing.

(** The property [max_concurrent_requests] as [__init__] reads it (the
    header-based value is still [None] there). *)
Definition max_concurrent_requests (cfg : Config) : option Z :=
  match manual_max_concurrent_requests cfg with
  | Some n => if n =? 0 then None else Some n
  | None => None
  end.

(** What a run starts from: the two files, the clock, and the state of the
    tracker that line 278 creates.  The counters of a new tracker are zero. *)
Record Setup `{CapacityTracker} := mkSetup {
  request_lines : list GenericRequest;
  existing_responses : list GenericResponse;
  started_at : Z;
  tracker_max_tokens_per_minute : option Z;
  initial_capacity : Capacity;
  initial_time_of_last_rate_limit_error : Z;
  initial_window : list Z
}.

Section Run.
Context `{CapacityTracker} `{Provider}.

(** [asyncio.Semaphore(value)] raises [ValueError] for a negative value. *)
Definition semaphore_value_ok (v : Z) : bool := 0 <=? v.

(** The state in which the main coroutine reaches line 305. *)
Definition start (cfg : Config) (i : Setup) : option State :=
  if semaphore_value_ok (max_batch cfg)
     && match max_concurrent_requests cfg with
        | Some n => semaphore_value_ok n
        | None => true
        end
  then
    Some {| clock := started_at i;
            tracker := mkTracker _ 0 0 0 0 0 0 0
                         (initial_time_of_last_rate_limit_error i)
                         (tracker_max_tokens_per_minute i)
                         (initial_capacity i);
            _semaphore := max_concurrent_requests cfg;
            request_semaphore := max_batch cfg;
            file := request_lines i;
            completed_request_ids :=
              validate_existing_response_file (existing_responses i);
            pending_requests := [];
            pending_retries := [];
            queue_of_requests_to_retry := [];
            tasks := [];
            main := MReadLine;
            response_file := existing_responses i;
            _output_tokens_window := initial_window i;
            trace := [] |}
  else None.

(** The states a run passes through. *)
Definition reachable (cfg : Config) (i : Setup) (s : State) : Prop :=
  exists s0 cs, start cfg i = Some s0 /\ exec cfg s0 cs = Some s.

(** [process_requests_from_file] has returned. *)
Definition terminated (s : State) : Prop := main s = MDone.

(** The state after a given schedule, from the start. *)
Definition run (cfg : Config) (i : Setup) (cs : list Choice) : option State :=
  match start cfg i with
  | Some s0 => exec cfg s0 cs
  | None => None
  end.

End Run.

(** ** What is counted, and what is kept, along a run *)

Definition first_pass (pc : MainPc) : bool :=
  match pc with
  | MReadLine | MAcquire _ | MWaitCapacity _ _ _ | MCoolDown _ _ _
  | MWaitFirstCompleted | MGather => true
  | _ => false
  end.

(** The number of tasks that satisfy a test. *)
Fixpoint count (f : Task -> bool) (ts : list Task) : Z :=
  match ts with
  | [] => 0
  | t :: ts => (if f t then 1 else 0) + count f ts
  end.

Definition ended_succeeded (t : Task) : bool :=
  match t_pc t with TFinished EndSucceeded => true | _ => false end.

Definition ended_failed (t : Task) : bool :=
  match t_pc t with TFinished EndFailed => true | _ => false end.

Definition ended_requeued (t : Task) : bool :=
  match t_pc t with TFinished EndRequeued => true | _ => false end.

(** The task has not handed its request back to the retry queue. *)
Definition holds_request (t : Task) : bool :=
  match t_pc t with TFinished EndRequeued => false | _ => true end.

(** The task is between line 343 and the end of its coroutine. *)
Definition between_increment_and_end (t : Task) : bool :=
  match t_pc t with
  | TInFlight _ | TSavingOk _ | TSavedOk | TSavingFailed _ | TSavedFailed => true
  | _ => false
  end.

Definition live (t : Task) : bool := negb (is_finished (t_pc t)).

(** The task named [a] exists and is unfinished. *)
Definition live_at (l : list Task) (a : nat) : bool :=
  match l !! a with
  | Some t => live t
  | None => false
  end.

Section Accounting.
Context `{CapacityTracker} `{Provider}.

(** The request that the retry loop has taken from the queue and not yet
    given to a task. *)
Definition retry_in_hand (s : State) : list APIRequest :=
  match main s with
  | MRetryWaitCapacity retry_request _ _ => [retry_request]
  | _ => []
  end.

(** Every unfinished task is in the set of tasks that the main coroutine
    currently waits on. *)
Definition tasks_awaited (s : State) : Prop :=
  (forall a t, tasks s !! a = Some t -> live t = true ->
               a ∈ (if first_pass (main s) then pending_requests s
                    else pending_retries s))
  /\ (first_pass (main s) = true -> pending_retries s = [])
  /\ (main s = MDone ->
      pending_retries s = [] /\ queue_of_requests_to_retry s = []).

(** The counters as numbers of tasks. *)
Definition counters_count_tasks (s : State) : Prop :=
  num_tasks_succeeded (tracker s) = count ended_succeeded (tasks s)
  /\ num_tasks_failed (tracker s) = count ended_failed (tasks s)
  /\ num_tasks_started (tracker s)
     = count holds_request (tasks s)
       + Z.of_nat (length (queue_of_requests_to_retry s))
       + Z.of_nat (length (retry_in_hand s))
  /\ num_tasks_in_progress (tracker s)
     = count between_increment_and_end (tasks s)
       - count ended_succeeded (tasks s) - count ended_failed (tasks s).

(** Lines 364-368. *)
Definition backpressure (cfg : Config) (s : State) : Prop :=
  Z.of_nat (length (pending_requests s)) <= max_batch cfg * 3
  /\ (main s <> MWaitFirstCompleted ->
      Z.of_nat (length (pending_requests s)) < max_batch cfg * 3).

End Accounting.

(** ** Order of events *)

Definition is_consume (a : nat) (e : Event) : Prop :=
  match e with EvConsume a' _ => a' = a | _ => False end.

Definition is_cool_down (a : nat) (e : Event) : Prop :=
  match e with EvCoolDown a' => a' = a | _ => False end.

Definition is_launch (a : nat) (e : Event) : Prop :=
  match e with EvLaunch a' _ => a' = a | _ => False end.

Definition is_http_call (a : nat) (e : Event) : Prop :=
  match e with EvHttpCall a' _ _ => a' = a | _ => False end.

Definition is_free (a : nat) (e : Event) : Prop :=
  match e with EvFree a' _ _ => a' = a | _ => False end.

Definition is_raised (a : nat) (e : Event) : Prop :=
  match e with EvRaised a' _ => a' = a | _ => False end.

(** The line written is a success record. *)
Definition is_success_append (a : nat) (e : Event) : Prop :=
  match e with
  | EvAppend a' _ r => a' = a /\ response_message r <> None
  | _ => False
  end.

(** Some event of the trace satisfies [P]. *)
Definition occurs (P : Event -> Prop) (tr : list Event) : Prop :=
  exists e, e ∈ tr /\ P e.

(** In a trace kept latest first: every [later] event has an [earlier]
    event before it. *)
Definition precedes (earlier later : Event -> Prop) (tr : list Event) : Prop :=
  forall newer e older,
    tr = newer ++ e :: older -> later e -> occurs earlier older.

(** The task is past the [try] block, on the side of the [else] clause. *)
Definition on_success_path (pc : TaskPc) : bool :=
  match pc with
  | TSavingOk _ | TSavedOk | TFinished EndSucceeded => true
  | _ => false
  end.

(** The task is past the [try] block, on the side of the [except] block. *)
Definition on_failure_path (pc : TaskPc) : bool :=
  match pc with
  | TSavingFailed _ | TSavedFailed | TFinished EndFailed
  | TFinished EndRequeued => true
  | _ => false
  end.

(** What one transition does to the tasks and to the trace. *)
Section Effect.
Context `{CapacityTracker} `{Provider}.

Inductive Effect (cfg : Config) (s s' : State) : Prop :=
| EffNone :
    tasks s' = tasks s -> trace s' = trace s -> Effect cfg s s'
| EffCoolDown :
    tasks s' = tasks s ->
    trace s' = EvCoolDown (length (tasks s)) :: trace s ->
    Effect cfg s s'
| EffLaunch (request : APIRequest) (estimate : option TokenCount)
           (cool : list Event) :
    tasks s' = tasks s ++ [mkTask request estimate TCreated] ->
    trace s' = EvLaunch (length (tasks s)) (task_id request)
                 :: EvConsume (length (tasks s)) estimate
                 :: cool ++ trace s ->
    cool = [] \/ cool = [EvCoolDown (length (tasks s))] ->
    Effect cfg s s'
| EffStart (a : nat) (request : APIRequest) (blocked : option TokenCount) :
    tasks s !! a = Some (mkTask request blocked TCreated) ->
    tasks s' = <[a := mkTask request blocked (TInFlight (clock s))]> (tasks s) ->
    trace s' = EvHttpCall a (task_id request) (clock s)
                 :: EvInProgress a 1 :: trace s ->
    Effect cfg s s'
| EffCompleted (a : nat) (request : APIRequest) (blocked : option TokenCount)
               (start_time : Z) (o : HttpOutcome) (st : OnlineStatusTracker)
               (r : GenericResponse) (evs : list Event) :
    tasks s !! a = Some (mkTask request blocked (TInFlight start_time)) ->
    try_block cfg a (clock s) request blocked (tracker s) o
      = (st, TryCompleted r, evs) ->
    tasks s' = <[a := mkTask request blocked (TSavingOk r)]> (tasks s) ->
    trace s' = rev evs ++ trace s ->
    Effect cfg s s'
| EffRetry (a : nat) (request request' : APIRequest)
           (blocked : option TokenCount) (start_time : Z) (o : HttpOutcome)
           (st : OnlineStatusTracker) (t : TryResult) (e : Exn)
           (evs : list Event) :
    tasks s !! a = Some (mkTask request blocked (TInFlight start_time)) ->
    try_block cfg a (clock s) request blocked (tracker s) o = (st, t, evs) ->
    raised t = Some e ->
    except_block request e = Retry request' ->
    tasks s' = <[a := mkTask request' blocked (TFinished EndRequeued)]> (tasks s) ->
    trace s' = EvInProgress a (-1) :: EvRequeue a (task_id request')
                 :: EvRaised a e :: rev evs ++ trace s ->
    Effect cfg s s'
| EffGiveUp (a : nat) (request request' : APIRequest)
            (blocked : option TokenCount) (start_time : Z) (o : HttpOutcome)
            (st : OnlineStatusTracker) (t : TryResult) (e : Exn)
            (record : GenericResponse) (evs : list Event) :
    tasks s !! a = Some (mkTask request blocked (TInFlight start_time)) ->
    try_block cfg a (clock s) request blocked (tracker s) o = (st, t, evs) ->
    raised t = Some e ->
    except_block request e = GiveUp request' record ->
    tasks s' = <[a := mkTask request' blocked (TSavingFailed record)]> (tasks s) ->
    trace s' = EvRaised a e :: rev evs ++ trace s ->
    Effect cfg s s'
| EffWrite (a : nat) (request : APIRequest) (blocked : option TokenCount)
           (r : GenericResponse) (ok : bool) :
    tasks s !! a
      = Some (mkTask request blocked (if ok then TSavingOk r else TSavingFailed r)) ->
    tasks s' = <[a := mkTask request blocked (if ok then TSavedOk else TSavedFailed)]>
                 (tasks s) ->
    trace s' = EvAppend a (task_id request) r :: trace s ->
    response_file s' = response_file s ++ [r] ->
    Effect cfg s s'
| EffResume (a : nat) (request : APIRequest) (blocked : option TokenCount)
            (ok : bool) :
    tasks s !! a
      = Some (mkTask request blocked (if ok then TSavedOk else TSavedFailed)) ->
    tasks s' = <[a := mkTask request blocked
                        (TFinished (if ok then EndSucceeded else EndFailed))]>
                 (tasks s) ->
    trace s' = EvInProgress a (-1)
                 :: (if ok then EvSucceeded a else EvFailed a)
                 :: EvInProgress a (-1) :: trace s ->
    Effect cfg s s'.

End Effect.

Section TraceInvariant.
Context `{CapacityTracker} `{Provider}.

Definition reservation_discipline (limit : option Z) (s : State) : Prop :=
  max_tokens_per_minute (tracker s) = limit
  /\ (forall a, precedes (is_consume a) (is_launch a) (trace s))
  /\ (forall a, precedes (is_launch a) (is_http_call a) (trace s))
  /\ (limit <> None ->
      forall a, precedes (is_free a) (is_success_append a) (trace s))
  /\ (forall a t, tasks s !! a = Some t -> occurs (is_launch a) (trace s))
  /\ (forall a t r, tasks s !! a = Some t -> t_pc t = TSavingOk r ->
        response_message r <> None
        /\ (limit <> None -> occurs (is_free a) (trace s)))
  /\ (forall a t r, tasks s !! a = Some t -> t_pc t = TSavingFailed r ->
        response_message r = None)
  /\ (forall a, occurs (is_free a) (trace s) ->
        limit <> None
        /\ exists t, tasks s !! a = Some t /\ on_success_path (t_pc t) = true)
  /\ (forall a, occurs (is_raised a) (trace s) ->
        exists t, tasks s !! a = Some t /\ on_failure_path (t_pc t) = true).

End TraceInvariant.

(** ** Cool-down after a rate-limit error *)

(** The times at which rate-limit errors were observed. *)
Fixpoint rate_limit_times (tr : list Event) : list Z :=
  match tr with
  | [] => []
  | EvRateLimit _ t :: older => t :: rate_limit_times older
  | _ :: older => rate_limit_times older
  end.

(** The times of the rate-limit errors observed before
    [cool_down_if_rate_limit_error] was called for attempt [a]; empty when
    it was not called for [a]. *)
Fixpoint errors_before_check (a : nat) (tr : list Event) : list Z :=
  match tr with
  | [] => []
  | EvCoolDown a' :: older =>
    if (a' =? a)%nat then rate_limit_times older else errors_before_check a older
  | _ :: older => errors_before_check a older
  end.

(** The times at which attempt [a] issued its HTTP call. *)
Fixpoint http_call_times (a : nat) (tr : list Event) : list Z :=
  match tr with
  | [] => []
  | EvHttpCall a' _ t :: older =>
    if (a' =? a)%nat then t :: http_call_times a older else http_call_times a older
  | _ :: older => http_call_times a older
  end.

(** No HTTP call is issued less than [pause] after a rate-limit error
    observed before it. *)
Definition cool_down_respected (pause : Z) (tr : list Event) : Prop :=
  forall newer a task call older t,
    tr = newer ++ EvHttpCall a task call :: older ->
    t ∈ rate_limit_times older ->
    t + pause <= call.

(** The same for the errors observed before the cool-down check of the
    attempt that makes the call. *)
Definition admission_cool_down_respected (pause : Z) (tr : list Event) : Prop :=
  forall a call t,
    call ∈ http_call_times a tr ->
    t ∈ errors_before_check a tr ->
    t + pause <= call.

Section CoolDown.
Context `{CapacityTracker} `{Provider}.

Definition cool_down_kept (cfg : Config) (s : State) : Prop :=
  (forall t, t ∈ rate_limit_times (trace s) ->
     t <= clock s /\ t <= time_of_last_rate_limit_error (tracker s))
  /\ (forall a t, (a < length (tasks s))%nat ->
        t ∈ errors_before_check a (trace s) ->
        t + seconds_to_pause_on_rate_limit cfg <= clock s)
  /\ (forall request token_estimate wake t,
        main s = MCoolDown request token_estimate wake ->
        t ∈ errors_before_check (length (tasks s)) (trace s) ->
        t + seconds_to_pause_on_rate_limit cfg <= wake)
  /\ (forall a, (length (tasks s) <= a)%nat ->
        http_call_times a (trace s) = []
        /\ ((a = length (tasks s)
             /\ exists request token_estimate wake,
                  main s = MCoolDown request token_estimate wake)
            \/ errors_before_check a (trace s) = []))
  /\ admission_cool_down_respected (seconds_to_pause_on_rate_limit cfg)
       (trace s).

End CoolDown.

(** ** The two semaphores *)

(** The attempt holds [self._semaphore]: from its admission by the main
    coroutine to the [finally] clause of
    [handle_single_request_with_retries] (lines 533-534), which a failed
    last attempt reaches only after its record is written. *)
Definition holds_semaphore (t : Task) : bool :=
  match t_pc t with
  | TCreated | TInFlight _ | TSavingFailed _ | TSavedFailed => true
  | _ => false
  end.

(** The main coroutine has acquired [self._semaphore] for a request that it
    has not yet given to a task. *)
Definition main_holds_semaphore (pc : MainPc) : Z :=
  match pc with
  | MWaitCapacity _ _ _ | MCoolDown _ _ _ | MRetryWaitCapacity _ _ _ => 1
  | _ => 0
  end.

Section Semaphores.
Context `{CapacityTracker} `{Provider}.

Definition semaphores_balanced (cfg : Config) (s : State) : Prop :=
  0 <= request_semaphore s
  /\ request_semaphore s + count between_increment_and_end (tasks s)
     = max_batch cfg
  /\ match max_concurrent_requests cfg with
     | Some n =>
       exists v, _semaphore s = Some v /\ 0 <= v
                 /\ v + count holds_semaphore (tasks s)
                    + main_holds_semaphore (main s) = n
     | None => _semaphore s = None
     end.

End Semaphores.

(** ** The error counters *)

(** The number of attempts that ended in the [except] block. *)
Fixpoint raised_count (tr : list Event) : Z :=
  match tr with
  | [] => 0
  | EvRaised _ _ :: older => 1 + raised_count older
  | _ :: older => raised_count older
  end.

Section ErrorCounters.
Context `{CapacityTracker} `{Provider}.

Definition error_counters_kept (i : Setup) (s : State) : Prop :=
  num_rate_limit_errors (tracker s)
  = Z.of_nat (length (rate_limit_times (trace s)))
  /\ num_rate_limit_errors (tracker s) + num_other_errors (tracker s)
     = raised_count (trace s)
  /\ 0 <= num_api_errors (tracker s) <= num_other_errors (tracker s)
  /\ time_of_last_rate_limit_error (tracker s)
     = hd (initial_time_of_last_rate_limit_error i) (rate_limit_times (trace s)).

End ErrorCounters.

(** ** Where the requests of a run come from *)

(** The lines that the first-pass loop does not skip (lines 311-314). *)
Fixpoint to_do (done : list Z) (lines : list GenericRequest)
  : list GenericRequest :=
  match lines with
  | [] => []
  | generic_request :: rest =>
    if bool_decide (original_row_idx generic_request ∈ done)
    then to_do done rest
    else generic_request :: to_do done rest
  end.

(** The request carries the number and the content of one of the lines. *)
Definition rooted (lines : list GenericRequest) (request : APIRequest) : Prop :=
  0 <= task_id request
  /\ lines !! Z.to_nat (task_id request) = Some (generic_request request).

(** The line that the main coroutine has read and not yet parsed. *)
Definition line_in_hand (pc : MainPc) : list GenericRequest :=
  match pc with
  | MAcquire line => [line]
  | _ => []
  end.

(** The request that the first-pass loop has built and not yet given to a
    task. *)
Definition request_in_hand (pc : MainPc) : list APIRequest :=
  match pc with
  | MWaitCapacity request _ _ | MCoolDown request _ _ => [request]
  | _ => []
  end.

(** The main coroutine is inside the loop over the lines of the file. *)
Definition reading (pc : MainPc) : bool :=
  match pc with
  | MReadLine | MAcquire _ | MWaitCapacity _ _ _ | MCoolDown _ _ _
  | MWaitFirstCompleted => true
  | _ => false
  end.

Section Provenance.
Context `{CapacityTracker} `{Provider}.

Definition provenance (cfg : Config) (i : Setup) (s : State) : Prop :=
  let lines := to_do (completed_request_ids s) (request_lines i) in
  let started := num_tasks_started (tracker s) in
  completed_request_ids s
  = validate_existing_response_file (existing_responses i)
  /\ 0 <= started
  /\ (Z.to_nat started + length (request_in_hand (main s)) <= length lines)%nat
  /\ to_do (completed_request_ids s) (line_in_hand (main s) ++ file s)
     = drop (Z.to_nat started + length (request_in_hand (main s))) lines
  /\ (reading (main s) = false -> file s = [])
  /\ (forall a t, tasks s !! a = Some t -> rooted lines (t_request t))
  /\ (forall request, request ∈ queue_of_requests_to_retry s ->
        rooted lines request)
  /\ (forall request, request ∈ retry_in_hand s -> rooted lines request)
  /\ (forall request, request ∈ request_in_hand (main s) ->
        rooted lines request
        /\ task_id request = started
        /\ attempts_left request = max_retries cfg
        /\ result request = []).

End Provenance.

(** ** The first attempt of a request *)

(** The main coroutine sleeps inside [cool_down_if_rate_limit_error]. *)
Definition cooling (pc : MainPc) : bool :=
  match pc with
  | MCoolDown _ _ _ => true
  | _ => false
  end.

Section FirstAttempts.
Context `{CapacityTracker} `{Provider}.

(** The tasks that the loop over the file creates are the first
    [num_tasks_started] tasks, and the task named [k] among them makes the
    first attempt of the request numbered [k]; each of them is created after
    [cool_down_if_rate_limit_error] was called for it. *)
Definition first_attempts_kept (s : State) : Prop :=
  let started := num_tasks_started (tracker s) in
  0 <= started
  /\ (Z.to_nat started <= length (tasks s))%nat
  /\ (first_pass (main s) = true -> length (tasks s) = Z.to_nat started)
  /\ (forall a t, tasks s !! a = Some t -> (a < Z.to_nat started)%nat ->
        task_id (t_request t) = Z.of_nat a)
  /\ (forall request, request ∈ request_in_hand (main s) ->
        task_id request = started)
  /\ (forall a, occurs (is_launch a) (trace s) -> (a < length (tasks s))%nat)
  /\ (forall a, (a < Z.to_nat started)%nat ->
        precedes (is_cool_down a) (is_launch a) (trace s))
  /\ (cooling (main s) = true ->
      occurs (is_cool_down (length (tasks s))) (trace s))
  /\ (forall a, occurs (is_cool_down a) (trace s) ->
        (a < Z.to_nat started)%nat
        \/ (a = length (tasks s) /\ cooling (main s) = true)).

End FirstAttempts.

(** ** The arguments of the capacity calls *)

(** [consume_capacity] is called for attempt [a] with this estimate. *)
Definition is_consume_with (a : nat) (token_estimate : option TokenCount)
    (e : Event) : Prop :=
  e = EvConsume a token_estimate.

(** [free_capacity] is called for attempt [a] with these arguments. *)
Definition is_free_with (a : nat) (used_capacity : TokenCount)
    (blocked_capacity : option TokenCount) (e : Event) : Prop :=
  e = EvFree a used_capacity blocked_capacity.

(** The line written by attempt [a] is the success record [r]. *)
Definition is_success_append_of (a : nat) (r : GenericResponse) (e : Event)
  : Prop :=
  match e with
  | EvAppend a' _ r' => a' = a /\ r' = r /\ response_message r <> None
  | _ => False
  end.

(** The request that the main coroutine holds while it sleeps, with the
    estimate computed for it. *)
Definition estimate_in_hand (pc : MainPc)
  : list (APIRequest * option TokenCount) :=
  match pc with
  | MWaitCapacity request token_estimate _
  | MCoolDown request token_estimate _
  | MRetryWaitCapacity request token_estimate _ => [(request, token_estimate)]
  | _ => []
  end.

Section CallArguments.
Context `{CapacityTracker} `{Provider}.

(** The estimate kept with a request is the one of lines 324-327 and
    386-389. *)
Definition estimates_kept (s : State) : Prop :=
  (forall a t, tasks s !! a = Some t ->
     t_blocked t = token_estimate_for s (t_request t))
  /\ (forall request token_estimate,
        (request, token_estimate) ∈ estimate_in_hand (main s) ->
        token_estimate = token_estimate_for s request).

(** The events of the capacity calls carry the estimate of their task, and
    the usage of the record that the task then writes. *)
Definition arguments_kept (limit : option Z) (s : State) : Prop :=
  (forall a token_estimate, EvConsume a token_estimate ∈ trace s ->
     exists t, tasks s !! a = Some t /\ t_blocked t = token_estimate)
  /\ (forall a used blocked, EvFree a used blocked ∈ trace s ->
        exists t, tasks s !! a = Some t /\ t_blocked t = blocked)
  /\ (forall a t r, tasks s !! a = Some t -> t_pc t = TSavingOk r ->
        limit <> None ->
        EvFree a (used_capacity_of r) (t_blocked t) ∈ trace s)
  /\ (limit <> None ->
      forall a r,
        precedes
          (fun e => exists blocked, is_free_with a (used_capacity_of r) blocked e)
          (is_success_append_of a r) (trace s)).

End CallArguments.

(** ** The retry budget *)

(** The number of HTTP calls made for the request numbered [k]. *)
Fixpoint calls (k : Z) (tr : list Event) : Z :=
  match tr with
  | [] => 0
  | EvHttpCall _ k' _ :: older => (if k' =? k then 1 else 0) + calls k older
  | _ :: older => calls k older
  end.

Definition for_record (k : Z) (request : APIRequest) : bool :=
  task_id request =? k.

Fixpoint count_requests (k : Z) (requests : list APIRequest) : Z :=
  match requests with
  | [] => 0
  | request :: rest =>
    (if for_record k request then 1 else 0) + count_requests k rest
  end.

(** The task holds the request numbered [k]. *)
Definition holder (k : Z) (t : Task) : bool :=
  holds_request t && for_record k (t_request t).


Section Budget.
Context `{CapacityTracker} `{Provider}.

(** The number of places (tasks, retry queue, retry loop) that hold the
    request numbered [k]. *)
Definition occurrences (k : Z) (s : State) : Z :=
  count (holder k) (tasks s)
  + count_requests k (queue_of_requests_to_retry s)
  + count_requests k (retry_in_hand s).

(** The requests are numbered from zero, and each is in one place. *)
Definition numbered (s : State) : Prop :=
  forall k, occurrences k s
            = if (0 <=? k) && (k <? num_tasks_started (tracker s))
              then 1 else 0.


End Budget.

(** ** The response file *)

Definition is_append (e : Event) : Prop :=
  match e with EvAppend _ _ _ => True | _ => False end.

(** The records appended by the run, oldest first. *)
Fixpoint appended (tr : list Event) : list GenericResponse :=
  match tr with
  | [] => []
  | EvAppend _ _ r :: older => appended older ++ [r]
  | _ :: older => appended older
  end.

(** The numbers of the requests whose records were appended, oldest first. *)
Fixpoint appended_ids (tr : list Event) : list Z :=
  match tr with
  | [] => []
  | EvAppend _ k _ :: older => appended_ids older ++ [k]
  | _ :: older => appended_ids older
  end.

(** The number of records appended for the request numbered [k]. *)
Fixpoint writes (k : Z) (tr : list Event) : Z :=
  match tr with
  | [] => 0
  | EvAppend _ k' _ :: older => (if k' =? k then 1 else 0) + writes k older
  | _ :: older => writes k older
  end.

(** The task has written its record. *)
Definition wrote (t : Task) : bool :=
  match t_pc t with
  | TSavedOk | TSavedFailed | TFinished EndSucceeded | TFinished EndFailed => true
  | _ => false
  end.

Definition writer (k : Z) (t : Task) : bool :=
  wrote t && for_record k (t_request t).

(** The record is what the [except] block writes for a request that has no
    attempts left: no message, and the errors of all its attempts as
    strings. *)
Definition permanent_failure (r : GenericResponse) : Prop :=
  exists request,
    r = failure_record request
    /\ attempts_left request <= 0
    /\ result request <> [].

Section Log.
Context `{CapacityTracker} `{Provider}.

Definition log_kept (i : Setup) (s : State) : Prop :=
  let lines := to_do (completed_request_ids s) (request_lines i) in
  response_file s = existing_responses i ++ appended (trace s)
  /\ map (fun r => Some (generic_request_of r)) (appended (trace s))
     = map (fun k => lines !! Z.to_nat k) (appended_ids (trace s))
  /\ (forall k, writes k (trace s) = count (writer k) (tasks s))
  /\ (forall a t r, tasks s !! a = Some t -> t_pc t = TSavingOk r ->
        generic_request_of r = generic_request (t_request t)
        /\ response_message r <> None)
  /\ (forall a t r, tasks s !! a = Some t -> t_pc t = TSavingFailed r ->
        generic_request_of r = generic_request (t_request t)
        /\ permanent_failure r)
  /\ (forall r, r ∈ appended (trace s) ->
        response_message r <> None \/ permanent_failure r).



End Log.

(** ** The counter updates of one attempt *)

Definition is_counter_update (a : nat) (e : Event) : bool :=
  match e with
  | EvInProgress a' _ | EvUpdateStats a' | EvSucceeded a' | EvFailed a' =>
    (a' =? a)%nat
  | _ => false
  end.

(** The counter updates of attempt [a], in the order in which they were
    made. *)
Definition counter_updates (a : nat) (tr : list Event) : list Event :=
  rev (filter (fun e => is_counter_update a e) tr).

(** ** Concrete collaborators, for running the model *)

(** A tracker without limits: there is always capacity. *)
Definition unlimited : CapacityTracker :=
  {| Capacity := unit;
     has_capacity := fun _ c _ => (true, c);
     consume_capacity := fun _ c _ => c;
     free_capacity := fun _ c _ _ => c;
     update_stats := fun c _ => c |}.

(** A provider that counts four tokens per message plus two, and accepts
    every response. *)
Definition plain_provider : Provider :=
  {| estimate_total_tokens :=
       fun ms => mkTokenCount (4 * Z.of_nat (length ms) + 2) 0;
     response_to_response_format := fun _ => None |}.

Definition ok_body (content : string) : ResponseJson :=
  {| resp_error := None;
     resp_content := content;
     resp_finish_reason := Some "stop";
     resp_usage := mkTokenUsage 10 5 15;
     resp_repr := content |}.

Definition error_body (message : string) : ResponseJson :=
  {| resp_error := Some (mkApiError (Some message) message);
     resp_content := "";
     resp_finish_reason := None;
     resp_usage := mkTokenUsage 0 0 0;
     resp_repr := message |}.

Definition line (idx : Z) : GenericRequest := mkGenericRequest idx [].

(** ** Concrete runs *)

Module Demo.

Definition cfg : Config :=
  {| max_retries := 1;
     seconds_to_pause_on_rate_limit := 15000;
     invalid_finish_reasons := ["content_filter"];
     return_completions_object := false;
     max_batch := 1;
     manual_max_concurrent_requests := None |}.

(** Two request lines and no response file yet. *)
Definition setup (limit : option Z) : @Setup unlimited :=
  @mkSetup unlimited [line 0; line 1] [] 100000 limit tt 0 [].

Definition rate_limited : HttpOutcome :=
  HttpReturns 429 (error_body "Rate limit reached for requests").

Definition replied : HttpOutcome := HttpReturns 200 (ok_body "done").

(** One request line. *)
Definition single : @Setup unlimited :=
  @mkSetup unlimited [line 0] [] 100000 None tt 0 [].

(** The only request succeeds at its first attempt and the run ends. *)
Definition one_succeeds : list Choice :=
  [RunMain; RunStart 0%nat; Tick 40; RunHttp 0%nat replied; RunWrite 0%nat;
   RunResume 0%nat; RunMain; RunMain; RunMain].

(** Three request lines: as many as may be pending with [max_batch = 1]. *)
Definition triple : @Setup unlimited :=
  @mkSetup unlimited [line 0; line 1; line 2] [] 100000 None tt 0 [].

(** The three lines are read and no task has run yet. *)
Definition three_read : list Choice := [RunMain; RunMain; RunMain].

(** As [cfg], with at most two requests admitted at a time. *)
Definition capped : Config :=
  {| max_retries := 1;
     seconds_to_pause_on_rate_limit := 15000;
     invalid_finish_reasons := ["content_filter"];
     return_completions_object := false;
     max_batch := 1;
     manual_max_concurrent_requests := Some 2 |}.

(** As [cfg], with [max_batch = 0]: [asyncio.Semaphore(0)] is created
    without complaint, and [3 * max_batch] is zero. *)
Definition unbatched : Config :=
  {| max_retries := 1;
     seconds_to_pause_on_rate_limit := 15000;
     invalid_finish_reasons := ["content_filter"];
     return_completions_object := false;
     max_batch := 0;
     manual_max_concurrent_requests := None |}.

(** The only line is read and its task created. *)
Definition one_read : list Choice := [RunMain].



(** The only request is refused at its first attempt and at its retry. *)
Definition refused_twice : list Choice :=
  [RunMain; RunStart 0%nat; Tick 40; RunHttp 0%nat rate_limited;
   RunMain; RunMain; RunMain; RunStart 1%nat; Tick 40;
   RunHttp 1%nat rate_limited; RunWrite 1%nat; RunResume 1%nat;
   RunMain; RunMain; RunMain].

Definition schedule (limit : option Z) (cs : list Choice) : option State :=
  @run unlimited plain_provider cfg (setup limit) cs.

(** Both lines are read and their tasks created; the first call is refused
    for the rate limit, and the second task posts as soon as the first has
    left [request_semaphore]. *)
Definition refused_then_posted : list Choice :=
  [RunMain; RunMain; RunStart 0%nat; Tick 40; RunHttp 0%nat rate_limited;
   RunStart 1%nat].

(** The first call is refused before the second line is read: the main
    loop sleeps before it creates the second task. *)
Definition refused_then_read : list Choice :=
  [RunMain; RunStart 0%nat; Tick 40; RunHttp 0%nat rate_limited;
   RunMain; Tick 15000; RunMain; RunStart 1%nat].

(** Both calls succeed and the run ends. *)
Definition both_succeed : list Choice :=
  [RunMain; RunMain; RunStart 0%nat; Tick 40; RunHttp 0%nat replied;
   RunWrite 0%nat; RunResume 0%nat; RunStart 1%nat; Tick 40;
   RunHttp 1%nat replied; RunWrite 1%nat; RunResume 1%nat;
   RunMain; RunMain; RunMain].

(** The run is interrupted when the record of the first line has been
    written. *)
Definition interrupted : list Choice :=
  [RunMain; RunMain; RunStart 0%nat; Tick 40; RunHttp 0%nat replied;
   RunWrite 0%nat].

(** The record that [replied] makes for a line. *)
Definition record_of (generic_request : GenericRequest) : GenericResponse :=
  {| response_message := Some "done";
     response_errors := None;
     generic_request_of := generic_request;
     token_usage := Some (mkTokenUsage 10 5 15);
     finish_reason := Some "stop" |}.

(** The same two lines, with the response file that the interrupted run
    has left. *)
Definition resumed : @Setup unlimited :=
  @mkSetup unlimited [line 0; line 1] [record_of (line 0)] 200000 None tt 0 [].

(** The first line is skipped, the second succeeds and the run ends. *)
Definition second_succeeds : list Choice :=
  [RunMain; RunMain; RunMain; RunStart 0%nat; Tick 40; RunHttp 0%nat replied;
   RunWrite 0%nat; RunResume 0%nat; RunMain; RunMain].

End Demo.

(** ** The limits of the processor

    The properties [max_concurrent_requests], [max_requests_per_minute] and
    [max_tokens_per_minute] of [BaseOnlineRequestProcessor] (lines 109-174)
    choose between the value of the configuration, the value read from the
    response headers and the default of the cost map.  The choice is made on
    the truth value of the candidates, so an [int] that is zero counts as
    not given. *)

Module Limits.

(** [bool(x)] for [x: int | None] *)
Definition truthy (x : option Z) : bool :=
  match x with
  | Some n => negb (n =? 0)
  | None => false
  end.

(** The attributes that [__init__] sets (lines 78-92); the defaults are
    entries of [_DEFAULT_COST_MAP]. *)
Record Attributes := mkAttributes {
  manual_max_requests_per_minute : option Z;
  manual_max_tokens_per_minute : option Z;
  manual_max_concurrent_requests : option Z;
  header_based_max_requests_per_minute : option Z;
  header_based_max_tokens_per_minute : option Z;
  header_based_max_concurrent_requests : option Z;
  default_max_requests_per_minute : option Z;
  default_max_tokens_per_minute : option Z
}.

(** Lines 109-128. *)
Definition max_concurrent_requests (self : Attributes) : option Z :=
  if truthy (manual_max_concurrent_requests self)
  then manual_max_concurrent_requests self
  else if truthy (header_based_max_concurrent_requests self)
  then header_based_max_concurrent_requests self
  else None.

(** Lines 130-151. *)
Definition max_requests_per_minute (self : Attributes) : option Z :=
  if truthy (manual_max_requests_per_minute self)
  then manual_max_requests_per_minute self
  else if truthy (header_based_max_requests_per_minute self)
  then header_based_max_requests_per_minute self
  else default_max_requests_per_minute self.

(** Lines 153-174. *)
Definition max_tokens_per_minute (self : Attributes) : option Z :=
  if truthy (manual_max_tokens_per_minute self)
  then manual_max_tokens_per_minute self
  else if truthy (header_based_max_tokens_per_minute self)
  then header_based_max_tokens_per_minute self
  else default_max_tokens_per_minute self.

(** The attributes after [BaseOnlineRequestProcessor.__init__]: nothing has
    been read from headers yet. *)
Definition after_init (config_rpm config_tpm config_concurrent : option Z)
    (default_rpm default_tpm : option Z) : Attributes :=
  {| manual_max_requests_per_minute := config_rpm;
     manual_max_tokens_per_minute := config_tpm;
     manual_max_concurrent_requests := config_concurrent;
     header_based_max_requests_per_minute := None;
     header_based_max_tokens_per_minute := None;
     header_based_max_concurrent_requests := None;
     default_max_requests_per_minute := default_rpm;
     default_max_tokens_per_minute := default_tpm |}.

(** [OpenAIOnlineRequestProcessor.__init__] (line 63 of the adapter) sets
    the two header-based limits to zero, unless the base URL is the one of
    DeepSeek. *)
Definition after_openai_init (deepseek : bool) (self : Attributes) : Attributes :=
  if deepseek then self
  else
    {| manual_max_requests_per_minute := manual_max_requests_per_minute self;
       manual_max_tokens_per_minute := manual_max_tokens_per_minute self;
       manual_max_concurrent_requests := manual_max_concurrent_requests self;
       header_based_max_requests_per_minute := Some 0;
       header_based_max_tokens_per_minute := Some 0;
       header_based_max_concurrent_requests :=
         header_based_max_concurrent_requests self;
       default_max_requests_per_minute := default_max_requests_per_minute self;
       default_max_tokens_per_minute := default_max_tokens_per_minute self |}.

End Limits.

(** ** Rate limits from the response headers *)

Module Headers.

(** The headers of the dummy reply, as a list of names and values; the
    first entry of a name is the one that [headers.get] returns. *)
Definition Headers := list (string * string).

Fixpoint get (headers : Headers) (name : string) : option string :=
  match headers with
  | [] => None
  | (n, v) :: rest => if String.eqb n name then Some v else get rest name
  end.

Section Parse.
(** [int(text)]: the number, or the [ValueError] that it raises. *)
Variable int : string -> Exn + Z.

(** [int(response.headers.get(name, 0))] *)
Definition header_int (headers : Headers) (name : string) : Exn + Z :=
  match get headers name with
  | Some text => int text
  | None => inr 0
  end.


(** [get_rate_limits] of the earlier processor (lines 101-132), from the
    reply on: the pair of ["max_requests_per_minute"] and
    ["max_tokens_per_minute"]. *)
Definition get_rate_limits (headers : Headers) : Exn + (Z * Z) :=
  match header_int headers "x-ratelimit-limit-requests" with
  | inl e => inl e
  | inr rpm =>
    match header_int headers "x-ratelimit-limit-tokens" with
    | inl e => inl e
    | inr tpm =>
      if (rpm =? 0) || (tpm =? 0) then inr (30000, 150000000)
      else inr (rpm, tpm)
    end
  end.

End Parse.

End Headers.

(** ** The token estimate of the OpenAI adapter *)

Module OpenAI.

Section Estimate.
(** [len(self.token_encoding.encode(text, ...))]; [None] when [encode]
    raises [TypeError]. *)
Variable encoded_length : string -> option nat.
(** [litellm.get_max_tokens(model)] when the model is in
    [litellm.model_cost]. *)
Variable model_max_tokens : option Z.

(** Lines 94-107 of the adapter. *)
Definition estimate_output_tokens : Z :=
  match model_max_tokens with
  | Some max_tokens => max_tokens / 4
  | None => 0
  end.

(** The body of the inner loop of [estimate_total_tokens], lines 129-135. *)
Definition add_item (num_tokens : Z) (item : string * string) : Z :=
  let '(key, value) := item in
  let num_tokens :=
    match encoded_length value with
    | Some n => num_tokens + Z.of_nat n
    | None => num_tokens + Z.of_nat (String.length value) / 4
    end in
  if String.eqb key "name" then num_tokens - 1 else num_tokens.

(** The body of the outer loop, lines 127-135. *)
Definition add_message (num_tokens : Z) (message : Message) : Z :=
  fold_left add_item message (num_tokens + 4).

(** Lines 109-139 of the adapter. *)
Definition estimate_total_tokens (messages : list Message) : TokenCount :=
  let num_tokens := fold_left add_message messages 0 in
  let num_tokens := num_tokens + 2 in
  mkTokenCount num_tokens estimate_output_tokens.


End Estimate.

(** A message as a [dict]: no key twice. *)
Definition is_dict (message : Message) : Prop := NoDup (map fst message).

(** The number of keys of a message that are ["name"]. *)
Fixpoint names (message : Message) : Z :=
  match message with
  | [] => 0
  | (key, _) :: rest => (if String.eqb key "name" then 1 else 0) + names rest
  end.

End OpenAI.

(** ** Structured output support

    [check_structured_output_support] of the adapter (lines 141-174).  The
    module imports [datetime] as a module (line 1), so [datetime.datetime]
    is the class and [datetime(...)] is a call of the module. *)

Module Structured.

(** [text.split(sep)[1]] for a [sep] that is not empty: the text between
    the first occurrence of [sep] and the next one; [None] when there is no
    occurrence ([IndexError]). *)
Fixpoint before_first (sep text : string) : string :=
  match text with
  | EmptyString => EmptyString
  | String c rest =>
    if String.prefix sep text then EmptyString
    else String c (before_first sep rest)
  end.

Fixpoint after_first (sep text : string) : option string :=
  match text with
  | EmptyString => None
  | String c rest =>
    if String.prefix sep text
    then Some (String.substring (String.length sep)
                 (String.length text - String.length sep) text)
    else after_first sep rest
  end.

Definition split_second (sep text : string) : option string :=
  option_map (before_first sep) (after_first sep text).

(** A date: year, month, day. *)
Definition Date := (Z * Z * Z)%type.

(** [a >= b] on dates *)
Definition date_ge (a b : Date) : bool :=
  let '(ya, ma, da) := a in
  let '(yb, mb, db) := b in
  (yb <? ya) || ((yb =? ya) && ((mb <? ma) || ((mb =? ma) && (db <=? da)))).

Definition index_error : Exn := mkExn "IndexError" "list index out of range".

Definition module_not_callable : Exn :=
  mkExn "TypeError" "'module' object is not callable".

Section Check.
(** [datetime.datetime.strptime(text, "%Y-%m-%d")]: the date, or the
    [ValueError] that it raises. *)
Variable strptime : string -> Exn + Date.

(** [datetime.datetime.strptime(model_name.split(sep)[1], "%Y-%m-%d")] *)
Definition date_after (sep model_name : string) : Exn + Date :=
  match split_second sep model_name with
  | None => inl index_error
  | Some text => strptime text
  end.

(** The test of a dated model: lines 163-166 and 167-170. *)
Definition dated_since (sep model_name : string) (since : Date) : Exn + bool :=
  if Text.contains sep model_name then
    match date_after sep model_name with
    | inl e => inl e
    | inr base_date => inr (date_ge base_date since)
    end
  else inr false.

Definition check_structured_output_support (model : string) : Exn + bool :=
  let model_name := Text.lower model in
  if String.eqb model_name "gpt-4o-mini" then inr true
  else if Text.contains "gpt-4o-mini-" model_name then
    match date_after "gpt-4o-mini-" model_name with
    | inl e => inl e
    | inr mini_date => inl module_not_callable
    end
  else if String.eqb model_name "gpt-4o" || String.eqb model_name "o1"
  then inr true
  else
    match dated_since "gpt-4o-" model_name (2024, 8, 6) with
    | inl e => inl e
    | inr true => inr true
    | inr false =>
      match dated_since "o1-" model_name (2024, 12, 17) with
      | inl e => inl e
      | inr true => inr true
      | inr false => inr false
      end
    end.

End Check.

End Structured.

(** ** The name of the response file *)

Module Files.

(** [text.replace(old, new)] for an [old] that is not empty; [skip]
    characters of an occurrence that was found are still to be passed
    over. *)
Fixpoint replace_from (old new : string) (skip : nat) (text : string) : string :=
  match text with
  | EmptyString => EmptyString
  | String c rest =>
    match skip with
    | S skip => replace_from old new skip rest
    | O =>
      if String.prefix old text
      then new ++ replace_from old new (String.length old - 1) rest
      else String c (replace_from old new 0 rest)
    end
  end.

Definition replace (old new text : string) : string :=
  replace_from old new 0 text.

(** Line 234 of [requests_to_responses]. *)
Definition response_file_of (request_file : string) : string :=
  replace "requests_" "responses_" request_file.

End Files.

(** * Properties *)

(** ** The moving window *)

Module MovingAverageFacts.
Import MovingAverage.

Lemma deque_append_last (n : nat) (l : list Z) (x : Z) :
  deque_append n (drop (length l - n) l) x
  = drop (length (l ++ [x]) - n) (l ++ [x]).
Proof.
  unfold deque_append.
  rewrite !length_app, length_drop. simpl.
  destruct (Nat.ltb_spec n (length l - (length l - n) + 1)) as [Hlt | Hge].
  - rewrite !drop_app, drop_drop, length_drop.
    f_equal; f_equal; lia.
  - assert (Hz : (length l - n = 0)%nat) by lia.
    rewrite Hz, drop_0.
    replace (length l + 1 - n)%nat with 0%nat by lia.
    reflexivity.
Qed.

Lemma observe_snoc (w obs : list Z) (x : Z) :
  observe w (obs ++ [x]) = _add_output_token_moving_window (observe w obs) x.
Proof. unfold observe. rewrite fold_left_app. reflexivity. Qed.

(** A deque that starts empty holds the last [_MAX_OUTPUT_MVA_WINDOW]
    observations. *)
Lemma observe_last (obs : list Z) :
  observe [] obs = drop (length obs - _MAX_OUTPUT_MVA_WINDOW) obs.
Proof.
  induction obs as [| x obs IH] using rev_ind; [reflexivity |].
  rewrite observe_snoc, IH.
  apply deque_append_last.
Qed.

Lemma append_bounded (w : list Z) (x : Z) :
  (length w <= _MAX_OUTPUT_MVA_WINDOW)%nat ->
  (length (_add_output_token_moving_window w x) <= _MAX_OUTPUT_MVA_WINDOW)%nat.
Proof.
  intros Hw. unfold _add_output_token_moving_window, deque_append.
  destruct (Nat.ltb_spec _MAX_OUTPUT_MVA_WINDOW (length (w ++ [x]))).
  - rewrite length_drop. rewrite length_app in *. simpl in *. lia.
  - lia.
Qed.

Lemma divisor_positive (w : list Z) : 0 < divisor w.
Proof.
  unfold divisor.
  destruct (Nat.eqb_spec (length w) 0); [reflexivity | lia].
Qed.

Lemma truediv_defined (a b : Z) : b <> 0 -> exists q, truediv a b = Some q.
Proof.
  intros Hb. unfold truediv.
  destruct (Z.eqb_spec b 0); [contradiction | eauto].
Qed.

End MovingAverageFacts.

(** C10.  The window holds at most the last 50 completion-token counts, the
    divisor of the moving average is never zero, and for the empty window
    the average is the zero sum divided by the window size 50, that is 0. *)
Theorem C10_moving_average_window_bounded_and_total :
  (forall obs : list Z,
      let w := MovingAverage.observe [] obs in
      w = drop (length obs - 50) obs
      /\ (length w <= 50)%nat
      /\ MovingAverage.divisor w <> 0
      /\ exists q, MovingAverage._output_tokens_moving_average w = Some q)
  /\ MovingAverage.sum [] = 0
  /\ MovingAverage.divisor [] = 50
  /\ MovingAverage._output_tokens_moving_average [] = Some 0%Q.
Proof.
  split; [| repeat split; reflexivity].
  intros obs w.
  assert (Hw : w = drop (length obs - 50) obs)
    by apply MovingAverageFacts.observe_last.
  pose proof (MovingAverageFacts.divisor_positive w) as Hd.
  split; [exact Hw |].
  split; [rewrite Hw, length_drop; lia |].
  split; [lia |].
  apply MovingAverageFacts.truediv_defined. lia.
Qed.

(** ** The [except] block *)

Section HandlerFacts.
Context `{CapacityTracker}.

Lemma except_block_retry (request : APIRequest) (e : Exn) :
  0 < attempts_left request ->
  except_block request e
  = Retry (mkAPIRequest (task_id request) (generic_request request)
             (attempts_left request - (if is_read_timeout e then 2 else 1))
             (result request ++ [e])).
Proof.
  intros Hpos. unfold except_block, append_result, with_attempts_left. simpl.
  destruct (Z.ltb_spec 0 (attempts_left request)); [| lia].
  destruct (is_read_timeout e); simpl; do 2 f_equal; lia.
Qed.

Lemma except_block_give_up (request : APIRequest) (e : Exn) :
  attempts_left request <= 0 ->
  except_block request e
  = GiveUp (append_result e request) (failure_record (append_result e request)).
Proof.
  intros Hle. unfold except_block. simpl.
  destruct (Z.ltb_spec 0 (attempts_left request)); [lia | reflexivity].
Qed.

(** The counters after a rate-limit reply, online adapter followed by the
    first statement of the [except] block. *)
Lemma online_rate_limit_counters (cfg : Config) (a : nat) (now status : Z)
    (request : APIRequest) (st : OnlineStatusTracker)
    (response : ResponseJson) (error : ApiError) :
  resp_error response = Some error ->
  is_rate_limit error = true ->
  let st' := bump_other 1
               (call_single_request cfg a now request st
                  (HttpReturns status response)).1.1 in
  num_rate_limit_errors st' = num_rate_limit_errors st + 1
  /\ num_api_errors st' = num_api_errors st
  /\ num_other_errors st' = num_other_errors st
  /\ time_of_last_rate_limit_error st' = now.
Proof.
  intros Herr Hrl. unfold call_single_request, on_api_error.
  rewrite Herr, Hrl. simpl. repeat split; lia.
Qed.

End HandlerFacts.

(** C3.  While attempts remain, a failure whose exception class name
    contains "ReadTimeout" takes two from [attempts_left], every other
    failure takes one; the request goes back to the retry queue. *)
Theorem C3_read_timeout_costs_two_attempts
    (request : APIRequest) (e : Exn) :
  0 < attempts_left request ->
  exists request',
    except_block request e = Retry request'
    /\ (is_read_timeout e = true ->
        attempts_left request' = attempts_left request - 1 - 1)
    /\ (is_read_timeout e = false ->
        attempts_left request' = attempts_left request - 1).
Proof.
  intros Hpos. eexists. split; [apply except_block_retry; exact Hpos |].
  simpl. split; intros ->; lia.
Qed.

Lemma C3_witness :
  exists request',
    except_block (mkAPIRequest 0 (line 0) 3 []) (mkExn "ReadTimeout" "")
    = Retry request'
    /\ is_read_timeout (mkExn "ReadTimeout" "") = true
    /\ attempts_left request' = 1.
Proof.
  destruct (C3_read_timeout_costs_two_attempts
              (mkAPIRequest 0 (line 0) 3 []) (mkExn "ReadTimeout" ""))
    as (request' & Hretry & Htimeout & _).
  - simpl. lia.
  - exists request'. split; [exact Hretry |]. split; [reflexivity |].
    rewrite (Htimeout eq_refl). reflexivity.
Defined.

(** C4.  The earlier [process_single_request] on a rate-limit reply: the
    rate-limit counter goes up by one and the API counter is restored, but
    the [except] block then counts the same reply as an other error too. *)
Theorem C4_legacy_rate_limit_reply_counted_twice :
  let st := @mkTracker unlimited 1 1 0 0 0 0 0 0 None tt in
  let st' := (@Legacy.process_single_request unlimited 7
                (mkAPIRequest 0 (line 0) 3 []) st
                (HttpReturns 429 (error_body "Rate limit reached"))).1 in
  is_rate_limit (mkApiError (Some "Rate limit reached") "Rate limit reached") = true
  /\ num_rate_limit_errors st' = num_rate_limit_errors st + 1
  /\ num_api_errors st' = num_api_errors st
  /\ num_other_errors st' = num_other_errors st + 1.
Proof. vm_compute. repeat split. Qed.

(** ** Runs *)

Section RunFacts.
Context `{CapacityTracker} `{Provider}.

Lemma exec_app (cfg : Config) (s : State) (cs1 cs2 : list Choice) :
  exec cfg s (cs1 ++ cs2)
  = match exec cfg s cs1 with Some s' => exec cfg s' cs2 | None => None end.
Proof.
  revert s. induction cs1 as [| c cs1 IH]; intros s; simpl; [reflexivity |].
  destruct (step cfg s c); [apply IH | reflexivity].
Qed.

Lemma reachable_start (cfg : Config) (i : Setup) (s0 : State) :
  start cfg i = Some s0 -> reachable cfg i s0.
Proof. intros Hs. exists s0, []. split; [exact Hs | reflexivity]. Qed.

Lemma reachable_step (cfg : Config) (i : Setup) (s s' : State) (c : Choice) :
  reachable cfg i s -> step cfg s c = Some s' -> reachable cfg i s'.
Proof.
  intros (s0 & cs & Hs0 & Hcs) Hstep.
  exists s0, (cs ++ [c]). split; [exact Hs0 |].
  rewrite exec_app, Hcs. simpl. rewrite Hstep. reflexivity.
Qed.

Lemma run_reachable (cfg : Config) (i : Setup) (cs : list Choice) (s : State) :
  run cfg i cs = Some s -> reachable cfg i s.
Proof.
  unfold run. destruct (start cfg i) as [s0 |] eqn:Hs; [| discriminate].
  intros Hcs. exists s0, cs. auto.
Qed.

Lemma reachable_exec (cfg : Config) (i : Setup) (s0 s : State) (cs : list Choice) :
  start cfg i = Some s0 -> exec cfg s0 cs = Some s -> reachable cfg i s.
Proof. intros Hs Hcs. exists s0, cs. auto. Qed.

(** Induction over a run: what holds at the start and is kept by every
    transition holds in every reachable state. *)
Lemma reachable_invariant (cfg : Config) (i : Setup) (P : State -> Prop) :
  (forall s0, start cfg i = Some s0 -> P s0) ->
  (forall s c s', reachable cfg i s -> P s -> step cfg s c = Some s' -> P s') ->
  forall s, reachable cfg i s -> P s.
Proof.
  intros Hinit Hstep s (s0 & cs & Hs0 & Hcs).
  revert s Hcs. induction cs as [| c cs IH] using rev_ind; intros s Hcs.
  - simpl in Hcs. injection Hcs as <-. apply Hinit, Hs0.
  - rewrite exec_app in Hcs.
    destruct (exec cfg s0 cs) as [s1 |] eqn:H1; [| discriminate].
    simpl in Hcs. destruct (step cfg s1 c) as [s2 |] eqn:H2; [| discriminate].
    injection Hcs as <-.
    eapply Hstep; [| apply IH; reflexivity | exact H2].
    exists s0, cs. auto.
Qed.

Lemma start_inv (cfg : Config) (i : Setup) (s0 : State) :
  start cfg i = Some s0 ->
  s0 = {| clock := started_at i;
          tracker := mkTracker _ 0 0 0 0 0 0 0
                       (initial_time_of_last_rate_limit_error i)
                       (tracker_max_tokens_per_minute i)
                       (initial_capacity i);
          _semaphore := max_concurrent_requests cfg;
          request_semaphore := max_batch cfg;
          file := request_lines i;
          completed_request_ids :=
            validate_existing_response_file (existing_responses i);
          pending_requests := [];
          pending_retries := [];
          queue_of_requests_to_retry := [];
          tasks := [];
          main := MReadLine;
          response_file := existing_responses i;
          _output_tokens_window := initial_window i;
          trace := [] |}
  /\ 0 <= max_batch cfg.
Proof.
  unfold start, semaphore_value_ok. intros Hs.
  destruct (Z.leb_spec 0 (max_batch cfg)); simpl in Hs; [| discriminate].
  destruct (match max_concurrent_requests cfg with
            | Some n => 0 <=? n | None => true end); [| discriminate].
  injection Hs as <-. auto.
Qed.

End RunFacts.

(** *** Case analysis of a transition

    A transition is split into the paths of the code; the state that a path
    ends in is then rewritten into one record whose fields are expressions
    over the state the path started from. *)

Ltac unfold_step H :=
  unfold step, step_main, step_start, step_http, step_write, step_resume,
    retry_loop, take_retry, poll_capacity_retry, launch_retry, parse_line,
    poll_capacity, cool_down_then_launch, launch, semaphore_blocks in H.

Ltac is_update S :=
  lazymatch S with
  | with_clock _ _ => idtac
  | with_tracker _ _ => idtac
  | with_semaphore _ _ => idtac
  | with_request_semaphore _ _ => idtac
  | with_file _ _ => idtac
  | with_pending_requests _ _ => idtac
  | with_pending_retries _ _ => idtac
  | with_queue _ _ => idtac
  | with_tasks _ _ => idtac
  | with_main _ _ => idtac
  | with_response_file _ _ => idtac
  | with_window _ _ => idtac
  | emit _ _ => idtac
  | on_tracker _ _ => idtac
  | set_task _ _ _ => idtac
  | semaphore_acquire _ => idtac
  | semaphore_release _ => idtac
  end.

Ltac flat S :=
  let f1 := eval simpl in (clock S) in
  let f2 := eval simpl in (tracker S) in
  let f3 := eval simpl in (_semaphore S) in
  let f4 := eval simpl in (request_semaphore S) in
  let f5 := eval simpl in (file S) in
  let f6 := eval simpl in (completed_request_ids S) in
  let f7 := eval simpl in (pending_requests S) in
  let f8 := eval simpl in (pending_retries S) in
  let f9 := eval simpl in (queue_of_requests_to_retry S) in
  let f10 := eval simpl in (tasks S) in
  let f11 := eval simpl in (main S) in
  let f12 := eval simpl in (response_file S) in
  let f13 := eval simpl in (_output_tokens_window S) in
  let f14 := eval simpl in (trace S) in
  change S with (mkState f1 f2 f3 f4 f5 f6 f7 f8 f9 f10 f11 f12 f13 f14) in *.

Ltac flatten_states :=
  repeat match goal with
         | |- context [?S] => is_update S; flat S
         | H : context [?S] |- _ => is_update S; flat S
         end.

(** Turn the boolean tests of the code into propositions. *)
Ltac tests_to_props :=
  repeat match goal with
         | H : (_ <=? _) = true |- _ => apply Z.leb_le in H
         | H : (_ <=? _) = false |- _ => apply Z.leb_gt in H
         | H : (_ <? _) = true |- _ => apply Z.ltb_lt in H
         | H : (_ <? _) = false |- _ => apply Z.ltb_ge in H
         | H : (_ =? _) = true |- _ => apply Z.eqb_eq in H
         | H : (_ =? _) = false |- _ => apply Z.eqb_neq in H
         | H : bool_decide _ = true |- _ => apply bool_decide_eq_true in H
         | H : bool_decide _ = false |- _ => apply bool_decide_eq_false in H
         | H : negb _ = true |- _ => apply negb_true_iff in H
         | H : negb _ = false |- _ => apply negb_false_iff in H
         | H : _ && _ = true |- _ => apply andb_true_iff in H; destruct H
         | H : _ || _ = false |- _ => apply orb_false_iff in H; destruct H
         end.

Ltac step_cases Hstep :=
  unfold_step Hstep;
  repeat first
    [ progress cbv beta iota zeta in Hstep
    | discriminate Hstep
    | match type of Hstep with
      | context [match ?x with _ => _ end] => destruct x eqn:?
      end ];
  injection Hstep as <-;
  flatten_states; simpl in *; tests_to_props.

Section Backpressure.
Context `{CapacityTracker} `{Provider}.

Lemma filter_not_done_shorter (f : nat -> bool) (l : list nat) :
  existsb f l = true ->
  (length (filter (fun a => negb (f a)) l) < length l)%nat.
Proof.
  induction l as [| x l IH]; simpl; [discriminate |].
  intros Hex. rewrite filter_cons.
  destruct (f x) eqn:Hfx; simpl.
  - destruct (decide (Is_true false)) as [Hf | _]; [destruct Hf |].
    pose proof (length_filter (fun a => negb (f a)) l). lia.
  - destruct (decide (Is_true true)) as [_ | Hn]; [| destruct Hn; exact I].
    simpl. apply IH in Hex. lia.
Qed.

Lemma backpressure_step (cfg : Config) (s s' : State) (c : Choice) :
  backpressure cfg s -> step cfg s c = Some s' -> backpressure cfg s'.
Proof.
  unfold backpressure. intros [Hle Hlt] Hstep.
  destruct c; step_cases Hstep.
  all: try (assert (Hlt' := Hlt ltac:(congruence)); clear Hlt).
  all: rewrite ?length_app in *; simpl in *.
  all: try match goal with
       | Hex : existsb _ _ = true |- _ => apply filter_not_done_shorter in Hex
       end.
  all: split; [| intros Hm]; first [lia | congruence | apply Hlt; assumption].
Qed.
End Backpressure.

(** ** Tasks and the sets the main coroutine waits on *)

Section Awaited.
Context `{CapacityTracker} `{Provider}.

Lemma live_not_done (s : State) (a : nat) (t : Task) :
  tasks s !! a = Some t -> live t = true -> task_done s a = false.
Proof.
  unfold task_done, live. intros -> Hl.
  destruct (is_finished (t_pc t)); [discriminate | reflexivity].
Qed.

Lemma done_not_live (s : State) (a : nat) (t : Task) :
  tasks s !! a = Some t -> task_done s a = true -> live t = false.
Proof. unfold task_done, live. intros -> ->. reflexivity. Qed.

Lemma elem_of_not_done (s : State) (a : nat) (t : Task) (l : list nat) :
  tasks s !! a = Some t -> live t = true -> a ∈ l ->
  a ∈ filter (fun a => negb (task_done s a)) l.
Proof.
  intros Ht Hl Hin. apply list_elem_of_filter. split; [| exact Hin].
  rewrite (live_not_done s a t Ht Hl). exact I.
Qed.

Lemma all_done_none_live (s : State) (l : list nat) (a : nat) (t : Task) :
  forallb (task_done s) l = true ->
  tasks s !! a = Some t -> a ∈ l -> live t = true -> False.
Proof.
  intros Hall Ht Hin Hl.
  rewrite forallb_forall in Hall.
  apply list_elem_of_In in Hin. apply Hall in Hin.
  rewrite (live_not_done s a t Ht Hl) in Hin. discriminate.
Qed.

Lemma lookup_snoc_inv (l : list Task) (x t : Task) (a : nat) :
  (l ++ [x]) !! a = Some t ->
  l !! a = Some t \/ (a = length l /\ t = x).
Proof.
  intros Hl. destruct (decide (a < length l)%nat) as [Hlt | Hge].
  - left. rewrite lookup_app_l in Hl by exact Hlt. exact Hl.
  - right. rewrite lookup_app_r in Hl by lia.
    destruct (a - length l)%nat eqn:Hd; simpl in Hl; [| discriminate].
    split; [lia | congruence].
Qed.

Lemma lookup_insert_inv (l : list Task) (a0 a : nat) (t0 t' t : Task) :
  l !! a0 = Some t0 -> <[a0 := t']> l !! a = Some t ->
  (a = a0 /\ t = t') \/ (a <> a0 /\ l !! a = Some t).
Proof.
  intros H0' Hl. apply list_lookup_insert_Some in Hl.
  destruct Hl as [(-> & -> & _) | (Hne & Hl)]; [left | right]; auto.
Qed.

Ltac awaited_tac Haw :=
  match goal with
  | Hl : (_ ++ [_]) !! _ = Some _ |- _ =>
    apply lookup_snoc_inv in Hl; destruct Hl as [Hl | [-> ->]];
    [ apply elem_of_app; left; eapply Haw; eauto
    | apply elem_of_app; right; apply list_elem_of_singleton; reflexivity ]
  | H0' : ?l !! ?a0 = Some _, Hl : <[?a0 := _]> ?l !! _ = Some _ |- _ =>
    eapply lookup_insert_inv in Hl; [| exact H0'];
    destruct Hl as [[-> ->] | [Hne Hl]];
    [ first [ discriminate | eapply Haw; [exact H0' | reflexivity] ]
    | eapply Haw; eauto ]
  end.

Lemma tasks_awaited_step (cfg : Config) (s s' : State) (c : Choice) :
  tasks_awaited s -> step cfg s c = Some s' -> tasks_awaited s'.
Proof.
  unfold tasks_awaited. intros (Haw & Hfirst & Hdone) Hstep.
  destruct c; step_cases Hstep.
  all: repeat match goal with
              | Hm : main _ = _ |- _ => rewrite Hm in *; simpl in *
              end.
  all: try specialize (Hfirst eq_refl).
  all: split; [intros a' t' Hl' Hlive' | split; [intros Hf | intros Hd]];
    try discriminate; try (split; congruence); try congruence; auto.
  all: try (eapply Haw; eauto; fail).
  all: try (awaited_tac Haw; fail).
  all: try (eapply elem_of_not_done; eauto; fail).
  all: try (exfalso; eapply all_done_none_live; eauto; fail).
  all: destruct (Hdone Hd) as [Hnil _]; rewrite Hd in Haw; simpl in Haw;
    exfalso;
    match goal with
    | Ht : tasks _ !! ?a = Some _ |- _ =>
      specialize (Haw a _ Ht eq_refl); rewrite Hnil in Haw;
      apply elem_of_nil in Haw; exact Haw
    end.
Qed.
End Awaited.

(** ** The counters *)

Section Counting.

Lemma count_app (f : Task -> bool) (l k : list Task) :
  count f (l ++ k) = count f l + count f k.
Proof. induction l as [| t l IH]; simpl; [reflexivity | rewrite IH; lia]. Qed.

Lemma count_insert (f : Task -> bool) (l : list Task) (a : nat) (t t' : Task) :
  l !! a = Some t ->
  count f (<[a := t']> l)
  = count f l - (if f t then 1 else 0) + (if f t' then 1 else 0).
Proof.
  revert a. induction l as [| x l IH]; intros a Hl; [discriminate |].
  destruct a as [| a]; simpl in *.
  - injection Hl as ->. lia.
  - rewrite (IH a Hl). lia.
Qed.


Lemma count_le (f g : Task -> bool) (l : list Task) :
  (forall t, t ∈ l -> f t = true -> g t = true) -> count f l <= count g l.
Proof.
  induction l as [| t l IH]; intros Hfg; simpl; [lia |].
  assert (count f l <= count g l)
    by (apply IH; intros; apply Hfg; [apply elem_of_cons; auto | assumption]).
  destruct (f t) eqn:Hf; [rewrite (Hfg t) by (auto; apply elem_of_cons; auto) |];
    destruct (g t); lia.
Qed.

Lemma count_split (f g h : Task -> bool) (l : list Task) :
  (forall t, t ∈ l ->
     (if h t then 1 else 0) = (if f t then 1 else 0) + (if g t then 1 else 0)) ->
  count h l = count f l + count g l.
Proof.
  induction l as [| t l IH]; intros Hs; simpl; [reflexivity |].
  rewrite (Hs t) by (apply elem_of_cons; auto).
  rewrite IH by (intros; apply Hs; apply elem_of_cons; auto). lia.
Qed.

Lemma count_none (f : Task -> bool) (l : list Task) :
  (forall t, t ∈ l -> f t = false) -> count f l = 0.
Proof.
  induction l as [| t l IH]; intros Hn; simpl; [reflexivity |].
  rewrite (Hn t) by (apply elem_of_cons; auto).
  rewrite IH by (intros; apply Hn; apply elem_of_cons; auto). reflexivity.
Qed.

End Counting.

Section Counters.
Context `{CapacityTracker} `{Provider}.

(** The [try] block leaves the task counters alone. *)
Lemma try_block_counters (cfg : Config) (a : nat) (now : Z) (request : APIRequest)
    (blocked : option TokenCount) (st st' : OnlineStatusTracker)
    (o : HttpOutcome) (t : TryResult) (evs : list Event) :
  try_block cfg a now request blocked st o = (st', t, evs) ->
  num_tasks_started st' = num_tasks_started st
  /\ num_tasks_in_progress st' = num_tasks_in_progress st
  /\ num_tasks_succeeded st' = num_tasks_succeeded st
  /\ num_tasks_failed st' = num_tasks_failed st
  /\ max_tokens_per_minute st' = max_tokens_per_minute st.
Proof.
  unfold try_block, call_single_request, on_api_error, _free_capacity.
  intros Ht.
  repeat (case_match; simplify_eq); simpl; auto.
Qed.

Lemma counters_count_tasks_step (cfg : Config) (s s' : State) (c : Choice) :
  counters_count_tasks s -> step cfg s c = Some s' -> counters_count_tasks s'.
Proof.
  unfold counters_count_tasks, retry_in_hand.
  intros (Hs & Hf & Hst & Hip) Hstep.
  destruct c; step_cases Hstep.
  all: repeat match goal with
              | Hm : main _ = _ |- _ => rewrite Hm in *; simpl in *
              | Hq : queue_of_requests_to_retry _ = _ |- _ =>
                rewrite Hq in *; simpl in *
              | Ht : try_block _ _ _ _ _ _ _ = _ |- _ =>
                apply try_block_counters in Ht;
                destruct Ht as (? & ? & ? & ? & ?)
              end.
  all: rewrite ?count_app, ?length_app; simpl.
  all: repeat match goal with
              | Hl : tasks _ !! _ = Some _
                |- context [count ?f (<[_ := ?t']> _)] =>
                rewrite (count_insert f _ _ _ t' Hl)
              end.
  all: simpl; repeat split; try lia.
Qed.
End Counters.

(** ** Invariants of a run *)

Section Invariants.
Context `{CapacityTracker} `{Provider}.

Lemma reachable_tasks_awaited (cfg : Config) (i : Setup) (s : State) :
  reachable cfg i s -> tasks_awaited s.
Proof.
  apply reachable_invariant.
  - intros s0 Hs0. apply start_inv in Hs0 as [-> _].
    unfold tasks_awaited; simpl. repeat split; discriminate.
  - intros ? c ? _. apply tasks_awaited_step.
Qed.

Lemma reachable_counters (cfg : Config) (i : Setup) (s : State) :
  reachable cfg i s -> counters_count_tasks s.
Proof.
  apply reachable_invariant.
  - intros s0 Hs0. apply start_inv in Hs0 as [-> _].
    unfold counters_count_tasks; simpl. repeat split.
  - intros ? c ? _. apply counters_count_tasks_step.
Qed.

Lemma reachable_backpressure (cfg : Config) (i : Setup) (s : State) :
  0 < max_batch cfg -> reachable cfg i s -> backpressure cfg s.
Proof.
  intros Hpos. apply reachable_invariant.
  - intros s0 Hs0. apply start_inv in Hs0 as [-> _].
    unfold backpressure; simpl. split; [lia | intros _; lia].
  - intros ? c ? _. apply backpressure_step.
Qed.

(** When the main coroutine is at line 419, no task is unfinished. *)
Lemma terminated_all_finished (cfg : Config) (i : Setup) (s : State) :
  reachable cfg i s -> terminated s ->
  forall t, t ∈ tasks s -> live t = false.
Proof.
  intros Hr Hterm t Hin.
  destruct (reachable_tasks_awaited _ _ _ Hr) as (Haw & _ & Hdone).
  destruct (Hdone Hterm) as [Hnil _].
  apply list_elem_of_lookup in Hin as [a Ha].
  destruct (live t) eqn:Hl; [| reflexivity].
  specialize (Haw a t Ha Hl). unfold terminated in Hterm.
  rewrite Hterm in Haw. simpl in Haw. rewrite Hnil in Haw.
  apply elem_of_nil in Haw. destruct Haw.
Qed.

Lemma ended_le_holding (l : list Task) :
  count ended_succeeded l + count ended_failed l <= count holds_request l.
Proof.
  induction l as [| [r b pc] l IH]; simpl; [lia |].
  destruct pc as [| | | | | | []]; simpl; lia.
Qed.

Lemma finished_holding_ended (l : list Task) :
  (forall t, t ∈ l -> live t = false) ->
  count holds_request l = count ended_succeeded l + count ended_failed l.
Proof.
  induction l as [| [r b pc] l IH]; intros Hfin; simpl; [reflexivity |].
  rewrite IH by (intros; apply Hfin; apply elem_of_cons; auto).
  assert (Ht : live (mkTask r b pc) = false)
    by (apply Hfin; apply elem_of_cons; auto).
  destruct pc as [| | | | | | []]; simpl in *; try discriminate; lia.
Qed.

Lemma filter_agree (f g : nat -> bool) (l : list nat) :
  (forall a, a ∈ l -> f a = g a) ->
  filter (fun a => f a) l = filter (fun a => g a) l.
Proof.
  induction l as [| x l IH]; intros Hfg; [reflexivity |].
  rewrite !filter_cons.
  rewrite (Hfg x) by (apply elem_of_cons; auto).
  rewrite IH by (intros; apply Hfg; apply elem_of_cons; auto).
  reflexivity.
Qed.

Lemma count_live_indices (l : list Task) :
  count live l
  = Z.of_nat (length (filter (fun a => live_at l a) (seq 0 (length l)))).
Proof.
  induction l as [| x l IH] using rev_ind; [reflexivity |].
  rewrite count_app, length_app, seq_app, filter_app, length_app. simpl.
  rewrite IH, filter_cons, filter_nil.
  assert (Hx : live_at (l ++ [x]) (length l) = live x).
  { unfold live_at. rewrite lookup_app_r by lia.
    rewrite Nat.sub_diag. reflexivity. }
  rewrite Hx.
  assert (Hl : filter (fun a => live_at (l ++ [x]) a) (seq 0 (length l))
               = filter (fun a => live_at l a) (seq 0 (length l))).
  { apply filter_agree. intros a Ha. apply elem_of_seq in Ha.
    unfold live_at. rewrite lookup_app_l by lia. reflexivity. }
  rewrite Hl.
  destruct (live x); simpl.
  - destruct (decide (Is_true true)) as [_ | Hn]; [| destruct Hn; exact I].
    simpl. lia.
  - destruct (decide (Is_true false)) as [Hf | _]; [destruct Hf |].
    simpl. lia.
Qed.

(** The live tasks are no more than the task names in a list that holds
    the name of each of them. *)
Lemma count_live_le (l : list Task) (P : list nat) :
  (forall a t, l !! a = Some t -> live t = true -> a ∈ P) ->
  count live l <= Z.of_nat (length P).
Proof.
  intros Hin. rewrite count_live_indices.
  apply inj_le, submseteq_length, NoDup_submseteq.
  - apply NoDup_filter, NoDup_seq.
  - intros a Ha. apply list_elem_of_filter in Ha as [Hlive _].
    unfold live_at in Hlive.
    destruct (l !! a) as [t |] eqn:Hl; [| destruct Hlive].
    apply (Hin a t Hl). apply Is_true_true. exact Hlive.
Qed.

End Invariants.

(** C7.  At every point of a run the succeeded and failed counters together
    do not exceed the started counter, and when
    [process_requests_from_file] has returned they add up to it. *)
Theorem C7_succeeded_plus_failed_bounded_by_started
    `{CapacityTracker} `{Provider} (cfg : Config) (i : Setup) (s : State) :
  reachable cfg i s ->
  num_tasks_succeeded (tracker s) + num_tasks_failed (tracker s)
    <= num_tasks_started (tracker s)
  /\ (terminated s ->
      num_tasks_succeeded (tracker s) + num_tasks_failed (tracker s)
      = num_tasks_started (tracker s)).
Proof.
  intros Hr.
  destruct (reachable_counters _ _ _ Hr) as (Hs & Hf & Hst & _).
  rewrite Hs, Hf, Hst. split.
  - pose proof (ended_le_holding (tasks s)). lia.
  - intros Hterm.
    rewrite (finished_holding_ended (tasks s))
      by (eapply terminated_all_finished; eauto).
    destruct (reachable_tasks_awaited _ _ _ Hr) as (_ & _ & Hdone).
    destruct (Hdone Hterm) as [_ Hq]. rewrite Hq.
    unfold retry_in_hand. unfold terminated in Hterm. rewrite Hterm.
    simpl. lia.
Qed.

Lemma C7_witness :
  exists s,
    Demo.schedule None Demo.both_succeed = Some s
    /\ num_tasks_succeeded (tracker s) + num_tasks_failed (tracker s)
       <= num_tasks_started (tracker s)
    /\ (terminated s ->
        num_tasks_succeeded (tracker s) + num_tasks_failed (tracker s)
        = num_tasks_started (tracker s)).
Proof.
  eexists. split; [vm_compute; reflexivity |].
  apply (@C7_succeeded_plus_failed_bounded_by_started
           unlimited plain_provider Demo.cfg (Demo.setup None)).
  apply run_reachable with (cs := Demo.both_succeed).
  vm_compute. reflexivity.
Defined.

(** C9, as amended.  With a positive [max_batch], the set of pending
    first-pass tasks never holds more than [3 * max_batch] tasks and holds
    every unfinished task of the first pass; the loop is at its read of the next line only
    below the bound, and when the bound is reached it is in
    [asyncio.wait], which returns only once a pending task is done and
    then leaves fewer tasks pending. *)
Theorem C9_pending_first_pass_tasks_bounded
    `{CapacityTracker} `{Provider} (cfg : Config) (i : Setup) (s : State) :
  0 < max_batch cfg ->
  reachable cfg i s ->
  Z.of_nat (length (pending_requests s)) <= 3 * max_batch cfg
  /\ (first_pass (main s) = true ->
      count live (tasks s) <= Z.of_nat (length (pending_requests s)))
  /\ (main s = MReadLine ->
      Z.of_nat (length (pending_requests s)) < 3 * max_batch cfg)
  /\ (Z.of_nat (length (pending_requests s)) = 3 * max_batch cfg ->
      main s = MWaitFirstCompleted
      /\ forall s', step cfg s RunMain = Some s' ->
           existsb (task_done s) (pending_requests s) = true
           /\ main s' = MReadLine
           /\ (length (pending_requests s') < length (pending_requests s))%nat).
Proof.
  intros Hpos Hr.
  destruct (reachable_backpressure _ _ _ Hpos Hr) as [Hle Hlt].
  destruct (reachable_tasks_awaited _ _ _ Hr) as (Haw & _ & _).
  split; [lia |]. split; [| split].
  - intros Hfp. rewrite Hfp in Haw. apply count_live_le. exact Haw.
  - intros Hm. assert (main s <> MWaitFirstCompleted) by congruence.
    specialize (Hlt ltac:(assumption)). lia.
  - intros Heq.
    assert (Hm : main s = MWaitFirstCompleted).
    { destruct (main s) eqn:Hpc; try reflexivity;
        (assert (Hlt' := Hlt ltac:(discriminate)); lia). }
    split; [exact Hm |].
    intros s' Hstep. unfold step, step_main in Hstep. rewrite Hm in Hstep.
    destruct (existsb (task_done s) (pending_requests s)) eqn:Hex;
      [| discriminate].
    injection Hstep as <-. simpl.
    split; [reflexivity |]. split; [reflexivity |].
    apply filter_not_done_shorter. exact Hex.
Qed.

Lemma C9_witness :
  exists s,
    @run unlimited plain_provider Demo.cfg Demo.triple Demo.three_read = Some s
    /\ Z.of_nat (length (pending_requests s)) = 3 * max_batch Demo.cfg
    /\ Z.of_nat (length (pending_requests s)) <= 3 * max_batch Demo.cfg
    /\ (first_pass (main s) = true ->
        count live (tasks s) <= Z.of_nat (length (pending_requests s)))
    /\ (main s = MReadLine ->
        Z.of_nat (length (pending_requests s)) < 3 * max_batch Demo.cfg)
    /\ (Z.of_nat (length (pending_requests s)) = 3 * max_batch Demo.cfg ->
        main s = MWaitFirstCompleted
        /\ forall s', @step unlimited plain_provider Demo.cfg s RunMain = Some s' ->
             existsb (task_done s) (pending_requests s) = true
             /\ main s' = MReadLine
             /\ (length (pending_requests s') < length (pending_requests s))%nat).
Proof.
  eexists. split; [vm_compute; reflexivity |].
  split; [reflexivity |].
  apply (@C9_pending_first_pass_tasks_bounded
           unlimited plain_provider Demo.cfg Demo.triple).
  - reflexivity.
  - apply run_reachable with (cs := Demo.three_read). vm_compute. reflexivity.
Defined.

(** C9, as stated, fails: with [max_batch = 0] the bound is zero, and the
    test of line 364 comes only after the task of the first line has been
    added to the pending set. *)
Lemma C9_counterexample :
  exists s,
    @run unlimited plain_provider Demo.unbatched Demo.single Demo.one_read
    = Some s
    /\ first_pass (main s) = true
    /\ count live (tasks s) = 1
    /\ ~ (Z.of_nat (length (pending_requests s))
          <= 3 * max_batch Demo.unbatched).
Proof.
  eexists. split; [vm_compute; reflexivity |].
  split; [reflexivity |]. split; [reflexivity |].
  vm_compute. intros Hle. apply Hle. reflexivity.
Qed.

(** ** The order of events *)

Section TraceFacts.

Lemma occurs_here (P : Event -> Prop) (e : Event) (tr : list Event) :
  P e -> occurs P (e :: tr).
Proof. intros HP. exists e. split; [apply elem_of_cons; auto | exact HP]. Qed.

Lemma occurs_later (P : Event -> Prop) (e : Event) (tr : list Event) :
  occurs P tr -> occurs P (e :: tr).
Proof. intros (x & Hin & HP). exists x. split; [apply elem_of_cons; auto | exact HP]. Qed.

Lemma occurs_app_r (P : Event -> Prop) (new tr : list Event) :
  occurs P tr -> occurs P (new ++ tr).
Proof. intros (x & Hin & HP). exists x. split; [apply elem_of_app; auto | exact HP]. Qed.

Lemma occurs_app_l (P : Event -> Prop) (new tr : list Event) :
  occurs P new -> occurs P (new ++ tr).
Proof. intros (x & Hin & HP). exists x. split; [apply elem_of_app; auto | exact HP]. Qed.

Lemma occurs_cons_inv (P : Event -> Prop) (e : Event) (tr : list Event) :
  occurs P (e :: tr) -> P e \/ occurs P tr.
Proof.
  intros (x & Hin & HP). apply elem_of_cons in Hin as [-> | Hin]; [left | right]; auto.
  exists x. auto.
Qed.

Lemma occurs_app_inv (P : Event -> Prop) (new tr : list Event) :
  occurs P (new ++ tr) -> occurs P new \/ occurs P tr.
Proof.
  intros (x & Hin & HP). apply elem_of_app in Hin as [Hin | Hin];
    [left | right]; exists x; auto.
Qed.

Lemma occurs_nil (P : Event -> Prop) : ~ occurs P [].
Proof. intros (x & Hin & _). apply elem_of_nil in Hin. exact Hin. Qed.

Lemma occurs_rev (P : Event -> Prop) (tr : list Event) :
  occurs P (rev tr) <-> occurs P tr.
Proof.
  split; intros (x & Hin & HP); exists x; (split; [| exact HP]);
    apply list_elem_of_In; apply list_elem_of_In in Hin;
    [apply in_rev | apply in_rev in Hin]; exact Hin.
Qed.

Lemma precedes_nil (E L : Event -> Prop) : precedes E L [].
Proof. intros newer e older Heq. destruct newer; discriminate. Qed.

Lemma precedes_cons (E L : Event -> Prop) (e : Event) (tr : list Event) :
  precedes E L tr -> (L e -> occurs E tr) -> precedes E L (e :: tr).
Proof.
  intros Htr He newer x older Heq HL.
  destruct newer as [| y newer]; simpl in Heq; injection Heq as -> ->.
  - apply He, HL.
  - eapply Htr; eauto.
Qed.

Lemma precedes_app (E L : Event -> Prop) (new tr : list Event) :
  precedes E L tr -> (forall e, e ∈ new -> ~ L e) -> precedes E L (new ++ tr).
Proof.
  intros Htr Hnew. induction new as [| x new IH]; [exact Htr |].
  simpl. apply precedes_cons.
  - apply IH. intros e He. apply Hnew. apply elem_of_cons. auto.
  - intros HL. exfalso. eapply Hnew; [| exact HL]. apply elem_of_cons. auto.
Qed.

End TraceFacts.

Section TryBlockFacts.
Context `{CapacityTracker} `{Provider}.

Lemma call_single_request_events (cfg : Config) (a : nat) (now : Z)
    (request : APIRequest) (st st' : OnlineStatusTracker) (o : HttpOutcome)
    (res : Exn + GenericResponse) (evs : list Event) :
  call_single_request cfg a now request st o = (st', res, evs) ->
  max_tokens_per_minute st' = max_tokens_per_minute st
  /\ (forall e, e ∈ evs -> e = EvRateLimit a now)
  /\ (forall r, res = inr r ->
        response_message r <> None
        /\ generic_request_of r = generic_request request).
Proof.
  unfold call_single_request, on_api_error. intros Hc.
  repeat (case_match; simplify_eq); simpl; (split; [| split]);
    try reflexivity;
    try (intros x Hx; apply elem_of_nil in Hx; destruct Hx);
    try (intros x Hx; apply list_elem_of_singleton in Hx; exact Hx);
    try (intros r [=]; subst; simpl; split; [discriminate | reflexivity]);
    try discriminate.
Qed.

(** What the [try] block records, and what a completed [try] block has
    done. *)
Lemma try_block_events (cfg : Config) (a : nat) (now : Z) (request : APIRequest)
    (blocked : option TokenCount) (st st' : OnlineStatusTracker)
    (o : HttpOutcome) (t : TryResult) (evs : list Event) :
  try_block cfg a now request blocked st o = (st', t, evs) ->
  (forall e, e ∈ evs ->
     e = EvRateLimit a now \/ e = EvUpdateStats a
     \/ (exists u, e = EvFree a u blocked)
        /\ raised t = None /\ max_tokens_per_minute st <> None)
  /\ (forall r, t = TryCompleted r ->
        response_message r <> None
        /\ generic_request_of r = generic_request request
        /\ (max_tokens_per_minute st <> None -> occurs (is_free a) evs)).
Proof.
  unfold try_block. intros Ht.
  destruct (call_single_request cfg a now request st o)
    as [[st1 res] evs1] eqn:Hcall.
  apply call_single_request_events in Hcall as (Hlim & Hevs & Hres).
  destruct res as [e | r].
  { injection Ht as <- <- <-. split; [| discriminate].
    intros x Hx. left. apply Hevs, Hx. }
  destruct (Hres r eq_refl) as [Hmsg Hreq].
  destruct (finish_reason_is_invalid cfg r).
  { injection Ht as <- <- <-. split; [| discriminate].
    intros x Hx. left. apply Hevs, Hx. }
  destruct (response_to_response_format (response_message r)).
  { injection Ht as <- <- <-. split; [| discriminate].
    intros x Hx. apply elem_of_app in Hx as [Hx | Hx]; [left; apply Hevs, Hx |].
    apply list_elem_of_singleton in Hx. auto. }
  unfold _free_capacity in Ht. simpl in Ht. rewrite Hlim in Ht.
  destruct (max_tokens_per_minute st) as [limit |] eqn:Hl;
    injection Ht as <- <- <-.
  - split.
    + intros x Hx. repeat (apply elem_of_app in Hx as [Hx | Hx]).
      * left. apply Hevs, Hx.
      * apply list_elem_of_singleton in Hx. auto.
      * apply list_elem_of_singleton in Hx. right. right.
        repeat split; [eauto | discriminate].
    + intros r' [= <-]. repeat split; try assumption.
      intros _. apply occurs_app_r. apply occurs_here. reflexivity.
  - split.
    + intros x Hx. repeat (apply elem_of_app in Hx as [Hx | Hx]).
      * left. apply Hevs, Hx.
      * apply list_elem_of_singleton in Hx. auto.
      * apply elem_of_nil in Hx. destruct Hx.
    + intros r' [= <-]. repeat split; try assumption.
      intros Hn. destruct Hn. reflexivity.
Qed.
End TryBlockFacts.

Section EffectFacts.
Context `{CapacityTracker} `{Provider}.

Lemma step_effect (cfg : Config) (s s' : State) (c : Choice) :
  step cfg s c = Some s' -> Effect cfg s s'.
Proof.
  intros Hstep. destruct c; step_cases Hstep.
  all: first
    [ apply EffNone; reflexivity
    | apply EffCoolDown; reflexivity
    | eapply EffLaunch with (cool := []); simpl; eauto; fail
    | eapply EffLaunch with (cool := [_]); simpl; eauto; fail
    | eapply EffStart; simpl; eauto; fail
    | eapply EffCompleted; simpl; eauto; fail
    | eapply EffRetry; simpl; eauto; fail
    | eapply EffGiveUp; simpl; eauto; fail
    | eapply EffWrite with (ok := true); simpl; eauto; fail
    | eapply EffWrite with (ok := false); simpl; eauto; fail
    | eapply EffResume with (ok := true); simpl; eauto; fail
    | eapply EffResume with (ok := false); simpl; eauto; fail
    | idtac ].
Qed.

Lemma step_limit (cfg : Config) (s s' : State) (c : Choice) :
  step cfg s c = Some s' ->
  max_tokens_per_minute (tracker s') = max_tokens_per_minute (tracker s).
Proof.
  intros Hstep. destruct c; step_cases Hstep.
  all: try reflexivity.
  all: match goal with
       | Ht : try_block _ _ _ _ _ _ _ = _ |- _ =>
         apply try_block_counters in Ht; destruct Ht as (_ & _ & _ & _ & Ht);
         exact Ht
       end.
Qed.

(** The events of a [try] block are none of those that other events have
    to precede. *)
Lemma try_block_events_plain (cfg : Config) (a : nat) (now : Z)
    (request : APIRequest) (blocked : option TokenCount)
    (st st' : OnlineStatusTracker) (o : HttpOutcome) (t : TryResult)
    (evs : list Event) (a' : nat) (e : Event) :
  try_block cfg a now request blocked st o = (st', t, evs) ->
  e ∈ rev evs ->
  ~ is_launch a' e /\ ~ is_http_call a' e /\ ~ is_success_append a' e
  /\ ~ is_raised a' e /\ ~ is_consume a' e
  /\ (is_free a' e -> a' = a /\ raised t = None
                      /\ max_tokens_per_minute st <> None).
Proof.
  intros Ht He. apply try_block_events in Ht as [Hevs _].
  apply list_elem_of_In, in_rev, list_elem_of_In in He.
  destruct (Hevs e He) as [-> | [-> | ((u & ->) & Hr & Hl)]]; simpl;
    repeat (split; [intros []; fail |]); try (intros []; fail).
  intros <-. auto.
Qed.

End EffectFacts.

Ltac prec_auto :=
  repeat first
    [ solve [auto]
    | apply precedes_cons; [| simpl; try (intros []; fail) ]
    | apply precedes_app;
      [| intros ? ?;
         match goal with
         | Ht : try_block _ _ _ _ _ _ _ = _, He : ?e ∈ rev _ |- ~ _ ?a0 ?e =>
           destruct (try_block_events_plain _ _ _ _ _ _ _ _ _ _ a0 e Ht He)
             as (? & ? & ? & ? & ? & ?); assumption
         | He : _ ∈ [] |- _ => apply elem_of_nil in He; destruct He
         | He : _ ∈ [_] |- _ =>
           apply list_elem_of_singleton in He; subst; simpl; tauto
         end ] ].

Section Discipline.
Context `{CapacityTracker} `{Provider}.

Lemma discipline_precedes (cfg : Config) (limit : option Z) (s s' : State) :
  reservation_discipline limit s -> Effect cfg s s' ->
  (forall a, precedes (is_consume a) (is_launch a) (trace s'))
  /\ (forall a, precedes (is_launch a) (is_http_call a) (trace s'))
  /\ (limit <> None ->
      forall a, precedes (is_free a) (is_success_append a) (trace s')).
Proof.
  intros (Hlim & Hcl & Hlh & Hfa & Htl & Hok & Hfl & Hfree & Hrai) Heff.
  destruct Heff as
    [Hts Htr | Hts Htr | r est cool Hts Htr Hcool | a r b Ha Hts Htr
     | a r b st0 o st resp evs Ha Htry Hts Htr
     | a r r' b st0 o st t e evs Ha Htry Hrs Hex Hts Htr
     | a r r' b st0 o st t e rec evs Ha Htry Hrs Hex Hts Htr
     | a r b resp ok Ha Hts Htr Hrf | a r b ok Ha Hts Htr];
    rewrite Htr; clear Htr.
  all: try (destruct Hcool as [-> | ->]).
  all: try (destruct ok).
  all: split; [intros a0 | split; [intros a0 | intros Hl a0]].
  all: try specialize (Hfa Hl).
  all: prec_auto.
  all: try (intros <-; repeat first [apply occurs_here; reflexivity
                                    | apply occurs_later]; fail).
  all: try (intros <-; apply occurs_later; eapply Htl; eauto; fail).
  - intros [<- Hm]. eapply Hok; eauto.
  - intros [<- Hm]. exfalso. apply Hm. eapply Hfl; eauto.
Qed.
End Discipline.


Section ExceptFacts.

Lemma except_block_inv (request : APIRequest) (e : Exn) :
  (0 < attempts_left request
   /\ except_block request e
      = Retry (mkAPIRequest (task_id request) (generic_request request)
                 (attempts_left request - (if is_read_timeout e then 2 else 1))
                 (result request ++ [e])))
  \/ (attempts_left request <= 0
      /\ except_block request e
         = GiveUp (append_result e request)
             (failure_record (append_result e request))).
Proof.
  destruct (Z.ltb_spec 0 (attempts_left request)) as [Hpos | Hle].
  - left. split; [exact Hpos | apply except_block_retry, Hpos].
  - right. split; [exact Hle | apply except_block_give_up, Hle].
Qed.

Lemma except_block_retry_inv (request request' : APIRequest) (e : Exn) :
  except_block request e = Retry request' ->
  0 < attempts_left request
  /\ task_id request' = task_id request
  /\ generic_request request' = generic_request request
  /\ attempts_left request'
     = attempts_left request - (if is_read_timeout e then 2 else 1)
  /\ result request' = result request ++ [e].
Proof.
  destruct (except_block_inv request e) as [[Hpos ->] | [Hle ->]];
    intros [= <-]; simpl; auto.
Qed.

Lemma except_block_give_up_inv (request request' : APIRequest) (e : Exn)
    (record : GenericResponse) :
  except_block request e = GiveUp request' record ->
  attempts_left request <= 0
  /\ request' = append_result e request
  /\ record = failure_record request'.
Proof.
  destruct (except_block_inv request e) as [[Hpos ->] | [Hle ->]];
    intros [= <- <-]; auto.
Qed.

Lemma lookup_insert_cases (l : list Task) (a a0 : nat) (t0 tn t : Task) :
  l !! a = Some t0 -> l !! a0 = Some t ->
  exists t', <[a := tn]> l !! a0 = Some t'
             /\ ((a0 = a /\ t = t0 /\ t' = tn) \/ (a0 <> a /\ t' = t)).
Proof.
  intros Ha Ha0. destruct (decide (a0 = a)) as [-> | Hne].
  - exists tn. split.
    + apply list_lookup_insert_eq. eapply lookup_lt_Some; eauto.
    + left. split; [reflexivity | split; [congruence | reflexivity]].
  - exists t. split; [| right; auto].
    rewrite list_lookup_insert_ne by auto. exact Ha0.
Qed.

End ExceptFacts.

Ltac occurs_mono :=
  repeat first [ apply occurs_later | apply occurs_app_r ].

Section Discipline2.
Context `{CapacityTracker} `{Provider}.

Lemma discipline_tasks (cfg : Config) (limit : option Z) (s s' : State) :
  reservation_discipline limit s -> Effect cfg s s' ->
  (forall a t, tasks s' !! a = Some t -> occurs (is_launch a) (trace s'))
  /\ (forall a t r, tasks s' !! a = Some t -> t_pc t = TSavingOk r ->
        response_message r <> None
        /\ (limit <> None -> occurs (is_free a) (trace s')))
  /\ (forall a t r, tasks s' !! a = Some t -> t_pc t = TSavingFailed r ->
        response_message r = None).
Proof.
  intros (Hlim & Hcl & Hlh & Hfa & Htl & Hok & Hfl & Hfree & Hrai) Heff.
  destruct Heff as
    [Hts Htr | Hts Htr | r est cool Hts Htr Hcool | a r b Ha Hts Htr
     | a r b st0 o st resp evs Ha Htry Hts Htr
     | a r r' b st0 o st t e evs Ha Htry Hrs Hex Hts Htr
     | a r r' b st0 o st t e rec evs Ha Htry Hrs Hex Hts Htr
     | a r b resp ok Ha Hts Htr Hrf | a r b ok Ha Hts Htr];
    rewrite Htr, Hts; clear Htr Hts.
  all: try (destruct Hcool as [-> | ->]).
  all: try (destruct ok).
  all: split; [intros a0 t0 Hl0 | split; intros a0 t0 r0 Hl0 Hpc0].
  all: try match goal with
           | Hl : (_ ++ [_]) !! _ = Some _ |- _ =>
             apply lookup_snoc_inv in Hl; destruct Hl as [Hl | [-> ->]]
           | H0' : ?l !! ?a = Some _, Hl : <[?a := _]> ?l !! _ = Some _ |- _ =>
             eapply lookup_insert_inv in Hl; [| exact H0'];
             destruct Hl as [[-> ->] | [Hne Hl]]
           end.
  all: simpl in *; try discriminate.
  all: try (occurs_mono; eapply Htl; eauto; fail).
  all: try (apply occurs_here; reflexivity).
  all: try (eapply Hfl; eauto; fail).
  all: try (destruct (Hok _ _ _ Hl0 Hpc0) as [Hm Hf]; split; [exact Hm |];
            intros Hl; occurs_mono; auto; fail).
  - injection Hpc0 as <-.
    apply try_block_events in Htry as [_ Hdone].
    destruct (Hdone _ eq_refl) as (Hm & _ & Hf). split; [exact Hm |].
    intros Hl. apply occurs_app_l, occurs_rev, Hf. congruence.
  - injection Hpc0 as <-.
    apply except_block_give_up_inv in Hex as (_ & _ & ->). reflexivity.
Qed.
End Discipline2.

(** Split [occurs P (e1 :: ... :: new ++ tr)] into its cases. *)
Ltac occurs_split Hocc :=
  repeat first
    [ apply occurs_cons_inv in Hocc as [Hocc | Hocc];
      [simpl in Hocc; try (destruct Hocc; fail) |]
    | apply occurs_app_inv in Hocc as [Hocc | Hocc] ].

Section Discipline3.
Context `{CapacityTracker} `{Provider}.

Lemma occurs_try_block_free (cfg : Config) (a a0 : nat) (now : Z)
    (request : APIRequest) (blocked : option TokenCount)
    (st st' : OnlineStatusTracker) (o : HttpOutcome) (t : TryResult)
    (evs : list Event) :
  try_block cfg a now request blocked st o = (st', t, evs) ->
  occurs (is_free a0) (rev evs) ->
  a0 = a /\ raised t = None /\ max_tokens_per_minute st <> None.
Proof.
  intros Ht (e & He & Hfree).
  destruct (try_block_events_plain _ _ _ _ _ _ _ _ _ _ a0 e Ht He)
    as (_ & _ & _ & _ & _ & Hf). auto.
Qed.

Lemma occurs_try_block_raised (cfg : Config) (a a0 : nat) (now : Z)
    (request : APIRequest) (blocked : option TokenCount)
    (st st' : OnlineStatusTracker) (o : HttpOutcome) (t : TryResult)
    (evs : list Event) :
  try_block cfg a now request blocked st o = (st', t, evs) ->
  occurs (is_raised a0) (rev evs) -> False.
Proof.
  intros Ht (e & He & Hr).
  destruct (try_block_events_plain _ _ _ _ _ _ _ _ _ _ a0 e Ht He)
    as (_ & _ & _ & Hn & _). auto.
Qed.

Lemma discipline_paths (cfg : Config) (limit : option Z) (s s' : State) :
  reservation_discipline limit s -> Effect cfg s s' ->
  (forall a, occurs (is_free a) (trace s') ->
     limit <> None
     /\ exists t, tasks s' !! a = Some t /\ on_success_path (t_pc t) = true)
  /\ (forall a, occurs (is_raised a) (trace s') ->
        exists t, tasks s' !! a = Some t /\ on_failure_path (t_pc t) = true).
Proof.
  intros (Hlim & Hcl & Hlh & Hfa & Htl & Hok & Hfl & Hfree & Hrai) Heff.
  destruct Heff as
    [Hts Htr | Hts Htr | r est cool Hts Htr Hcool | a r b Ha Hts Htr
     | a r b st0 o st resp evs Ha Htry Hts Htr
     | a r r' b st0 o st t e evs Ha Htry Hrs Hex Hts Htr
     | a r r' b st0 o st t e rec evs Ha Htry Hrs Hex Hts Htr
     | a r b resp ok Ha Hts Htr Hrf | a r b ok Ha Hts Htr];
    rewrite Htr, Hts; clear Htr Hts.
  all: try (destruct Hcool as [-> | ->]).
  all: try (destruct ok).
  all: split; intros a0 Hocc; occurs_split Hocc.
  all: try match goal with
           | Ht : try_block _ _ _ _ _ _ _ = _, Ho : occurs (is_raised _) (rev _)
             |- _ => exfalso; eapply occurs_try_block_raised; eauto
           | Ht : try_block _ _ _ _ _ _ _ = _, Ho : occurs (is_free _) (rev _)
             |- _ =>
             destruct (occurs_try_block_free _ _ _ _ _ _ _ _ _ _ _ Ht Ho)
               as (-> & Hnone & Hsome); try congruence
           end.
  all: try match goal with
           | Ho : occurs (is_free _) (trace _) |- _ =>
             destruct (Hfree _ Ho) as (Hl & t0 & Ht0 & Hp0); split; [exact Hl |]
           | Ho : occurs (is_raised _) (trace _) |- _ =>
             destruct (Hrai _ Ho) as (t0 & Ht0 & Hp0)
           end.
  all: try (exists t0; split; [exact Ht0 | exact Hp0]).
  all: try (exists t0; split; [apply lookup_app_l_Some; exact Ht0 | exact Hp0]).
  all: try match goal with
           | Ha : ?l !! ?a = Some ?t1, Ht0 : ?l !! ?a0 = Some ?t0
             |- exists _, <[?a := ?tn]> ?l !! ?a0 = Some _ /\ _ =>
             destruct (lookup_insert_cases l a a0 t1 tn t0 Ha Ht0)
               as (t' & Hl' & Hcase);
             exists t'; split; [exact Hl' |];
             destruct Hcase as [(-> & -> & ->) | (_ & ->)];
             simpl in *; first [reflexivity | discriminate | assumption]
           end.
  all: try (exfalso; eapply occurs_nil; eauto; fail).
  - split; [congruence |]. eexists.
    split; [apply list_lookup_insert_eq; eapply lookup_lt_Some; eauto
           | reflexivity].
  - subst. eexists.
    split; [apply list_lookup_insert_eq; eapply lookup_lt_Some; eauto
           | reflexivity].
  - subst. eexists.
    split; [apply list_lookup_insert_eq; eapply lookup_lt_Some; eauto
           | reflexivity].
Qed.

Lemma reservation_discipline_step (cfg : Config) (limit : option Z)
    (s s' : State) (c : Choice) :
  reservation_discipline limit s -> step cfg s c = Some s' ->
  reservation_discipline limit s'.
Proof.
  intros Hinv Hstep.
  pose proof (step_effect _ _ _ _ Hstep) as Heff.
  destruct (discipline_precedes _ _ _ _ Hinv Heff) as (? & ? & ?).
  destruct (discipline_tasks _ _ _ _ Hinv Heff) as (? & ? & ?).
  destruct (discipline_paths _ _ _ _ Hinv Heff) as (? & ?).
  unfold reservation_discipline. repeat (split; [assumption |]).
  split; [| repeat (split; [assumption |]); assumption].
  rewrite (step_limit _ _ _ _ Hstep). apply Hinv.
Qed.

Lemma reachable_discipline (cfg : Config) (i : Setup) (s : State) :
  reachable cfg i s ->
  reservation_discipline (tracker_max_tokens_per_minute i) s.
Proof.
  apply reachable_invariant.
  - intros s0 Hs0. apply start_inv in Hs0 as [-> _].
    unfold reservation_discipline; simpl.
    split; [reflexivity |].
    repeat split; try (intros; apply precedes_nil);
      try (intros; rewrite lookup_nil in *; discriminate);
      try (intros; exfalso; eapply occurs_nil; eauto).
  - intros ? c ? _. apply reservation_discipline_step.
Qed.
End Discipline3.

(** ** Cool-down *)

Section CoolDownFacts.
Context `{CapacityTracker} `{Provider}.

Lemma rate_limit_times_app (new tr : list Event) :
  rate_limit_times (new ++ tr) = rate_limit_times new ++ rate_limit_times tr.
Proof.
  induction new as [| e new IH]; [reflexivity |].
  destruct e; simpl; rewrite ?IH; reflexivity.
Qed.

Lemma errors_before_check_app (a : nat) (new tr : list Event) :
  (forall e, e ∈ new -> forall a', ~ is_cool_down a' e) ->
  errors_before_check a (new ++ tr) = errors_before_check a tr.
Proof.
  induction new as [| e new IH]; intros Hnew; [reflexivity |].
  assert (Hrest : errors_before_check a (new ++ tr) = errors_before_check a tr)
    by (apply IH; intros; apply Hnew; apply elem_of_cons; auto).
  destruct e; simpl; try exact Hrest.
  exfalso. eapply (Hnew (EvCoolDown a0)); [apply elem_of_cons; auto |].
  simpl. reflexivity.
Qed.

Lemma http_call_times_app (a : nat) (new tr : list Event) :
  (forall e, e ∈ new -> forall a', ~ is_http_call a' e) ->
  http_call_times a (new ++ tr) = http_call_times a tr.
Proof.
  induction new as [| e new IH]; intros Hnew; [reflexivity |].
  assert (Hrest : http_call_times a (new ++ tr) = http_call_times a tr)
    by (apply IH; intros; apply Hnew; apply elem_of_cons; auto).
  destruct e; simpl; try exact Hrest.
  exfalso. eapply (Hnew (EvHttpCall a0 task now)); [apply elem_of_cons; auto |].
  simpl. reflexivity.
Qed.

(** The [try] block and the rate-limit time stamp. *)
Lemma try_block_rate_limit (cfg : Config) (a : nat) (now : Z)
    (request : APIRequest) (blocked : option TokenCount)
    (st st' : OnlineStatusTracker) (o : HttpOutcome) (t : TryResult)
    (evs : list Event) :
  try_block cfg a now request blocked st o = (st', t, evs) ->
  (rate_limit_times (rev evs) = []
   /\ time_of_last_rate_limit_error st' = time_of_last_rate_limit_error st)
  \/ (rate_limit_times (rev evs) = [now]
      /\ time_of_last_rate_limit_error st' = now).
Proof.
  unfold try_block, call_single_request, on_api_error, _free_capacity.
  intros Ht. repeat (case_match; simplify_eq); simpl; auto.
Qed.

Lemma try_block_errors_before (cfg : Config) (a a0 : nat) (now : Z)
    (request : APIRequest) (blocked : option TokenCount)
    (st st' : OnlineStatusTracker) (o : HttpOutcome) (t : TryResult)
    (evs tr : list Event) :
  try_block cfg a now request blocked st o = (st', t, evs) ->
  errors_before_check a0 (rev evs ++ tr) = errors_before_check a0 tr
  /\ http_call_times a0 (rev evs ++ tr) = http_call_times a0 tr.
Proof.
  intros Ht. apply try_block_events in Ht as [Hevs _].
  split; [apply errors_before_check_app | apply http_call_times_app];
    intros e He a';
    apply list_elem_of_In, in_rev, list_elem_of_In in He;
    destruct (Hevs e He) as [-> | [-> | ((u & ->) & _)]]; simpl; auto.
Qed.

Lemma cool_down_kept_step (cfg : Config) (s s' : State) (c : Choice) :
  cool_down_kept cfg s -> step cfg s c = Some s' -> cool_down_kept cfg s'.
Proof.
  unfold cool_down_kept, admission_cool_down_respected.
  intros (Ha & Hb & Hb' & Hc & Hd) Hstep.
  destruct c; step_cases Hstep.
  all: repeat match goal with
              | Hm : main _ = _ |- _ => rewrite Hm in *; simpl in *
              end.
  all: try match goal with
           | Ht : try_block _ _ _ _ _ _ _ = _ |- _ =>
             pose proof (try_block_rate_limit _ _ _ _ _ _ _ _ _ _ Ht) as Hrl;
             pose proof (fun a0 tr =>
                           proj1 (try_block_errors_before _ _ a0 _ _ _ _ _ _ _ _ tr Ht))
               as Heb1;
             pose proof (fun a0 tr =>
                           proj2 (try_block_errors_before _ _ a0 _ _ _ _ _ _ _ _ tr Ht))
               as Heb2; simpl in Heb1, Heb2
           end.
  all: try match goal with
           | Hl : tasks _ !! _ = Some _ |- _ =>
             pose proof (lookup_lt_Some _ _ _ Hl) as Hlen
           end.
  all: (split; [| split; [| split; [| split]]]).
  all: simpl; rewrite ?length_insert, ?length_app, ?rate_limit_times_app; simpl.
  all: try assumption.
  (* rate-limit times against the clock and the last error *)
  all: try (intros tX HtX;
            try (destruct Hrl as [[Hrl ->] | [Hrl ->]]; rewrite Hrl in HtX;
                 simpl in HtX;
                 try (apply elem_of_cons in HtX as [-> | HtX]; [split; lia |]));
            destruct (Ha tX HtX); split; lia).
  (* attempts that exist *)
  all: try (intros aX tX HltX HtX; rewrite ?Heb1 in HtX;
            try match type of HtX with
                | context [(length ?l =? aX)%nat] =>
                  destruct (Nat.eqb_spec (length l) aX) as [HeqX | HneX]
                end;
            first
              [ lia
              | destruct (Ha tX HtX); lia
              | match type of Hb with
                | forall a t, (a < ?n)%nat -> @?P a t =>
                  assert (HltX' : (aX < n)%nat) by lia;
                  specialize (Hb aX tX HltX' HtX); lia
                end
              | match type of Hb with
                | forall a t, (a < ?n)%nat -> @?P a t =>
                  assert (HeqX' : aX = n) by lia; subst aX
                end;
                first
                  [ specialize (Hb' _ _ _ tX eq_refl HtX); lia
                  | destruct (Hc _ (le_n _))
                      as [_ [[_ (? & ? & ? & Hm)] | Hnil]];
                    [discriminate Hm
                    | rewrite Hnil in HtX; apply elem_of_nil in HtX;
                      destruct HtX] ] ]).
  (* the attempt whose cool-down check is pending *)
  all: try (intros ? ? ? ? [=]; fail).
  all: try (intros ? ? ? tX [= <- <- <-] HtX; rewrite Nat.eqb_refl in HtX;
            destruct (Ha tX HtX); lia).
  all: try (intros rX eX wX tX HmX HtX; rewrite ?Heb1 in HtX;
            eapply Hb'; eauto; fail).
  (* attempts that are yet to be created *)
  all: try (intros aX HleX; rewrite ?Heb1, ?Heb2;
            try match goal with
                | |- context [(?a =? aX)%nat] =>
                  lazymatch a with
                  | length _ => fail
                  | _ => destruct (Nat.eqb_spec a aX); [lia |]
                  end
                end;
            try match goal with
                | |- context [(length ?l =? aX)%nat] =>
                  destruct (Nat.eqb_spec (length l) aX) as [HeqX | HneX]
                end;
            try lia;
            match type of Hc with
            | forall a, (?n <= a)%nat -> @?P a =>
              assert (HleX' : (n <= aX)%nat) by lia
            end;
            destruct (Hc aX HleX') as [Hh Hcase]; (split; [exact Hh |]);
            first
              [ left; split; [lia | do 3 eexists; reflexivity]
              | destruct Hcase as [[Heq (? & ? & ? & Hm)] | Hnil];
                [ first [discriminate Hm | lia | left; split; [lia | eauto]]
                | right; exact Hnil ] ]).
  (* the calls made *)
  all: try (intros aX callX tX HcallX HtX; rewrite ?Heb1, ?Heb2 in *;
            try match type of HcallX with
                | _ ∈ (if (?a =? aX)%nat then _ :: _ else _) =>
                  destruct (Nat.eqb_spec a aX) as [HeqX | HneX];
                  [subst aX; apply elem_of_cons in HcallX as [-> | HcallX];
                   [eapply Hb; eauto; fail |] |]
                end;
            try match type of HtX with
                | _ ∈ (if (length ?l =? aX)%nat then _ else _) =>
                  destruct (Nat.eqb_spec (length l) aX) as [HeqX | HneX];
                  [subst aX; destruct (Hc (length l) (le_n _)) as [Hnil _];
                   rewrite Hnil in HcallX; apply elem_of_nil in HcallX;
                   destruct HcallX |]
                end;
            eapply Hd; eauto; fail).
  (* the attempt admitted once its cool-down is over *)
  all: intros aX tX HltX HtX;
       destruct (Nat.lt_ge_cases aX (length (tasks s))) as [HltX' | HgeX];
       [ specialize (Hb aX tX HltX' HtX); lia
       | assert (HeqX : aX = length (tasks s)) by lia; subst aX;
         first
           [ specialize (Hb' _ _ _ tX eq_refl HtX); lia
           | destruct (Hc _ (le_n _)) as [_ [[_ (? & ? & ? & Hm)] | Hnil]];
             [ discriminate Hm
             | rewrite Hnil in HtX; apply elem_of_nil in HtX;
               destruct HtX ] ] ].
Qed.
End CoolDownFacts.
(** ** The first attempt of a request *)

Section FirstAttemptFacts.
Context `{CapacityTracker} `{Provider}.

Lemma precedes_none (E L : Event -> Prop) (tr : list Event) :
  ~ occurs L tr -> precedes E L tr.
Proof.
  intros Hn newer e older -> HL. exfalso. apply Hn.
  exists e. split; [| exact HL].
  apply elem_of_app. right. apply elem_of_cons. auto.
Qed.

Lemma try_block_quiet (cfg : Config) (a a0 : nat) (now : Z)
    (request : APIRequest) (blocked : option TokenCount)
    (st st' : OnlineStatusTracker) (o : HttpOutcome) (t : TryResult)
    (evs : list Event) (e : Event) :
  try_block cfg a now request blocked st o = (st', t, evs) ->
  e ∈ rev evs -> ~ is_launch a0 e /\ ~ is_cool_down a0 e.
Proof.
  intros Ht He. apply try_block_events in Ht as [Hevs _].
  apply list_elem_of_In, in_rev, list_elem_of_In in He.
  destruct (Hevs e He) as [-> | [-> | ((u & ->) & _)]]; simpl; auto.
Qed.

(** The counters and the numbering. *)
Lemma first_attempts_numbered_step (cfg : Config) (s s' : State) (c : Choice) :
  first_attempts_kept s -> step cfg s c = Some s' ->
  0 <= num_tasks_started (tracker s')
  /\ (Z.to_nat (num_tasks_started (tracker s')) <= length (tasks s'))%nat
  /\ (first_pass (main s') = true ->
      length (tasks s') = Z.to_nat (num_tasks_started (tracker s')))
  /\ (forall a t, tasks s' !! a = Some t ->
        (a < Z.to_nat (num_tasks_started (tracker s')))%nat ->
        task_id (t_request t) = Z.of_nat a)
  /\ (forall request, request ∈ request_in_hand (main s') ->
        task_id request = num_tasks_started (tracker s')).
Proof.
  unfold first_attempts_kept.
  intros (Hpos & Hle & Hfp & Hid & Hhand & _ & _ & _ & _) Hstep.
  destruct c; step_cases Hstep.
  all: repeat match goal with
              | Hm : main _ = _ |- _ => rewrite Hm in *; simpl in *
              end.
  all: repeat match goal with
              | He : except_block _ _ = Retry _ |- _ =>
                apply except_block_retry_inv in He as (_ & Hid' & _ & _ & _)
              | He : except_block _ _ = GiveUp _ _ |- _ =>
                apply except_block_give_up_inv in He as (_ & -> & _)
              end.
  all: repeat match goal with
              | Ht : try_block _ _ _ _ _ _ _ = _ |- _ =>
                apply try_block_counters in Ht as (Hst & _); rewrite ?Hst
              end.
  all: rewrite ?length_app, ?length_insert; simpl.
  all: rewrite ?Z2Nat.inj_add by lia.
  all: change (Z.to_nat 1) with 1%nat.
  all: try specialize (Hfp eq_refl).
  all: (split; [lia |]).
  all: (split; [lia |]).
  all: (split; [first [ intros [=]; fail | intros _; lia | exact Hfp
                      | intros Hf; specialize (Hfp Hf); lia ] |]).
  all: split.
  (* the requests in hand *)
  all: try (intros rX HrX;
            first [ apply elem_of_nil in HrX; destruct HrX
                  | apply list_elem_of_singleton in HrX; subst rX; simpl;
                    first [ reflexivity
                          | apply Hhand; apply list_elem_of_here ]
                  | apply Hhand; exact HrX ]; fail).
  (* the tasks *)
  all: intros aX tX HlX HltX.
  all: try (apply lookup_snoc_inv in HlX as [HlX | [-> ->]]).
  all: try match goal with
           | Hl0 : tasks _ !! _ = Some _ |- _ =>
             eapply lookup_insert_inv in HlX; [| exact Hl0];
             destruct HlX as [[-> ->] | [_ HlX]];
             [ pose proof (lookup_lt_Some _ _ _ Hl0);
               simpl; rewrite ?Hid'; simpl;
               apply (Hid _ _ Hl0); lia |]
           end.
  all: try (pose proof (lookup_lt_Some _ _ _ HlX); apply (Hid _ _ HlX); lia).
  all: try (simpl; rewrite ?Z2Nat.id by lia; lia).
  all: try (simpl;
            match goal with
            | |- task_id ?r = _ =>
              rewrite (Hhand r (list_elem_of_here _ _)), Hfp, Z2Nat.id by lia;
              reflexivity
            end).
Qed.

(** The cool-down checks. *)
Lemma first_attempts_checked_step (cfg : Config) (s s' : State) (c : Choice) :
  first_attempts_kept s -> step cfg s c = Some s' ->
  (forall a, occurs (is_launch a) (trace s') -> (a < length (tasks s'))%nat)
  /\ (forall a, (a < Z.to_nat (num_tasks_started (tracker s')))%nat ->
        precedes (is_cool_down a) (is_launch a) (trace s'))
  /\ (cooling (main s') = true ->
      occurs (is_cool_down (length (tasks s'))) (trace s'))
  /\ (forall a, occurs (is_cool_down a) (trace s') ->
        (a < Z.to_nat (num_tasks_started (tracker s')))%nat
        \/ (a = length (tasks s') /\ cooling (main s') = true)).
Proof.
  unfold first_attempts_kept.
  intros (Hpos & Hle & Hfp & _ & _ & Hlaunched & Hchk & Hcool & Honly) Hstep.
  destruct c; step_cases Hstep.
  all: repeat match goal with
              | Hm : main _ = _ |- _ => rewrite Hm in *; simpl in *
              end.
  all: repeat match goal with
              | Ht : try_block _ _ _ _ _ _ _ = _ |- _ =>
                pose proof (try_block_counters _ _ _ _ _ _ _ _ _ _ Ht)
                  as (Hst & _);
                rewrite ?Hst
              end.
  all: rewrite ?length_app, ?length_insert; simpl.
  all: rewrite ?Z2Nat.inj_add by lia.
  all: change (Z.to_nat 1) with 1%nat.
  all: try specialize (Hfp eq_refl).
  all: split; [| split; [| split]].
  (* launches are of tasks that exist *)
  all: try (intros aX HoX; occurs_split HoX;
            try match goal with
                | Ht : try_block _ _ _ _ _ _ _ = _, Ho : occurs _ (rev _) |- _ =>
                  destruct Ho as (eX & HeX & HlX);
                  destruct (try_block_quiet _ _ aX _ _ _ _ _ _ _ _ eX Ht HeX);
                  contradiction
                end;
            try (apply Hlaunched in HoX); lia).
  (* the checks are of first attempts *)
  all: try (intros aX HoX; occurs_split HoX;
            try match goal with
                | Ht : try_block _ _ _ _ _ _ _ = _, Ho : occurs _ (rev _) |- _ =>
                  destruct Ho as (eX & HeX & HlX);
                  destruct (try_block_quiet _ _ aX _ _ _ _ _ _ _ _ eX Ht HeX);
                  contradiction
                end;
            first
              [ subst aX; first [ left; lia | right; split; reflexivity ]
              | destruct (Honly _ HoX) as [HltX | [HeqX HcX]];
                [ left; lia
                | first [ discriminate HcX
                        | left; lia
                        | right; split; assumption ] ] ]; fail).
  (* the sleeping check *)
  all: try (intros [=]; fail).
  all: try (intros _; apply occurs_here; reflexivity).
  all: try (intros HcX; occurs_mono; apply Hcool, HcX).
  (* the checks of the first attempts *)
  all: intros aX HltX.
  all: repeat first
         [ apply precedes_cons; [| simpl; try (intros []; fail) ]
         | apply precedes_app;
           [| intros eX HeX;
              match goal with
              | Ht : try_block _ _ _ _ _ _ _ = _ |- _ =>
                destruct (try_block_quiet _ _ aX _ _ _ _ _ _ _ _ eX Ht HeX);
                assumption
              end ] ].
  all: try (apply Hchk; lia).
  all: try (intros <-; lia).
  all: try (intros <-;
            repeat first [ apply occurs_here; reflexivity | apply occurs_later ];
            apply Hcool; reflexivity).
  all: destruct (decide (aX = length (tasks s))) as [-> | HneX];
       [ apply precedes_none; intros HoX; apply Hlaunched in HoX; lia
       | apply Hchk; lia ].
Qed.

Lemma first_attempts_kept_step (cfg : Config) (s s' : State) (c : Choice) :
  first_attempts_kept s -> step cfg s c = Some s' -> first_attempts_kept s'.
Proof.
  intros Hinv Hstep.
  destruct (first_attempts_numbered_step _ _ _ _ Hinv Hstep)
    as (? & ? & ? & ? & ?).
  destruct (first_attempts_checked_step _ _ _ _ Hinv Hstep)
    as (? & ? & ? & ?).
  unfold first_attempts_kept. auto 12.
Qed.

Lemma reachable_first_attempts (cfg : Config) (i : Setup) (s : State) :
  reachable cfg i s -> first_attempts_kept s.
Proof.
  apply reachable_invariant.
  - intros s0 Hs0. apply start_inv in Hs0 as [-> _].
    unfold first_attempts_kept; simpl.
    split; [lia |]. split; [lia |]. split; [reflexivity |].
    split; [intros a t Hl; rewrite lookup_nil in Hl; discriminate |].
    split; [intros r Hr; apply elem_of_nil in Hr; destruct Hr |].
    split; [intros a Ho; exfalso; eapply occurs_nil; eauto |].
    split; [intros a Hlt; apply precedes_nil |].
    split; [intros [=] |].
    intros a Ho. exfalso. eapply occurs_nil; eauto.
  - intros ? c ? _. apply first_attempts_kept_step.
Qed.

Lemma errors_before_check_suffix (a : nat) (newer older : list Event) (t : Z) :
  t ∈ rate_limit_times older ->
  t ∈ errors_before_check a (newer ++ EvCoolDown a :: older).
Proof.
  intros Ht. induction newer as [| e newer IH]; simpl.
  - rewrite Nat.eqb_refl. exact Ht.
  - destruct e; simpl; try exact IH.
    destruct (Nat.eqb_spec a0 a) as [-> | Hne]; [| exact IH].
    rewrite rate_limit_times_app. apply elem_of_app. right. simpl. exact Ht.
Qed.

End FirstAttemptFacts.
Section CoolDownRuns.
Context `{CapacityTracker} `{Provider}.

Lemma reachable_cool_down (cfg : Config) (i : Setup) (s : State) :
  reachable cfg i s -> cool_down_kept cfg s.
Proof.
  apply reachable_invariant.
  - intros s0 Hs0. apply start_inv in Hs0 as [-> _].
    unfold cool_down_kept, admission_cool_down_respected; simpl.
    split; [intros t Ht; apply elem_of_nil in Ht; destruct Ht |].
    split; [intros a t Hlt; lia |].
    split; [intros ? ? ? ? [=] |].
    split; [intros a _; split; [reflexivity | right; reflexivity] |].
    intros a call t Hcall. apply elem_of_nil in Hcall. destruct Hcall.
  - intros ? c ? _. apply cool_down_kept_step.
Qed.

End CoolDownRuns.

Section CheckBeforeCall.

Lemma precedes_trans (E M L : Event -> Prop) (tr : list Event) :
  precedes E M tr -> precedes M L tr -> precedes E L tr.
Proof.
  intros HEM HML newer e older Heq HL.
  destruct (HML newer e older Heq HL) as (m & Hm & HMm).
  apply list_elem_of_split in Hm as (n1 & o1 & ->).
  assert (Heq' : tr = (newer ++ e :: n1) ++ m :: o1)
    by (rewrite Heq, <- app_assoc; reflexivity).
  destruct (HEM _ _ _ Heq' HMm) as (x & Hx & HEx).
  exists x. split; [| exact HEx].
  apply elem_of_app. right. apply elem_of_cons. auto.
Qed.

End CheckBeforeCall.

(** C2, as amended.  The first attempt of the request numbered [k] is made
    by the task named [k]; the main loop called
    [cool_down_if_rate_limit_error] for it before it created the task, and
    so before the task's HTTP call.  The rate-limit errors observed before
    that call of [cool_down_if_rate_limit_error] lie at least
    [seconds_to_pause_on_rate_limit] before every HTTP call of the attempt.
    Nothing is said of the errors observed after the check, and nothing of
    the attempts of the retry loop: for them the check is never made. *)
Theorem C2_call_waits_for_errors_seen_at_its_check
    `{CapacityTracker} `{Provider} (cfg : Config) (i : Setup) (s : State) :
  reachable cfg i s ->
  (forall k, 0 <= k < num_tasks_started (tracker s) ->
     exists t,
       tasks s !! Z.to_nat k = Some t
       /\ task_id (t_request t) = k
       /\ occurs (is_launch (Z.to_nat k)) (trace s)
       /\ precedes (is_cool_down (Z.to_nat k)) (is_launch (Z.to_nat k))
            (trace s)
       /\ precedes (is_cool_down (Z.to_nat k)) (is_http_call (Z.to_nat k))
            (trace s))
  /\ (forall a t, tasks s !! a = Some t ->
        num_tasks_started (tracker s) <= Z.of_nat a ->
        ~ occurs (is_cool_down a) (trace s))
  /\ (forall (a : nat) (newer older : list Event) (call t : Z),
        trace s = newer ++ EvCoolDown a :: older ->
        t ∈ rate_limit_times older ->
        call ∈ http_call_times a (trace s) ->
        t + seconds_to_pause_on_rate_limit cfg <= call)
  /\ (forall (a : nat) (call t : Z),
        call ∈ http_call_times a (trace s) ->
        t ∈ errors_before_check a (trace s) ->
        t + seconds_to_pause_on_rate_limit cfg <= call).
Proof.
  intros Hr. destruct (reachable_cool_down _ _ _ Hr) as (_ & _ & _ & _ & Hd).
  destruct (reachable_first_attempts _ _ _ Hr)
    as (Hpos & Hle & _ & Hid & _ & _ & Hchk & _ & Honly).
  destruct (reachable_discipline _ _ _ Hr)
    as (_ & _ & Hlh & _ & Hlaunched & _).
  split; [| split; [| split]].
  - intros k [Hk0 Hk].
    assert (Hlt : (Z.to_nat k < Z.to_nat (num_tasks_started (tracker s)))%nat)
      by lia.
    destruct (lookup_lt_is_Some_2 (tasks s) (Z.to_nat k)) as [t Ht]; [lia |].
    exists t. split; [exact Ht |].
    split; [rewrite (Hid _ _ Ht Hlt); lia |].
    split; [eapply Hlaunched; exact Ht |].
    split; [apply Hchk, Hlt |].
    eapply precedes_trans; [apply Hchk, Hlt | apply Hlh].
  - intros a t Ht Hge Hocc.
    pose proof (lookup_lt_Some _ _ _ Ht) as Hlt.
    destruct (Honly a Hocc) as [Hlt' | [Heq _]]; lia.
  - intros a newer older call t Heq Ht Hcall.
    apply (Hd a call t Hcall). rewrite Heq.
    apply errors_before_check_suffix, Ht.
  - exact Hd.
Qed.

Lemma C2_witness :
  exists s,
    Demo.schedule None Demo.refused_then_read = Some s
    /\ num_tasks_started (tracker s) = 2
    /\ 100040 ∈ errors_before_check 1 (trace s)
    /\ (forall k, 0 <= k < num_tasks_started (tracker s) ->
          exists t,
            tasks s !! Z.to_nat k = Some t
            /\ task_id (t_request t) = k
            /\ occurs (is_launch (Z.to_nat k)) (trace s)
            /\ precedes (is_cool_down (Z.to_nat k)) (is_launch (Z.to_nat k))
                 (trace s)
            /\ precedes (is_cool_down (Z.to_nat k)) (is_http_call (Z.to_nat k))
                 (trace s))
    /\ (forall a t, tasks s !! a = Some t ->
          num_tasks_started (tracker s) <= Z.of_nat a ->
          ~ occurs (is_cool_down a) (trace s))
    /\ (forall (a : nat) (newer older : list Event) (call t : Z),
          trace s = newer ++ EvCoolDown a :: older ->
          t ∈ rate_limit_times older ->
          call ∈ http_call_times a (trace s) ->
          t + seconds_to_pause_on_rate_limit Demo.cfg <= call)
    /\ (forall (a : nat) (call t : Z),
          call ∈ http_call_times a (trace s) ->
          t ∈ errors_before_check a (trace s) ->
          t + seconds_to_pause_on_rate_limit Demo.cfg <= call).
Proof.
  eexists. split; [vm_compute; reflexivity |].
  split; [reflexivity |].
  split; [simpl; apply list_elem_of_here |].
  apply (@C2_call_waits_for_errors_seen_at_its_check
           unlimited plain_provider Demo.cfg (Demo.setup None)).
  apply run_reachable with (cs := Demo.refused_then_read).
  vm_compute. reflexivity.
Defined.

(** C2, as stated, fails: a task that was created before the error posts
    its call at the very time at which another task's call is refused. *)
Lemma C2_counterexample :
  exists s,
    Demo.schedule None Demo.refused_then_posted = Some s
    /\ ~ cool_down_respected (seconds_to_pause_on_rate_limit Demo.cfg) (trace s).
Proof.
  eexists. split; [vm_compute; reflexivity |].
  intros Hc.
  specialize (Hc [] 1%nat 1 100040 _ 100040 eq_refl).
  simpl in Hc.
  assert (Hle : 100040 + 15000 <= 100040)
    by (apply Hc, list_elem_of_here).
  lia.
Qed.
(** ** The arguments of the capacity calls *)

Section CallArgumentFacts.
Context `{CapacityTracker} `{Provider}.

Lemma token_estimate_for_same (s s' : State) (request request' : APIRequest) :
  max_tokens_per_minute (tracker s') = max_tokens_per_minute (tracker s) ->
  generic_request request' = generic_request request ->
  token_estimate_for s' request' = token_estimate_for s request.
Proof. unfold token_estimate_for. intros -> ->. reflexivity. Qed.

Lemma estimates_kept_step (cfg : Config) (s s' : State) (c : Choice) :
  estimates_kept s -> step cfg s c = Some s' -> estimates_kept s'.
Proof.
  unfold estimates_kept. intros (Htasks & Hhand) Hstep.
  pose proof (step_limit _ _ _ _ Hstep) as Hlim.
  assert (Hsame : forall r, token_estimate_for s' r = token_estimate_for s r)
    by (intros r; apply token_estimate_for_same; [exact Hlim | reflexivity]).
  clear Hlim.
  split.
  - intros aX tX HlX. rewrite Hsame. revert aX tX HlX. clear Hsame.
    destruct c; step_cases Hstep.
    all: repeat match goal with
                | Hm : main _ = _ |- _ => rewrite Hm in *; simpl in *
                end.
    all: repeat match goal with
                | He : except_block _ _ = Retry _ |- _ =>
                  apply except_block_retry_inv in He as (_ & _ & Hgr & _ & _)
                | He : except_block _ _ = GiveUp _ _ |- _ =>
                  apply except_block_give_up_inv in He as (_ & -> & _)
                end.
    all: intros aX tX HlX.
    all: try (apply lookup_snoc_inv in HlX as [HlX | [-> ->]]).
    all: try match goal with
             | Hl0 : tasks _ !! _ = Some _ |- _ =>
               eapply lookup_insert_inv in HlX; [| exact Hl0];
               destruct HlX as [[-> ->] | [_ HlX]];
               [ pose proof (Htasks _ _ Hl0) as HbX; simpl in HbX; simpl;
                 rewrite HbX; unfold token_estimate_for; simpl;
                 rewrite ?Hgr; reflexivity |]
             end.
    all: try (apply (Htasks _ _ HlX)).
    all: simpl.
    all: try (apply Hhand; apply list_elem_of_here).
    all: unfold token_estimate_for; reflexivity.
  - intros rX eX HrX. rewrite Hsame. revert rX eX HrX. clear Hsame.
    destruct c; step_cases Hstep.
    all: repeat match goal with
                | Hm : main _ = _ |- _ => rewrite Hm in *; simpl in *
                end.
    all: intros rX eX HrX.
    all: try (apply elem_of_nil in HrX; destruct HrX).
    all: try (apply Hhand; exact HrX).
    all: apply list_elem_of_singleton in HrX; injection HrX as -> ->.
    all: try (apply Hhand; apply list_elem_of_here).
    all: unfold token_estimate_for; reflexivity.
Qed.

Lemma reachable_estimates (cfg : Config) (i : Setup) (s : State) :
  reachable cfg i s -> estimates_kept s.
Proof.
  apply reachable_invariant.
  - intros s0 Hs0. apply start_inv in Hs0 as [-> _].
    unfold estimates_kept; simpl. split.
    + intros a t Hl. rewrite lookup_nil in Hl. discriminate.
    + intros r e Hr. apply elem_of_nil in Hr. destruct Hr.
  - intros ? c ? _. apply estimates_kept_step.
Qed.

Lemma try_block_free_event (cfg : Config) (a : nat) (now : Z)
    (request : APIRequest) (blocked : option TokenCount)
    (st st' : OnlineStatusTracker) (o : HttpOutcome) (r : GenericResponse)
    (evs : list Event) :
  try_block cfg a now request blocked st o = (st', TryCompleted r, evs) ->
  max_tokens_per_minute st <> None ->
  EvFree a (used_capacity_of r) blocked ∈ evs.
Proof.
  unfold try_block. intros Ht Hl.
  destruct (call_single_request cfg a now request st o)
    as [[st1 res] evs1] eqn:Hcall.
  apply call_single_request_events in Hcall as (Hlim & _ & _).
  destruct res as [e | r0]; [congruence |].
  destruct (finish_reason_is_invalid cfg r0); [congruence |].
  destruct (response_to_response_format (response_message r0));
    [congruence |].
  unfold _free_capacity in Ht. simpl in Ht. rewrite Hlim in Ht.
  destruct (max_tokens_per_minute st); [| congruence].
  injection Ht as <- <- <-.
  apply elem_of_app. right. apply list_elem_of_singleton. reflexivity.
Qed.

Lemma try_block_event_cases (cfg : Config) (a : nat) (now : Z)
    (request : APIRequest) (blocked : option TokenCount)
    (st st' : OnlineStatusTracker) (o : HttpOutcome) (t : TryResult)
    (evs : list Event) (e : Event) :
  try_block cfg a now request blocked st o = (st', t, evs) ->
  e ∈ rev evs ->
  e = EvRateLimit a now \/ e = EvUpdateStats a
  \/ (exists u, e = EvFree a u blocked) /\ raised t = None.
Proof.
  intros Ht He. apply try_block_events in Ht as [Hevs _].
  apply list_elem_of_In, in_rev, list_elem_of_In in He.
  destruct (Hevs e He) as [-> | [-> | (Hu & Hr & _)]]; auto.
Qed.

Lemma effect_blocked_kept (cfg : Config) (s s' : State) :
  Effect cfg s s' ->
  forall a t, tasks s !! a = Some t ->
    exists t', tasks s' !! a = Some t' /\ t_blocked t' = t_blocked t.
Proof.
  intros Heff a0 t0 Hl0.
  destruct Heff as
    [Hts Htr | Hts Htr | r est cool Hts Htr Hcool | a r b Ha Hts Htr
     | a r b st0 o st resp evs Ha Htry Hts Htr
     | a r r' b st0 o st t e evs Ha Htry Hrs Hex Hts Htr
     | a r r' b st0 o st t e rec evs Ha Htry Hrs Hex Hts Htr
     | a r b resp ok Ha Hts Htr Hrf | a r b ok Ha Hts Htr];
    rewrite Hts; clear Hts Htr.
  all: try (exists t0; split; [exact Hl0 | reflexivity]).
  all: try (exists t0; split; [apply lookup_app_l_Some; exact Hl0 | reflexivity]).
  all: match goal with
       | |- exists _, <[?a := ?tn]> ?l !! _ = Some _ /\ _ =>
         destruct (lookup_insert_cases l a a0 _ tn t0 Ha Hl0)
           as (t' & Hl' & Hcase);
         exists t'; split; [exact Hl' |];
         destruct Hcase as [(-> & -> & ->) | (_ & ->)]; reflexivity
       end.
Qed.

End CallArgumentFacts.

Ltac elem_split Hin :=
  repeat first
    [ apply elem_of_cons in Hin as [Hin | Hin]; [try discriminate Hin |]
    | apply elem_of_app in Hin as [Hin | Hin] ].

Section CallArgumentSteps.
Context `{CapacityTracker} `{Provider}.

Lemma arguments_events_step (cfg : Config) (limit : option Z) (s s' : State) :
  arguments_kept limit s -> Effect cfg s s' ->
  (forall a token_estimate, EvConsume a token_estimate ∈ trace s' ->
     exists t, tasks s' !! a = Some t /\ t_blocked t = token_estimate)
  /\ (forall a used blocked, EvFree a used blocked ∈ trace s' ->
        exists t, tasks s' !! a = Some t /\ t_blocked t = blocked).
Proof.
  intros (HI1 & HI2 & _ & _) Heff.
  pose proof (effect_blocked_kept _ _ _ Heff) as Hkept.
  assert (HI1' : forall a e, EvConsume a e ∈ trace s ->
            exists t, tasks s' !! a = Some t /\ t_blocked t = e).
  { intros a e Hin. destruct (HI1 a e Hin) as (t & Ht & <-).
    apply (Hkept a t Ht). }
  assert (HI2' : forall a u b, EvFree a u b ∈ trace s ->
            exists t, tasks s' !! a = Some t /\ t_blocked t = b).
  { intros a u b Hin. destruct (HI2 a u b Hin) as (t & Ht & <-).
    apply (Hkept a t Ht). }
  clear HI1 HI2 Hkept.
  destruct Heff as
    [Hts Htr | Hts Htr | r est cool Hts Htr Hcool | a r b Ha Hts Htr
     | a r b st0 o st resp evs Ha Htry Hts Htr
     | a r r' b st0 o st t e evs Ha Htry Hrs Hex Hts Htr
     | a r r' b st0 o st t e rec evs Ha Htry Hrs Hex Hts Htr
     | a r b resp ok Ha Hts Htr Hrf | a r b ok Ha Hts Htr];
    rewrite Htr; clear Htr.
  all: try (destruct Hcool as [-> | ->]).
  all: try (destruct ok).
  all: split; [intros a0 e0 Hin | intros a0 u0 b0 Hin]; elem_split Hin.
  all: try (eapply HI1'; eauto; fail).
  all: try (eapply HI2'; eauto; fail).
  all: try (apply elem_of_nil in Hin; destruct Hin).
  all: try match goal with
           | Ht : try_block _ _ _ _ _ _ _ = _, He : _ ∈ rev _ |- _ =>
             destruct (try_block_event_cases _ _ _ _ _ _ _ _ _ _ _ Ht He)
               as [Hc | [Hc | ((u & Hc) & Hn)]];
             try discriminate Hc; try congruence
           end.
  - injection Hin as -> ->. rewrite Hts. eexists.
    split; [apply list_lookup_middle; reflexivity | reflexivity].
  - injection Hin as -> ->. rewrite Hts. eexists.
    split; [apply list_lookup_middle; reflexivity | reflexivity].
  - injection Hc as -> -> ->. rewrite Hts. eexists.
    split; [apply list_lookup_insert_eq; eapply lookup_lt_Some; eauto
           | reflexivity].
Qed.

Lemma elem_of_rev_2 {A : Type} (x : A) (l : list A) : x ∈ l -> x ∈ rev l.
Proof. intros Hx. apply list_elem_of_In, in_rev, list_elem_of_In in Hx. exact Hx. Qed.

Lemma arguments_records_step (cfg : Config) (limit : option Z) (s s' : State) :
  reservation_discipline limit s -> arguments_kept limit s ->
  Effect cfg s s' ->
  (forall a t r, tasks s' !! a = Some t -> t_pc t = TSavingOk r ->
     limit <> None ->
     EvFree a (used_capacity_of r) (t_blocked t) ∈ trace s')
  /\ (limit <> None ->
      forall a r,
        precedes
          (fun e => exists blocked, is_free_with a (used_capacity_of r) blocked e)
          (is_success_append_of a r) (trace s')).
Proof.
  intros (Hlim & _ & _ & _ & _ & _ & Hfl & _ & _) (_ & _ & HI3 & HI4) Heff.
  destruct Heff as
    [Hts Htr | Hts Htr | r est cool Hts Htr Hcool | a r b Ha Hts Htr
     | a r b st0 o st resp evs Ha Htry Hts Htr
     | a r r' b st0 o st t e evs Ha Htry Hrs Hex Hts Htr
     | a r r' b st0 o st t e rec evs Ha Htry Hrs Hex Hts Htr
     | a r b resp ok Ha Hts Htr Hrf | a r b ok Ha Hts Htr];
    rewrite Htr, Hts; clear Htr Hts.
  all: try (destruct Hcool as [-> | ->]).
  all: try (destruct ok).
  all: split; [intros a0 t0 r0 Hl0 Hpc0 Hlimit | intros Hlimit a0 r0].
  (* the records about to be written *)
  all: try match goal with
           | Hl : (_ ++ [_]) !! _ = Some _ |- _ =>
             apply lookup_snoc_inv in Hl; destruct Hl as [Hl | [-> ->]]
           | H0' : ?l !! ?a = Some _, Hl : <[?a := _]> ?l !! _ = Some _ |- _ =>
             eapply lookup_insert_inv in Hl; [| exact H0'];
             destruct Hl as [[-> ->] | [Hne Hl]]
           end.
  all: simpl in *; try discriminate.
  all: try (repeat first [ apply list_elem_of_further
                         | apply elem_of_app; right ];
            eapply HI3; eauto; fail).
  all: try (injection Hpc0 as <-; apply elem_of_app; left;
            apply elem_of_rev_2; eapply try_block_free_event; eauto;
            congruence).
  (* the order of the events *)
  all: specialize (HI4 Hlimit a0 r0).
  all: repeat first
         [ apply precedes_cons; [| simpl; try (intros []; fail) ]
         | apply precedes_app;
           [| intros eX HeX;
              match goal with
              | Ht : try_block _ _ _ _ _ _ _ = _ |- _ =>
                destruct (try_block_event_cases _ _ _ _ _ _ _ _ _ _ _ Ht HeX)
                  as [-> | [-> | ((u & ->) & _)]]; simpl; intros []
              end ] ].
  all: try exact HI4.
  - intros (<- & <- & Hm).
    exists (EvFree a (used_capacity_of resp) b). split.
    + apply (HI3 a _ resp Ha eq_refl Hlimit).
    + exists b. reflexivity.
  - intros (<- & <- & Hm). exfalso. apply Hm. eapply Hfl; eauto.
Qed.

Lemma arguments_kept_step (cfg : Config) (limit : option Z) (s s' : State)
    (c : Choice) :
  reservation_discipline limit s -> arguments_kept limit s ->
  step cfg s c = Some s' -> arguments_kept limit s'.
Proof.
  intros Hdisc Hinv Hstep.
  pose proof (step_effect _ _ _ _ Hstep) as Heff.
  destruct (arguments_events_step _ _ _ _ Hinv Heff) as (? & ?).
  destruct (arguments_records_step _ _ _ _ Hdisc Hinv Heff) as (? & ?).
  unfold arguments_kept. auto.
Qed.

Lemma reachable_arguments (cfg : Config) (i : Setup) (s : State) :
  reachable cfg i s -> arguments_kept (tracker_max_tokens_per_minute i) s.
Proof.
  apply reachable_invariant.
  - intros s0 Hs0. apply start_inv in Hs0 as [-> _].
    unfold arguments_kept; simpl.
    split; [intros a e Hin; apply elem_of_nil in Hin; destruct Hin |].
    split; [intros a u b Hin; apply elem_of_nil in Hin; destruct Hin |].
    split; [intros a t r Hl; rewrite lookup_nil in Hl; discriminate |].
    intros _ a r. apply precedes_nil.
  - intros s1 c s2 Hr Hinv Hstep.
    eapply arguments_kept_step; eauto. eapply reachable_discipline, Hr.
Qed.

End CallArgumentSteps.

(** ** The capacity calls themselves *)

Section CapacityCalls.
Context `{CapacityTracker} `{Provider}.

(** What the [try] block does to the capacity book-keeping. *)
Lemma try_block_capacity (cfg : Config) (a : nat) (now : Z)
    (request : APIRequest) (blocked : option TokenCount)
    (st st' : OnlineStatusTracker) (o : HttpOutcome) (t : TryResult)
    (evs : list Event) :
  try_block cfg a now request blocked st o = (st', t, evs) ->
  match t with
  | TryCompleted r =>
    exists response,
      o = HttpReturns 200 response
      /\ token_usage r = Some (resp_usage response)
      /\ capacity st'
         = match max_tokens_per_minute st with
           | Some _ =>
             free_capacity now
               (update_stats (capacity st) (Some (resp_usage response)))
               (mkTokenCount (prompt_tokens (resp_usage response))
                  (completion_tokens (resp_usage response)))
               blocked
           | None => update_stats (capacity st) (Some (resp_usage response))
           end
  | TryRaisedOnFormat _ =>
    exists response,
      o = HttpReturns 200 response
      /\ capacity st'
         = update_stats (capacity st) (Some (resp_usage response))
  | _ => capacity st' = capacity st
  end.
Proof.
  unfold try_block, call_single_request, on_api_error, _free_capacity.
  intros Ht.
  repeat (case_match; simplify_eq); simpl in *; tests_to_props; subst;
    try congruence; try reflexivity; eexists; repeat split; reflexivity.
Qed.

(** The transition that creates a task calls [consume_capacity] with the
    estimate that the task keeps as its blocked capacity, right after the
    test of [has_capacity] or after the sleep of the cool-down. *)
Lemma step_creates_consumes (cfg : Config) (s s' : State) (c : Choice)
    (a : nat) (t : Task) :
  step cfg s c = Some s' ->
  tasks s !! a = None -> tasks s' !! a = Some t ->
  capacity (tracker s')
  = consume_capacity (clock s) (capacity (tracker s)) (t_blocked t)
  \/ capacity (tracker s')
     = consume_capacity (clock s)
         (has_capacity (clock s) (capacity (tracker s)) (t_blocked t)).2
         (t_blocked t).
Proof.
  intros Hstep Hnone Hsome. revert Hsome.
  destruct c; step_cases Hstep.
  all: intros Hsome.
  all: try (rewrite Hnone in Hsome; discriminate).
  all: try (apply list_lookup_insert_Some in Hsome
              as [(_ & _ & Hlt) | (_ & Hsome)];
            [ apply lookup_ge_None in Hnone; lia
            | rewrite Hnone in Hsome; discriminate ]).
  all: apply lookup_snoc_inv in Hsome as [Hsome | [-> ->]];
       [rewrite Hnone in Hsome; discriminate |].
  all: simpl.
  all: try (left; reflexivity).
  all: right;
       match goal with
       | Hp : has_capacity _ _ _ = _ |- _ => rewrite Hp; reflexivity
       end.
Qed.

(** The transition in which the reply of an attempt arrives. *)
Lemma step_reply_capacity (cfg : Config) (s s' : State) (a : nat)
    (o : HttpOutcome) (t : Task) :
  step cfg s (RunHttp a o) = Some s' ->
  tasks s' !! a = Some t ->
  match t_pc t with
  | TSavingOk r =>
    exists response,
      o = HttpReturns 200 response
      /\ token_usage r = Some (resp_usage response)
      /\ capacity (tracker s')
         = match max_tokens_per_minute (tracker s) with
           | Some _ =>
             free_capacity (clock s)
               (update_stats (capacity (tracker s)) (token_usage r))
               (used_capacity_of r) (t_blocked t)
           | None => update_stats (capacity (tracker s)) (token_usage r)
           end
  | _ =>
    capacity (tracker s') = capacity (tracker s)
    \/ exists response,
         o = HttpReturns 200 response
         /\ capacity (tracker s')
            = update_stats (capacity (tracker s)) (Some (resp_usage response))
  end.
Proof.
  intros Hstep. step_cases Hstep.
  all: match goal with
       | Ht : try_block _ _ _ _ _ _ _ = _ |- _ =>
         pose proof (try_block_capacity _ _ _ _ _ _ _ _ _ _ Ht) as Hcap;
         simpl in Hcap
       end.
  all: match goal with
       | Hl : tasks _ !! _ = Some _ |- _ =>
         rewrite (list_lookup_insert_eq _ _ _ (lookup_lt_Some _ _ _ Hl))
       end.
  all: intros [= <-]; simpl.
  all: try (left; exact Hcap).
  all: try (right; exact Hcap).
  destruct Hcap as (response & -> & Hu & Hcap).
  exists response. split; [reflexivity |]. split; [exact Hu |].
  unfold used_capacity_of. rewrite Hu. exact Hcap.
Qed.

End CapacityCalls.
(** C1, as amended.  The estimate kept with a task is the token estimate
    of its request when the tracker has a token limit and [None] when it
    has none.  [consume_capacity] is called with that estimate before the
    task is created, and the transition that creates the task leaves the
    tracker's capacity as this call made it; the task is created before its
    HTTP call.  When the tracker has a token limit, [free_capacity] is
    called with the usage of the reply and the task's estimate before the
    success record is appended, and the transition in which the reply
    arrives leaves the capacity as [update_stats] and this call made it;
    when it has no limit, [free_capacity] is not called at all.  An attempt
    that raised never has [free_capacity] called for it: its transition
    leaves the capacity as it was, or as [update_stats] made it. *)
Theorem C1_reserve_before_launch_and_free_under_token_limit
    `{CapacityTracker} `{Provider} (cfg : Config) (i : Setup) (s : State) :
  reachable cfg i s ->
  (forall a t, tasks s !! a = Some t ->
     t_blocked t
     = match tracker_max_tokens_per_minute i with
       | Some _ =>
         Some (estimate_total_tokens (messages (generic_request (t_request t))))
       | None => None
       end
     /\ occurs (is_launch a) (trace s)
     /\ precedes (is_consume_with a (t_blocked t)) (is_launch a) (trace s)
     /\ (tracker_max_tokens_per_minute i <> None ->
         forall r,
           precedes (is_free_with a (used_capacity_of r) (t_blocked t))
             (is_success_append_of a r) (trace s)))
  /\ (forall (c : Choice) (s' : State) a t,
        step cfg s c = Some s' ->
        tasks s !! a = None -> tasks s' !! a = Some t ->
        capacity (tracker s')
        = consume_capacity (clock s) (capacity (tracker s)) (t_blocked t)
        \/ capacity (tracker s')
           = consume_capacity (clock s)
               (has_capacity (clock s) (capacity (tracker s)) (t_blocked t)).2
               (t_blocked t))
  /\ (forall a o (s' : State) t,
        step cfg s (RunHttp a o) = Some s' ->
        tasks s' !! a = Some t ->
        match t_pc t with
        | TSavingOk r =>
          exists response,
            o = HttpReturns 200 response
            /\ token_usage r = Some (resp_usage response)
            /\ capacity (tracker s')
               = match tracker_max_tokens_per_minute i with
                 | Some _ =>
                   free_capacity (clock s)
                     (update_stats (capacity (tracker s)) (token_usage r))
                     (used_capacity_of r) (t_blocked t)
                 | None => update_stats (capacity (tracker s)) (token_usage r)
                 end
        | _ =>
          capacity (tracker s') = capacity (tracker s)
          \/ exists response,
               o = HttpReturns 200 response
               /\ capacity (tracker s')
                  = update_stats (capacity (tracker s))
                      (Some (resp_usage response))
        end)
  /\ (forall a, precedes (is_consume a) (is_launch a) (trace s))
  /\ (forall a, precedes (is_launch a) (is_http_call a) (trace s))
  /\ (tracker_max_tokens_per_minute i <> None ->
      forall a, precedes (is_free a) (is_success_append a) (trace s))
  /\ (tracker_max_tokens_per_minute i = None ->
      forall a, ~ occurs (is_free a) (trace s))
  /\ (forall a, occurs (is_raised a) (trace s) -> ~ occurs (is_free a) (trace s)).
Proof.
  intros Hr.
  destruct (reachable_discipline _ _ _ Hr)
    as (Hlim & Hcl & Hlh & Hfa & Hlaunched & _ & _ & Hfree & Hraised).
  destruct (reachable_estimates _ _ _ Hr) as (Hest & _).
  destruct (reachable_arguments _ _ _ Hr) as (HI1 & HI2 & _ & HI4).
  split; [| split; [| split; [| split; [| split; [| split; [| split]]]]]].
  - intros a t Ht.
    split; [rewrite (Hest a t Ht); unfold token_estimate_for;
            rewrite Hlim; reflexivity |].
    split; [eapply Hlaunched; exact Ht |].
    split.
    + intros newer e older Heq HL.
      destruct (Hcl a newer e older Heq HL) as (x & Hx & Hc).
      destruct x; simpl in Hc; try destruct Hc.
      destruct (HI1 a0 token_estimate) as (t' & Ht' & Hb).
      { rewrite Heq. apply elem_of_app. right. apply elem_of_cons. auto. }
      rewrite Ht in Ht'. injection Ht' as <-.
      exists (EvConsume a0 token_estimate).
      split; [exact Hx | unfold is_consume_with; congruence].
    + intros Hl r newer e older Heq HL.
      destruct (HI4 Hl a r newer e older Heq HL) as (x & Hx & b & ->).
      destruct (HI2 a (used_capacity_of r) b) as (t' & Ht' & Hb).
      { rewrite Heq. apply elem_of_app. right. apply elem_of_cons. auto. }
      rewrite Ht in Ht'. injection Ht' as <-.
      exists (EvFree a (used_capacity_of r) b).
      split; [exact Hx | unfold is_free_with; congruence].
  - intros c s' a t. apply step_creates_consumes.
  - intros a o s' t Hstep Ht.
    pose proof (step_reply_capacity _ _ _ _ _ _ Hstep Ht) as Hcap.
    rewrite Hlim in Hcap. exact Hcap.
  - exact Hcl.
  - exact Hlh.
  - exact Hfa.
  - intros Hnone a Hocc. destruct (Hfree a Hocc) as [Hl _]. contradiction.
  - intros a Hr' Hf'.
    destruct (Hraised a Hr') as (t & Ht & Hfail).
    destruct (Hfree a Hf') as (_ & t' & Ht' & Hok).
    rewrite Ht in Ht'. injection Ht' as <-.
    destruct (t_pc t) as [| | | | | | []]; discriminate.
Qed.

Lemma C1_witness :
  exists s,
    Demo.schedule (Some 1000) Demo.both_succeed = Some s
    /\ length (tasks s) = 2%nat
    /\
  (forall a t, tasks s !! a = Some t ->
       t_blocked t
       = match Some 1000 with
         | Some _ =>
           Some (@estimate_total_tokens plain_provider (messages (generic_request (t_request t))))
         | None => None
         end
       /\ occurs (is_launch a) (trace s)
       /\ precedes (is_consume_with a (t_blocked t)) (is_launch a) (trace s)
       /\ (Some 1000 <> None ->
           forall r,
             precedes (is_free_with a (used_capacity_of r) (t_blocked t))
               (is_success_append_of a r) (trace s)))
    /\ (forall (c : Choice) (s' : State) a t,
          @step unlimited plain_provider Demo.cfg s c = Some s' ->
          tasks s !! a = None -> tasks s' !! a = Some t ->
          capacity (tracker s')
          = consume_capacity (clock s) (capacity (tracker s)) (t_blocked t)
          \/ capacity (tracker s')
             = consume_capacity (clock s)
                 (has_capacity (clock s) (capacity (tracker s)) (t_blocked t)).2
                 (t_blocked t))
    /\ (forall a o (s' : State) t,
          @step unlimited plain_provider Demo.cfg s (RunHttp a o) = Some s' ->
          tasks s' !! a = Some t ->
          match t_pc t with
          | TSavingOk r =>
            exists response,
              o = HttpReturns 200 response
              /\ token_usage r = Some (resp_usage response)
              /\ capacity (tracker s')
                 = match Some 1000 with
                   | Some _ =>
                     free_capacity (clock s)
                       (update_stats (capacity (tracker s)) (token_usage r))
                       (used_capacity_of r) (t_blocked t)
                   | None => update_stats (capacity (tracker s)) (token_usage r)
                   end
          | _ =>
            capacity (tracker s') = capacity (tracker s)
            \/ exists response,
                 o = HttpReturns 200 response
                 /\ capacity (tracker s')
                    = update_stats (capacity (tracker s))
                        (Some (resp_usage response))
          end)
    /\ (forall a, precedes (is_consume a) (is_launch a) (trace s))
    /\ (forall a, precedes (is_launch a) (is_http_call a) (trace s))
    /\ (Some 1000 <> None ->
        forall a, precedes (is_free a) (is_success_append a) (trace s))
    /\ (Some 1000 = None ->
        forall a, ~ occurs (is_free a) (trace s))
    /\ (forall a, occurs (is_raised a) (trace s) -> ~ occurs (is_free a) (trace s)).
Proof.
  eexists. split; [vm_compute; reflexivity |].
  split; [reflexivity |].
  apply (@C1_reserve_before_launch_and_free_under_token_limit
           unlimited plain_provider Demo.cfg (Demo.setup (Some 1000))).
  apply run_reachable with (cs := Demo.both_succeed).
  vm_compute. reflexivity.
Defined.

(** C1, as stated, fails: without a token limit the success record of the
    first request is appended and [free_capacity] has not been called. *)
Lemma C1_counterexample :
  exists s,
    Demo.schedule None Demo.both_succeed = Some s
    /\ ~ (forall a, precedes (is_free a) (is_success_append a) (trace s)).
Proof.
  eexists. split; [vm_compute; reflexivity |].
  intros Hc.
  destruct (Hc 0%nat [_; _; _; _; _; _; _; _; _; _] _ _ eq_refl)
    as (e & He & Hfree).
  { simpl. split; [reflexivity | discriminate]. }
  repeat (apply elem_of_cons in He as [-> | He]; [destruct Hfree |]).
  apply elem_of_nil in He. destruct He.
Qed.
Section InProgress.
Context `{CapacityTracker} `{Provider}.

(** When the run has ended, [num_tasks_in_progress] is below zero by the
    number of requests. *)
Lemma terminated_in_progress (cfg : Config) (i : Setup) (s : State) :
  reachable cfg i s -> terminated s ->
  num_tasks_in_progress (tracker s) = - num_tasks_started (tracker s).
Proof.
  intros Hr Hterm.
  destruct (reachable_counters _ _ _ Hr) as (Hs & Hf & Hst & Hin).
  rewrite Hin, Hst.
  rewrite (finished_holding_ended (tasks s))
    by (eapply terminated_all_finished; eauto).
  destruct (reachable_tasks_awaited _ _ _ Hr) as (_ & _ & Hdone).
  destruct (Hdone Hterm) as [_ Hq]. rewrite Hq.
  unfold retry_in_hand. unfold terminated in Hterm. rewrite Hterm. simpl.
  rewrite (count_none between_increment_and_end); [lia |].
  intros t Ht.
  pose proof (terminated_all_finished _ _ _ Hr Hterm t Ht) as Hfin.
  unfold live in Hfin. unfold between_increment_and_end.
  destruct (t_pc t); try reflexivity; discriminate Hfin.
Qed.

End InProgress.

(** C6.  One request that succeeds at its first attempt: the counter
    updates come in the order of the claim, but [num_tasks_in_progress] is
    decremented a second time when [process_with_semaphore] leaves its
    [try] statement, and the run ends with the counter at [-1]. *)
Theorem C6_in_progress_decremented_twice :
  exists s,
    @run unlimited plain_provider Demo.cfg Demo.single Demo.one_succeeds = Some s
    /\ terminated s
    /\ counter_updates 0 (trace s)
       = [EvInProgress 0 1; EvUpdateStats 0; EvInProgress 0 (-1); EvSucceeded 0;
          EvInProgress 0 (-1)]
    /\ num_tasks_succeeded (tracker s) = 1
    /\ num_tasks_in_progress (tracker s) = -1.
Proof.
  eexists. split; [vm_compute; reflexivity |].
  vm_compute. repeat split.
Qed.
(** ** The two semaphores *)

Section SemaphoreFacts.
Context `{CapacityTracker} `{Provider}.

Lemma semaphores_balanced_step (cfg : Config) (s s' : State) (c : Choice) :
  semaphores_balanced cfg s -> step cfg s c = Some s' ->
  semaphores_balanced cfg s'.
Proof.
  unfold semaphores_balanced.
  intros (Hpos & Hreq & Hsem) Hstep.
  destruct (max_concurrent_requests cfg) as [n |].
  - destruct Hsem as (v & Hv & Hv0 & Hbal).
    destruct c; step_cases Hstep.
    all: repeat match goal with
                | Hm : main _ = _ |- _ => rewrite Hm in *; simpl in *
                end.
    all: rewrite ?Hv in *; simpl in *; tests_to_props.
    all: rewrite ?count_app; simpl.
    all: repeat match goal with
                | Hl : tasks _ !! _ = Some _
                  |- context [count ?f (<[_ := ?t']> _)] =>
                  rewrite (count_insert f _ _ _ t' Hl)
                end.
    all: simpl; (split; [lia |]); (split; [lia |]).
    all: eexists; (split; [reflexivity |]); split; lia.
  - destruct c; step_cases Hstep.
    all: rewrite ?Hsem in *; simpl in *.
    all: rewrite ?count_app; simpl.
    all: repeat match goal with
                | Hl : tasks _ !! _ = Some _
                  |- context [count ?f (<[_ := ?t']> _)] =>
                  rewrite (count_insert f _ _ _ t' Hl)
                end.
    all: simpl; (split; [lia |]); (split; [lia |]); reflexivity.
Qed.

Lemma reachable_semaphores (cfg : Config) (i : Setup) (s : State) :
  reachable cfg i s -> semaphores_balanced cfg s.
Proof.
  apply reachable_invariant.
  - intros s0 Hs0. pose proof Hs0 as Hs0'.
    apply start_inv in Hs0 as [-> Hb].
    unfold semaphores_balanced; simpl.
    split; [exact Hb |]. split; [lia |].
    unfold start, semaphore_value_ok in Hs0'.
    destruct (max_concurrent_requests cfg) as [n |]; [| reflexivity].
    exists n. split; [reflexivity |].
    destruct (Z.leb_spec 0 n); [lia |].
    rewrite andb_false_r in Hs0'. discriminate.
  - intros ? c ? _. apply semaphores_balanced_step.
Qed.

End SemaphoreFacts.
(** ** The error counters *)

Section ErrorCounterFacts.
Context `{CapacityTracker} `{Provider}.

Lemma raised_count_app (new tr : list Event) :
  raised_count (new ++ tr) = raised_count new + raised_count tr.
Proof.
  induction new as [| e new IH]; [reflexivity |].
  destruct e; simpl; rewrite ?IH; lia.
Qed.

(** The [try] block and the error counters: a rate-limit reply moves one
    from the other errors to the rate-limit errors, another error reply
    adds one to the API errors. *)
Lemma try_block_error_counters (cfg : Config) (a : nat) (now : Z)
    (request : APIRequest) (blocked : option TokenCount)
    (st st' : OnlineStatusTracker) (o : HttpOutcome) (t : TryResult)
    (evs : list Event) :
  try_block cfg a now request blocked st o = (st', t, evs) ->
  raised_count (rev evs) = 0
  /\ num_rate_limit_errors st'
     = num_rate_limit_errors st + Z.of_nat (length (rate_limit_times (rev evs)))
  /\ num_rate_limit_errors st' + num_other_errors st'
     = num_rate_limit_errors st + num_other_errors st
  /\ num_api_errors st <= num_api_errors st'
  /\ match raised t with
     | Some _ =>
       num_api_errors st' - num_other_errors st'
       <= num_api_errors st - num_other_errors st + 1
     | None =>
       num_api_errors st' = num_api_errors st
       /\ num_other_errors st' = num_other_errors st
     end.
Proof.
  unfold try_block, call_single_request, on_api_error, _free_capacity.
  intros Ht.
  repeat (case_match; simplify_eq); simpl; repeat split; lia.
Qed.

Lemma error_counters_kept_step (cfg : Config) (i : Setup) (s s' : State)
    (c : Choice) :
  error_counters_kept i s -> step cfg s c = Some s' -> error_counters_kept i s'.
Proof.
  unfold error_counters_kept.
  intros (Hrl & Hsum & Hapi & Hlast) Hstep.
  destruct c; step_cases Hstep.
  all: repeat match goal with
              | Ht : try_block _ _ _ _ _ _ _ = _ |- _ =>
                pose proof (try_block_rate_limit _ _ _ _ _ _ _ _ _ _ Ht);
                apply try_block_error_counters in Ht;
                destruct Ht as (? & ? & ? & ? & ?)
              end.
  all: rewrite ?rate_limit_times_app, ?raised_count_app, ?length_app in *.
  all: simpl in *.
  all: try (repeat split; solve [assumption | lia]).
  all: repeat match goal with
              | Hx : _ \/ _ |- _ => destruct Hx as [[Hx1 Hx2] | [Hx1 Hx2]]
              end.
  all: rewrite ?Hx1, ?Hx2 in *; simpl in *.
  all: repeat split; solve [assumption | lia].
Qed.

Lemma reachable_error_counters (cfg : Config) (i : Setup) (s : State) :
  reachable cfg i s -> error_counters_kept i s.
Proof.
  apply reachable_invariant.
  - intros s0 Hs0. apply start_inv in Hs0 as [-> _].
    unfold error_counters_kept; simpl. repeat split; lia.
  - intros ? c ? _. apply error_counters_kept_step.
Qed.

End ErrorCounterFacts.
(** ** Where the requests of a run come from *)

Section ProvenanceFacts.
Context `{CapacityTracker} `{Provider}.

Lemma drop_cons_inv {A : Type} (l : list A) (n : nat) (x : A) (xs : list A) :
  drop n l = x :: xs ->
  l !! n = Some x /\ drop (S n) l = xs /\ (n < length l)%nat.
Proof.
  revert n. induction l as [| y l IH]; intros n Hd.
  - rewrite drop_nil in Hd. discriminate.
  - destruct n as [| n]; simpl in *.
    + injection Hd as -> ->. rewrite drop_0. repeat split; lia.
    + destruct (IH n Hd) as (? & ? & ?). repeat split; auto; lia.
Qed.

Lemma rooted_same (lines : list GenericRequest) (r r' : APIRequest) :
  task_id r' = task_id r -> generic_request r' = generic_request r ->
  rooted lines r -> rooted lines r'.
Proof. unfold rooted. intros -> ->. auto. Qed.

Lemma provenance_step (cfg : Config) (i : Setup) (s s' : State) (c : Choice) :
  provenance cfg i s -> step cfg s c = Some s' -> provenance cfg i s'.
Proof.
  unfold provenance, retry_in_hand.
  intros (Hdone & Hpos & Hlen & Hrest & Hfile & Htasks & Hqueue & Hretry & Hhand)
         Hstep.
  destruct c; step_cases Hstep.
  all: repeat match goal with
              | Hm : main _ = _ |- _ => rewrite Hm in *; simpl in *
              | Hq : queue_of_requests_to_retry _ = _ |- _ =>
                rewrite Hq in *; simpl in *
              | Hf : file _ = _ |- _ => rewrite Hf in *; simpl in *
              end.
  all: rewrite ?Nat.add_0_r in *.
  all: try match goal with
           | Hin : _ ∈ completed_request_ids _ |- _ =>
             rewrite (bool_decide_eq_true_2 _ Hin) in Hrest
           | Hout : _ ∉ completed_request_ids _ |- _ =>
             rewrite (bool_decide_eq_false_2 _ Hout) in Hrest;
             symmetry in Hrest;
             apply drop_cons_inv in Hrest as (Hline & Hrest & Hlt)
           end.
  all: repeat match goal with
              | He : except_block _ _ = Retry _ |- _ =>
                apply except_block_retry_inv in He as (_ & Hid & Hgr & _ & _)
              | He : except_block _ _ = GiveUp _ _ |- _ =>
                apply except_block_give_up_inv in He as (_ & -> & _)
              end.
  all: repeat match goal with
              | Ht : try_block _ _ _ _ _ _ _ = _ |- _ =>
                apply try_block_counters in Ht as (Hst & _); rewrite ?Hst
              end.
  all: rewrite ?Z2Nat.inj_add by lia.
  all: change (Z.to_nat 1) with 1%nat.
  all: rewrite ?Nat.add_0_r, ?Nat.add_1_r in *.
  all: (split; [assumption |]).
  all: (split; [lia |]).
  all: (split; [try assumption; try lia |]).
  all: (split; [try assumption; try (symmetry; assumption) |]).
  all: (split; [try assumption; try (intros; reflexivity); try (intros [=]; fail) |]).
  (* the tasks *)
  all: (split;
        [ intros aX tX HlX;
          try (apply lookup_snoc_inv in HlX as [HlX | [-> ->]]);
          try match goal with
              | Hl0 : tasks _ !! _ = Some _ |- _ =>
                eapply lookup_insert_inv in HlX; [| exact Hl0];
                destruct HlX as [[-> ->] | [_ HlX]];
                [ first [ exact (Htasks _ _ Hl0)
                        | eapply rooted_same; [| | exact (Htasks _ _ Hl0)];
                          simpl; solve [auto] ] |]
              end;
          first [ exact (Htasks _ _ HlX)
                | simpl; eapply Hhand; apply list_elem_of_here
                | simpl; eapply Hretry; apply list_elem_of_here
                | simpl; eapply Hqueue; apply list_elem_of_here
                | unfold rooted; simpl; split; [lia | assumption] ] |]).
  (* the queue *)
  all: (split;
        [ try (intros rX HrX;
               try (apply elem_of_app in HrX as [HrX | HrX];
                    [| apply list_elem_of_singleton in HrX; subst rX]);
               first
                 [ apply Hqueue; solve [ assumption
                                       | apply list_elem_of_further; assumption ]
                 | match goal with
                   | Hl0 : tasks _ !! _ = Some _ |- _ =>
                     eapply rooted_same; [| | exact (Htasks _ _ Hl0)];
                     simpl; solve [auto]
                   end ]) |]).
  (* the requests in hand *)
  all: split; intros rX HrX;
       try (first [ apply Hretry | apply Hhand ]; exact HrX);
       try (apply elem_of_nil in HrX; destruct HrX);
       try (apply list_elem_of_singleton in HrX; subst rX).
  all: try (first [ apply Hretry; apply list_elem_of_here
                  | apply Hqueue; apply list_elem_of_here
                  | apply Hhand; apply list_elem_of_here ]).
  all: unfold rooted; simpl; repeat split; solve [lia | assumption].
Qed.

Lemma reachable_provenance (cfg : Config) (i : Setup) (s : State) :
  reachable cfg i s -> provenance cfg i s.
Proof.
  apply reachable_invariant.
  - intros s0 Hs0. apply start_inv in Hs0 as [-> _].
    unfold provenance, retry_in_hand; simpl.
    split; [reflexivity |]. split; [lia |]. split; [lia |].
    split; [reflexivity |].
    split; [intros [=] |].
    split; [intros a t Hl; rewrite lookup_nil in Hl; discriminate |].
    split; [| split]; intros r Hr; apply elem_of_nil in Hr; destruct Hr.
  - intros ? c ? _. apply provenance_step.
Qed.

End ProvenanceFacts.
(** ** The retry budget *)

Section BudgetFacts.
Context `{CapacityTracker} `{Provider}.



Lemma calls_nonneg (k : Z) (tr : list Event) : 0 <= calls k tr.
Proof.
  induction tr as [| e tr IH]; simpl; [lia |].
  destruct e; try exact IH. destruct (task =? k); lia.
Qed.

Lemma count_requests_app (k : Z) (l1 l2 : list APIRequest) :
  count_requests k (l1 ++ l2) = count_requests k l1 + count_requests k l2.
Proof. induction l1 as [| r l1 IH]; simpl; [reflexivity | rewrite IH; lia]. Qed.

Lemma count_requests_nonneg (k : Z) (l : list APIRequest) :
  0 <= count_requests k l.
Proof.
  induction l as [| r l IH]; simpl; [lia |]. destruct (for_record k r); lia.
Qed.




Lemma numbered_step (cfg : Config) (i : Setup) (s s' : State) (c : Choice) :
  provenance cfg i s -> numbered s -> step cfg s c = Some s' -> numbered s'.
Proof.
  unfold provenance, numbered, occurrences, retry_in_hand.
  intros (_ & Hpos & _ & _ & _ & _ & _ & _ & Hhand) HU Hstep.
  destruct c; step_cases Hstep.
  all: repeat match goal with
              | Hm : main _ = _ |- _ => rewrite Hm in *; simpl in *
              | Hq : queue_of_requests_to_retry _ = _ |- _ =>
                rewrite Hq in *; simpl in *
              | Ht : try_block _ _ _ _ _ _ _ = _ |- _ =>
                apply try_block_counters in Ht as (Hst & _); rewrite ?Hst
              | He : except_block _ _ = Retry _ |- _ =>
                apply except_block_retry_inv in He as (_ & Hid & _)
              | He : except_block _ _ = GiveUp _ _ |- _ =>
                apply except_block_give_up_inv in He as (_ & -> & _)
              end.
  all: try assumption.
  all: intros kX; specialize (HU kX).
  all: rewrite ?count_app, ?count_requests_app; simpl.
  all: repeat match goal with
              | Hl : tasks _ !! _ = Some _
                |- context [count ?f (<[_ := ?t']> _)] =>
                rewrite (count_insert f _ _ _ t' Hl)
              end.
  all: unfold holder, for_record in *; simpl in *; rewrite ?Hid.
  all: try lia.
  all: try (destruct (Hhand _ (list_elem_of_here _ _)) as (_ & Hid' & _);
            rewrite Hid').
  all: destruct (Z.eqb_spec (num_tasks_started (tracker s)) kX);
       destruct (Z.leb_spec 0 kX);
       destruct (Z.ltb_spec kX (num_tasks_started (tracker s)));
       destruct (Z.ltb_spec kX (num_tasks_started (tracker s) + 1));
       simpl in *; lia.
Qed.




Lemma reachable_numbered (cfg : Config) (i : Setup) (s : State) :
  reachable cfg i s -> numbered s.
Proof.
  apply reachable_invariant.
  - intros s0 Hs0. apply start_inv in Hs0 as [-> _].
    intros k. unfold occurrences, retry_in_hand; simpl.
    destruct (Z.leb_spec 0 k); destruct (Z.ltb_spec k 0); simpl; lia.
  - intros s1 c s2 Hr. apply numbered_step with (i := i).
    apply reachable_provenance, Hr.
Qed.


End BudgetFacts.
(** ** The response file *)

Section LogFacts.
Context `{CapacityTracker} `{Provider}.

Lemma appended_app_quiet (new tr : list Event) :
  (forall e, e ∈ new -> ~ is_append e) ->
  appended (new ++ tr) = appended tr
  /\ appended_ids (new ++ tr) = appended_ids tr
  /\ forall k, writes k (new ++ tr) = writes k tr.
Proof.
  induction new as [| e new IH]; intros Hnew; [auto |].
  destruct IH as (IH1 & IH2 & IH3);
    [intros; apply Hnew; apply elem_of_cons; auto |].
  destruct e; simpl; auto.
  exfalso. eapply (Hnew (EvAppend a task r)); [apply elem_of_cons; auto |].
  exact I.
Qed.

Lemma appended_try_block (cfg : Config) (a : nat) (now : Z)
    (request : APIRequest) (blocked : option TokenCount)
    (st st' : OnlineStatusTracker) (o : HttpOutcome) (t : TryResult)
    (evs tr : list Event) :
  try_block cfg a now request blocked st o = (st', t, evs) ->
  appended (rev evs ++ tr) = appended tr
  /\ appended_ids (rev evs ++ tr) = appended_ids tr
  /\ forall k, writes k (rev evs ++ tr) = writes k tr.
Proof.
  intros Ht. apply appended_app_quiet. intros e He.
  apply try_block_events in Ht as [Hevs _].
  apply list_elem_of_In, in_rev, list_elem_of_In in He.
  destruct (Hevs e He) as [-> | [-> | ((u & ->) & _)]]; simpl; auto.
Qed.

Lemma give_up_permanent (request : APIRequest) (e : Exn) :
  attempts_left request <= 0 ->
  permanent_failure (failure_record (append_result e request)).
Proof.
  intros Hle. exists (append_result e request).
  split; [reflexivity |]. split; [exact Hle |].
  simpl. intros Hnil. apply app_eq_nil in Hnil as [_ Hnil]. discriminate.
Qed.

Lemma log_kept_step (cfg : Config) (i : Setup) (s s' : State) (c : Choice) :
  provenance cfg i s -> log_kept i s -> step cfg s c = Some s' ->
  log_kept i s'.
Proof.
  unfold provenance, log_kept.
  intros (_ & _ & _ & _ & _ & Hroot & _) (Hfile & Hmap & Hw & Hok & Hko & Hall)
         Hstep.
  destruct c; step_cases Hstep.
  all: repeat match goal with
              | Ht : try_block _ _ _ _ _ _ _ = _ |- _ =>
                pose proof (fun tr => appended_try_block _ _ _ _ _ _ _ _ _ _ tr Ht)
                  as Hquiet;
                apply try_block_events in Ht as [_ Hdone]
              | He : except_block _ _ = Retry _ |- _ =>
                apply except_block_retry_inv in He as (_ & Hid & Hgr & _ & _)
              | He : except_block _ _ = GiveUp _ _ |- _ =>
                apply except_block_give_up_inv in He as (Hle & -> & ->)
              end.
  all: try (repeat match goal with
                   | |- context [appended (rev ?l ++ ?tr)] =>
                     rewrite (proj1 (Hquiet tr))
                   | |- context [appended_ids (rev ?l ++ ?tr)] =>
                     rewrite (proj1 (proj2 (Hquiet tr)))
                   end).
  all: (split; [| split; [| split; [| split; [| split]]]]).
  all: try assumption.
  (* the file and the requests of its records *)
  all: try solve
         [ rewrite Hfile, app_assoc; reflexivity
         | rewrite !map_app, Hmap; simpl; do 2 f_equal;
           match goal with
           | Hl0 : tasks _ !! _ = Some _ |- _ =>
             destruct (Hroot _ _ Hl0) as [_ Hline]; simpl in Hline;
             rewrite Hline; f_equal;
             first [ apply (Hok _ _ _ Hl0 eq_refl)
                   | apply (Hko _ _ _ Hl0 eq_refl) ]
           end ].
  (* the number of records of a request *)
  all: try solve
         [ intros kX; specialize (Hw kX);
           try rewrite (proj2 (proj2 (Hquiet _)));
           rewrite ?count_app; simpl;
           repeat match goal with
                  | Hl : tasks _ !! _ = Some _
                    |- context [count ?f (<[_ := ?t']> _)] =>
                    rewrite (count_insert f _ _ _ t' Hl)
                  end;
           unfold writer, for_record, wrote in *; simpl in *;
           repeat match goal with
                  | |- context [?x =? ?y] => destruct (Z.eqb_spec x y)
                  end;
           lia ].
  (* the records about to be written *)
  all: try solve
         [ intros aX tX rX HlX HpcX;
           try (apply lookup_snoc_inv in HlX as [HlX | [-> ->]]);
           try match goal with
               | Hl0 : tasks _ !! _ = Some _ |- _ =>
                 eapply lookup_insert_inv in HlX; [| exact Hl0];
                 destruct HlX as [[-> ->] | [HneX HlX]]
               end;
           first
             [ eapply Hok; eassumption
             | eapply Hko; eassumption
             | discriminate HpcX
             | simpl in HpcX; injection HpcX as <-;
               first
                 [ destruct (Hdone _ eq_refl) as (Hmsg & Hreq & _);
                   split; [exact Hreq | exact Hmsg]
                 | split; [reflexivity | apply give_up_permanent; exact Hle] ] ] ].
  (* the records written *)
  all: try solve
         [ intros rX HrX;
           try rewrite (proj1 (Hquiet _)) in HrX;
           try (apply elem_of_app in HrX as [HrX | HrX];
                [| apply list_elem_of_singleton in HrX; subst rX]);
           first
             [ apply Hall; exact HrX
             | match goal with
               | Hl0 : tasks _ !! _ = Some _ |- _ =>
                 first [ left; apply (Hok _ _ _ Hl0 eq_refl)
                       | right; apply (Hko _ _ _ Hl0 eq_refl) ]
               end ] ].
Qed.

Lemma reachable_log (cfg : Config) (i : Setup) (s : State) :
  reachable cfg i s -> log_kept i s.
Proof.
  apply reachable_invariant.
  - intros s0 Hs0. apply start_inv in Hs0 as [-> _].
    unfold log_kept; simpl.
    split; [rewrite app_nil_r; reflexivity |].
    split; [reflexivity |]. split; [reflexivity |].
    split; [intros a t r Hl; rewrite lookup_nil in Hl; discriminate |].
    split; [intros a t r Hl; rewrite lookup_nil in Hl; discriminate |].
    intros r Hr. apply elem_of_nil in Hr. destruct Hr.
  - intros s1 c s2 Hr. apply log_kept_step. apply reachable_provenance, Hr.
Qed.

Lemma writes_nonneg (k : Z) (tr : list Event) : 0 <= writes k tr.
Proof.
  induction tr as [| e tr IH]; simpl; [lia |].
  destruct e; try exact IH. destruct (task =? k); lia.
Qed.

Lemma writes_elem (k : Z) (tr : list Event) :
  k ∈ appended_ids tr <-> 0 < writes k tr.
Proof.
  induction tr as [| e tr IH]; simpl.
  - split; [intros Hin; apply elem_of_nil in Hin; destruct Hin | lia].
  - destruct e; try exact IH.
    pose proof (writes_nonneg k tr).
    rewrite elem_of_app, list_elem_of_singleton, IH.
    destruct (Z.eqb_spec task k); split; try lia; intros [? | ?]; lia.
Qed.

Lemma writes_NoDup (tr : list Event) :
  (forall k, writes k tr <= 1) -> NoDup (appended_ids tr).
Proof.
  induction tr as [| e tr IH]; simpl; intros Hle; [constructor |].
  destruct e; try (apply IH, Hle).
  apply NoDup_app. split; [| split].
  - apply IH. intros k. specialize (Hle k).
    pose proof (writes_nonneg k tr). destruct (task =? k); lia.
  - intros k Hk Hk'. apply list_elem_of_singleton in Hk'. subst k.
    apply writes_elem in Hk. specialize (Hle task).
    rewrite Z.eqb_refl in Hle. lia.
  - apply NoDup_singleton.
Qed.

Lemma lookup_seq_all {A : Type} (pre l : list A) :
  map (fun j => (pre ++ l) !! j) (seq (length pre) (length l)) = map Some l.
Proof.
  revert pre. induction l as [| x l IH]; intros pre; [reflexivity |].
  simpl. f_equal.
  - rewrite lookup_app_r by lia. rewrite Nat.sub_diag. reflexivity.
  - specialize (IH (pre ++ [x])). rewrite length_app in IH. simpl in IH.
    rewrite Nat.add_1_r in IH. rewrite <- app_assoc in IH. exact IH.
Qed.

Lemma count_agree (f g : Task -> bool) (l : list Task) :
  (forall t, t ∈ l -> f t = g t) -> count f l = count g l.
Proof.
  induction l as [| t l IH]; intros Hfg; simpl; [reflexivity |].
  rewrite (Hfg t) by (apply elem_of_cons; auto).
  rewrite IH by (intros; apply Hfg; apply elem_of_cons; auto). reflexivity.
Qed.

(** When the run has ended, one record has been appended for each request
    number that was given out, and for no other. *)
Lemma terminated_writes (cfg : Config) (i : Setup) (s : State) (k : Z) :
  reachable cfg i s -> terminated s ->
  writes k (trace s)
  = if (0 <=? k) && (k <? num_tasks_started (tracker s)) then 1 else 0.
Proof.
  intros Hr Hterm.
  destruct (reachable_log _ _ _ Hr) as (_ & _ & Hw & _).
  rewrite Hw, <- (reachable_numbered _ _ _ Hr k). unfold occurrences.
  destruct (reachable_tasks_awaited _ _ _ Hr) as (_ & _ & Hdone).
  destruct (Hdone Hterm) as [_ Hq]. rewrite Hq.
  unfold retry_in_hand. unfold terminated in Hterm. rewrite Hterm. simpl.
  rewrite (count_agree (writer k) (holder k)); [lia |].
  intros t Ht.
  pose proof (terminated_all_finished _ _ _ Hr Hterm t Ht) as Hfin.
  unfold live in Hfin. unfold writer, holder, wrote, holds_request.
  destruct (t_pc t) as [| | | | | | []]; try reflexivity; discriminate Hfin.
Qed.

End LogFacts.
(** ** What every run keeps *)

Section RunKeeps.
Context `{CapacityTracker} `{Provider}.

Lemma to_do_elem (done : list Z) (lines : list GenericRequest)
    (g : GenericRequest) :
  g ∈ to_do done lines -> g ∈ lines /\ original_row_idx g ∉ done.
Proof.
  induction lines as [| x lines IH]; simpl; intros Hg.
  - apply elem_of_nil in Hg. destruct Hg.
  - destruct (bool_decide (original_row_idx x ∈ done)) eqn:Hx.
    + destruct (IH Hg) as [Hin Hout]. split; [apply elem_of_cons; auto | exact Hout].
    + apply bool_decide_eq_false in Hx.
      apply elem_of_cons in Hg as [-> | Hg].
      * split; [apply elem_of_cons; auto | exact Hx].
      * destruct (IH Hg) as [Hin Hout].
        split; [apply elem_of_cons; auto | exact Hout].
Qed.

Lemma terminated_none_inside (cfg : Config) (i : Setup) (s : State)
    (f : Task -> bool) :
  reachable cfg i s -> terminated s ->
  (forall t, is_finished (t_pc t) = true -> f t = false) ->
  count f (tasks s) = 0.
Proof.
  intros Hr Hterm Hf. apply count_none. intros t Ht. apply Hf.
  pose proof (terminated_all_finished _ _ _ Hr Hterm t Ht) as Hfin.
  unfold live in Hfin. apply negb_false_iff in Hfin. exact Hfin.
Qed.

Lemma writer_holder (k : Z) (t : Task) :
  writer k t = true -> holder k t = true.
Proof.
  unfold writer, holder, wrote, holds_request.
  destruct (t_pc t) as [| | | | | | []]; simpl; auto; discriminate.
Qed.

Lemma writes_at_most_once (cfg : Config) (i : Setup) (s : State) (k : Z) :
  reachable cfg i s -> writes k (trace s) <= 1.
Proof.
  intros Hr.
  destruct (reachable_log _ _ _ Hr) as (_ & _ & Hw & _).
  pose proof (reachable_numbered _ _ _ Hr k) as Hn. unfold occurrences in Hn.
  pose proof (count_le (writer k) (holder k) (tasks s)
                (fun t _ => writer_holder k t)).
  pose proof (count_requests_nonneg k (queue_of_requests_to_retry s)).
  pose proof (count_requests_nonneg k (retry_in_hand s)).
  rewrite Hw.
  destruct ((0 <=? k) && (k <? num_tasks_started (tracker s))); lia.
Qed.

Lemma terminated_all_started (cfg : Config) (i : Setup) (s : State) :
  reachable cfg i s -> terminated s ->
  Z.to_nat (num_tasks_started (tracker s))
  = length (to_do (completed_request_ids s) (request_lines i)).
Proof.
  intros Hr Hterm.
  destruct (reachable_provenance _ _ _ Hr)
    as (_ & _ & Hlen & Hrest & Hfile & _).
  unfold terminated in Hterm. rewrite Hterm in *. simpl in *.
  rewrite (Hfile eq_refl) in Hrest. simpl in Hrest.
  rewrite Nat.add_0_r in *.
  assert (Hz : length (drop (Z.to_nat (num_tasks_started (tracker s)))
                         (to_do (completed_request_ids s) (request_lines i)))
               = 0%nat) by (rewrite <- Hrest; reflexivity).
  rewrite length_drop in Hz. lia.
Qed.

Lemma terminated_ids (cfg : Config) (i : Setup) (s : State) :
  reachable cfg i s -> terminated s ->
  appended_ids (trace s)
  ≡ₚ map Z.of_nat (seq 0 (Z.to_nat (num_tasks_started (tracker s)))).
Proof.
  intros Hr Hterm.
  destruct (reachable_provenance _ _ _ Hr) as (_ & Hpos & _).
  apply NoDup_Permutation.
  - apply writes_NoDup. intros k. eapply writes_at_most_once, Hr.
  - apply NoDup_fmap_2; [intros x y Hxy; lia | apply NoDup_seq].
  - intros k. rewrite writes_elem, (terminated_writes _ _ _ k Hr Hterm).
    rewrite list_elem_of_fmap.
    destruct (Z.leb_spec 0 k); destruct (Z.ltb_spec k (num_tasks_started (tracker s)));
      simpl; split; try lia;
      first [ intros _; exists (Z.to_nat k); split;
              [lia | apply elem_of_seq; lia]
            | intros (j & -> & Hj); apply elem_of_seq in Hj; lia ].
Qed.

Lemma terminated_records (cfg : Config) (i : Setup) (s : State) :
  reachable cfg i s -> terminated s ->
  map generic_request_of (appended (trace s))
  ≡ₚ to_do (completed_request_ids s) (request_lines i).
Proof.
  intros Hr Hterm.
  destruct (reachable_log _ _ _ Hr) as (_ & Hmap & _).
  pose proof (terminated_ids _ _ _ Hr Hterm) as Hids.
  pose proof (terminated_all_started _ _ _ Hr Hterm) as Hall.
  set (lines := to_do (completed_request_ids s) (request_lines i)) in *.
  assert (Hsome : map (fun r => Some (generic_request_of r)) (appended (trace s))
                  ≡ₚ map Some lines).
  { rewrite Hmap.
    etransitivity; [apply Permutation_map, Hids |].
    rewrite map_map, Hall, <- (lookup_seq_all [] lines). simpl.
    erewrite map_ext; [reflexivity |].
    intros j. simpl. rewrite Nat2Z.id. reflexivity. }
  apply (Permutation_map (from_option id (mkGenericRequest 0 []))) in Hsome.
  rewrite !map_map in Hsome. simpl in Hsome.
  rewrite map_id in Hsome. exact Hsome.
Qed.

End RunKeeps.
(** ** The records of the requests that are given up *)

Section FailureFacts.
Context `{CapacityTracker} `{Provider}.








End FailureFacts.



(** ** A run that is resumed *)

Section ResumeFacts.
Context `{CapacityTracker} `{Provider}.

Lemma to_do_elem_2 (done : list Z) (lines : list GenericRequest)
    (g : GenericRequest) :
  g ∈ lines -> original_row_idx g ∉ done -> g ∈ to_do done lines.
Proof.
  induction lines as [| x lines IH]; simpl; intros Hin Hout.
  - apply elem_of_nil in Hin. destruct Hin.
  - apply elem_of_cons in Hin as [<- | Hin].
    + rewrite bool_decide_eq_false_2 by exact Hout. apply list_elem_of_here.
    + destruct (bool_decide (original_row_idx x ∈ done));
        [| apply list_elem_of_further]; apply IH; assumption.
Qed.

Lemma rows_elem (l : list GenericResponse) (x : Z) :
  x ∈ validate_existing_response_file l
  <-> exists r, r ∈ l /\ original_row_idx (generic_request_of r) = x.
Proof.
  unfold validate_existing_response_file. induction l as [| y l IH]; simpl.
  - split; [intros Hx; apply elem_of_nil in Hx; destruct Hx |].
    intros (r & Hr & _). apply elem_of_nil in Hr. destruct Hr.
  - rewrite elem_of_cons, IH. split.
    + intros [-> | (r & Hr & Hx)].
      * exists y. split; [apply list_elem_of_here | reflexivity].
      * exists r. split; [apply list_elem_of_further, Hr | exact Hx].
    + intros (r & Hr & Hx). apply elem_of_cons in Hr as [-> | Hr]; eauto.
Qed.

(** The row indices of a file that is a given file followed by one record
    for each of the lines [L]. *)
Lemma rows_split (E A : list GenericResponse) (L : list GenericRequest)
    (x : Z) :
  map generic_request_of A ≡ₚ L ->
  x ∈ validate_existing_response_file (E ++ A)
  <-> x ∈ validate_existing_response_file E
      \/ exists g, g ∈ L /\ original_row_idx g = x.
Proof.
  intros Hp. rewrite !rows_elem. split.
  - intros (r & Hr & Hx). apply elem_of_app in Hr as [Hr | Hr]; [left; eauto |].
    right. exists (generic_request_of r). split; [| exact Hx].
    rewrite <- Hp. apply list_elem_of_In, in_map, list_elem_of_In, Hr.
  - intros [(r & Hr & Hx) | (g & Hg & Hx)].
    + exists r. split; [apply elem_of_app; auto | exact Hx].
    + rewrite <- Hp in Hg. apply list_elem_of_In, in_map_iff in Hg.
      destruct Hg as (r & <- & Hr). apply list_elem_of_In in Hr.
      exists r. split; [apply elem_of_app; auto | exact Hx].
Qed.

(** What is in the file of the interrupted run is skipped; what is missing
    from it is done. *)
Lemma resume_rows (lines : list GenericRequest) (E A0 : list GenericResponse)
    (x : Z) :
  (forall r, r ∈ A0 ->
     generic_request_of r ∈ to_do (validate_existing_response_file E) lines) ->
  (x ∈ validate_existing_response_file (E ++ A0)
   \/ exists g,
        g ∈ to_do (validate_existing_response_file (E ++ A0)) lines
        /\ original_row_idx g = x)
  <-> (x ∈ validate_existing_response_file E
       \/ exists g,
            g ∈ to_do (validate_existing_response_file E) lines
            /\ original_row_idx g = x).
Proof.
  intros HA. split.
  - intros [Hx | (g & Hg & Hx)].
    + apply rows_elem in Hx as (r & Hr & Hx).
      apply elem_of_app in Hr as [Hr | Hr].
      * left. apply rows_elem. eauto.
      * right. exists (generic_request_of r). split; [apply HA, Hr | exact Hx].
    + right. exists g. split; [| exact Hx].
      apply to_do_elem in Hg as [Hin Hout]. apply to_do_elem_2; [exact Hin |].
      intros Hd. apply Hout. apply rows_elem in Hd as (r & Hr & Hd).
      apply rows_elem. exists r. split; [apply elem_of_app; auto | exact Hd].
  - intros [Hx | (g & Hg & Hx)].
    + left. apply rows_elem in Hx as (r & Hr & Hx). apply rows_elem.
      exists r. split; [apply elem_of_app; auto | exact Hx].
    + destruct (decide (x ∈ validate_existing_response_file (E ++ A0)))
        as [Hd | Hd]; [left; exact Hd | right].
      exists g. split; [| exact Hx].
      apply to_do_elem in Hg as [Hin _]. apply to_do_elem_2; [exact Hin |].
      rewrite Hx. exact Hd.
Qed.

Lemma appended_rooted (cfg : Config) (i : Setup) (s : State)
    (r : GenericResponse) :
  reachable cfg i s -> r ∈ appended (trace s) ->
  generic_request_of r ∈ to_do (completed_request_ids s) (request_lines i).
Proof.
  intros Hr Hin. destruct (reachable_log _ _ _ Hr) as (_ & Hmap & _).
  assert (Hs : In (Some (generic_request_of r))
                 (map (fun r => Some (generic_request_of r))
                    (appended (trace s)))).
  { apply in_map_iff. exists r. split; [reflexivity |].
    apply list_elem_of_In, Hin. }
  rewrite Hmap in Hs. apply in_map_iff in Hs as (k & Hk & _).
  eapply list_elem_of_lookup_2, Hk.
Qed.

Lemma events_of_tasks (cfg : Config) (i : Setup) (s : State) (a : nat) :
  reachable cfg i s ->
  occurs (is_launch a) (trace s) \/ occurs (is_http_call a) (trace s) ->
  exists t, tasks s !! a = Some t.
Proof.
  intros Hr Ho.
  destruct (reachable_first_attempts _ _ _ Hr)
    as (_ & _ & _ & _ & _ & Hlaunched & _).
  destruct (reachable_discipline _ _ _ Hr) as (_ & _ & Hlh & _).
  assert (Hl : occurs (is_launch a) (trace s)).
  { destruct Ho as [Ho | (e & He & Hc)]; [exact Ho |].
    apply list_elem_of_split in He as (newer & older & Heq).
    destruct (Hlh a newer e older Heq Hc) as (x & Hx & HL).
    exists x. split; [| exact HL].
    rewrite Heq. apply elem_of_app. right. apply elem_of_cons. auto. }
  apply lookup_lt_is_Some_2, Hlaunched, Hl.
Qed.

End ResumeFacts.

(** C8.  A run takes the row indices of the response file it finds as
    completed: every task it creates and every HTTP call it makes is for a
    line whose row index is not among them, and so is every record it
    appends, at most one for a request, after the records that were there.
    When the file it finds is what an interrupted run on the same request
    file has left, then, once it has returned, the row indices in the
    response file are those that a run without the interruption leaves when
    it has returned. *)
Theorem C8_resumed_run_skips_completed_rows
    `{CapacityTracker} `{Provider} (cfg : Config) (i : Setup) (s : State) :
  reachable cfg i s ->
  let done := validate_existing_response_file (existing_responses i) in
  completed_request_ids s = done
  /\ (forall a,
        occurs (is_launch a) (trace s) \/ occurs (is_http_call a) (trace s) ->
        exists t,
          tasks s !! a = Some t
          /\ generic_request (t_request t) ∈ request_lines i
          /\ original_row_idx (generic_request (t_request t)) ∉ done)
  /\ response_file s = existing_responses i ++ appended (trace s)
  /\ (forall r, r ∈ appended (trace s) ->
        generic_request_of r ∈ request_lines i
        /\ original_row_idx (generic_request_of r) ∉ done)
  /\ (forall k, writes k (trace s) <= 1)
  /\ (forall (i0 : Setup) (s0 s1 : State),
        reachable cfg i0 s0 ->
        request_lines i = request_lines i0 ->
        existing_responses i = response_file s0 ->
        terminated s ->
        reachable cfg i0 s1 -> terminated s1 ->
        forall x,
          x ∈ validate_existing_response_file (response_file s)
          <-> x ∈ validate_existing_response_file (response_file s1)).
Proof.
  intros Hr done.
  destruct (reachable_provenance _ _ _ Hr)
    as (Hdone & _ & _ & _ & _ & Hroot & _).
  destruct (reachable_log _ _ _ Hr) as (Hfile & _).
  split; [exact Hdone |]. split; [| split; [exact Hfile |]].
  { intros a Ho. destruct (events_of_tasks _ _ _ a Hr Ho) as [t Ht].
    exists t. split; [exact Ht |].
    destruct (Hroot a t Ht) as [_ Hline].
    apply list_elem_of_lookup_2, to_do_elem in Hline as [Hin Hout].
    rewrite Hdone in Hout. auto. }
  split.
  { intros r Hin. apply (appended_rooted _ _ _ _ Hr), to_do_elem in Hin
      as [Hin Hout].
    rewrite Hdone in Hout. auto. }
  split; [intros k; eapply writes_at_most_once, Hr |].
  intros i0 s0 s1 Hr0 Hlines Hex Hterm Hr1 Hterm1 x.
  pose proof (terminated_records _ _ _ Hr Hterm) as Hp.
  rewrite Hdone, Hlines, Hex in Hp.
  pose proof (terminated_records _ _ _ Hr1 Hterm1) as Hp1.
  destruct (reachable_provenance _ _ _ Hr1) as (Hdone1 & _).
  rewrite Hdone1 in Hp1.
  destruct (reachable_log _ _ _ Hr1) as (Hfile1 & _).
  destruct (reachable_log _ _ _ Hr0) as (Hfile0 & _).
  destruct (reachable_provenance _ _ _ Hr0) as (Hdone0 & _).
  rewrite Hfile, Hex, (rows_split _ _ _ x Hp).
  rewrite Hfile1, (rows_split _ _ _ x Hp1).
  rewrite Hfile0. apply resume_rows.
  intros r Hin. rewrite <- Hdone0. eapply appended_rooted; eauto.
Qed.

Lemma C8_witness :
  exists s0 s,
    @run unlimited plain_provider Demo.cfg (Demo.setup None) Demo.interrupted
    = Some s0
    /\ @run unlimited plain_provider Demo.cfg Demo.resumed Demo.second_succeeds
       = Some s
    /\ request_lines Demo.resumed = request_lines (Demo.setup None)
    /\ existing_responses Demo.resumed = response_file s0
    /\ terminated s
    /\ validate_existing_response_file (response_file s) = [0; 1]
    /\ let done :=
         validate_existing_response_file (existing_responses Demo.resumed) in
       completed_request_ids s = done
       /\ (forall a,
             occurs (is_launch a) (trace s) \/ occurs (is_http_call a) (trace s) ->
             exists t,
               tasks s !! a = Some t
               /\ generic_request (t_request t) ∈ request_lines Demo.resumed
               /\ original_row_idx (generic_request (t_request t)) ∉ done)
       /\ response_file s
          = existing_responses Demo.resumed ++ appended (trace s)
       /\ (forall r, r ∈ appended (trace s) ->
             generic_request_of r ∈ request_lines Demo.resumed
             /\ original_row_idx (generic_request_of r) ∉ done)
       /\ (forall k, writes k (trace s) <= 1)
       /\ (forall (i0 : @Setup unlimited) (s0 s1 : State),
             @reachable unlimited plain_provider Demo.cfg i0 s0 ->
             request_lines Demo.resumed = request_lines i0 ->
             existing_responses Demo.resumed = response_file s0 ->
             terminated s ->
             @reachable unlimited plain_provider Demo.cfg i0 s1 ->
             terminated s1 ->
             forall x,
               x ∈ validate_existing_response_file (response_file s)
               <-> x ∈ validate_existing_response_file (response_file s1)).
Proof.
  eexists. eexists. split; [vm_compute; reflexivity |].
  split; [vm_compute; reflexivity |].
  split; [reflexivity |]. split; [reflexivity |].
  split; [reflexivity |]. split; [reflexivity |].
  apply (@C8_resumed_run_skips_completed_rows
           unlimited plain_provider Demo.cfg Demo.resumed).
  apply run_reachable with (cs := Demo.second_succeeds).
  vm_compute. reflexivity.
Defined.
(** X1.  The tasks that are inside [async with request_semaphore] are as
    many as the semaphore is below [max_batch]: never more than [max_batch],
    the semaphore never below zero, and back at [max_batch] when
    [process_requests_from_file] has returned. *)
Theorem request_semaphore_counts_tasks_inside
    `{CapacityTracker} `{Provider} (cfg : Config) (i : Setup) (s : State) :
  reachable cfg i s ->
  0 <= request_semaphore s
  /\ count between_increment_and_end (tasks s)
     = max_batch cfg - request_semaphore s
  /\ count between_increment_and_end (tasks s) <= max_batch cfg
  /\ (terminated s -> request_semaphore s = max_batch cfg).
Proof.
  intros Hr. destruct (reachable_semaphores _ _ _ Hr) as (Hpos & Hbal & _).
  split; [exact Hpos |]. split; [lia |]. split; [lia |].
  intros Hterm.
  rewrite (terminated_none_inside _ _ _ between_increment_and_end Hr Hterm)
    in Hbal; [lia |].
  intros t. unfold between_increment_and_end.
  destruct (t_pc t); simpl; auto; discriminate.
Qed.

Lemma request_semaphore_counts_tasks_inside_witness :
  exists s,
    Demo.schedule None Demo.refused_then_posted = Some s
    /\ count between_increment_and_end (tasks s) = 1
    /\ 0 <= request_semaphore s
    /\ count between_increment_and_end (tasks s)
       = max_batch Demo.cfg - request_semaphore s
    /\ count between_increment_and_end (tasks s) <= max_batch Demo.cfg
    /\ (terminated s -> request_semaphore s = max_batch Demo.cfg).
Proof.
  eexists. split; [vm_compute; reflexivity |].
  split; [reflexivity |].
  apply (@request_semaphore_counts_tasks_inside
           unlimited plain_provider Demo.cfg (Demo.setup None)).
  apply run_reachable with (cs := Demo.refused_then_posted).
  vm_compute. reflexivity.
Defined.

(** X2.  With [max_concurrent_requests] set, the attempts that hold
    [self._semaphore] (admitted and not yet through the [finally] clause of
    [handle_single_request_with_retries]), together with the request that
    the main loop has acquired it for, are as many as the semaphore is below
    its initial value; the value is never negative and is back at the
    initial value when the run has ended.  Without the setting there is no
    semaphore. *)
Theorem outer_semaphore_counts_admitted_attempts
    `{CapacityTracker} `{Provider} (cfg : Config) (i : Setup) (s : State) :
  reachable cfg i s ->
  match max_concurrent_requests cfg with
  | Some n =>
    exists v, _semaphore s = Some v /\ 0 <= v
              /\ count holds_semaphore (tasks s)
                 + main_holds_semaphore (main s) = n - v
              /\ (terminated s -> v = n)
  | None => _semaphore s = None
  end.
Proof.
  intros Hr. destruct (reachable_semaphores _ _ _ Hr) as (_ & _ & Hsem).
  destruct (max_concurrent_requests cfg) as [n |]; [| exact Hsem].
  destruct Hsem as (v & Hv & Hpos & Hbal).
  exists v. split; [exact Hv |]. split; [exact Hpos |]. split; [lia |].
  intros Hterm.
  rewrite (terminated_none_inside _ _ _ holds_semaphore Hr Hterm) in Hbal.
  - unfold terminated in Hterm. rewrite Hterm in Hbal. simpl in Hbal. lia.
  - intros t. unfold holds_semaphore.
    destruct (t_pc t); simpl; auto; discriminate.
Qed.

Lemma outer_semaphore_counts_admitted_attempts_witness :
  exists s,
    @run unlimited plain_provider Demo.capped (Demo.setup None)
      Demo.refused_then_posted = Some s
    /\ match max_concurrent_requests Demo.capped with
       | Some n =>
         exists v, _semaphore s = Some v /\ 0 <= v
                   /\ count holds_semaphore (tasks s)
                      + main_holds_semaphore (main s) = n - v
                   /\ (terminated s -> v = n)
       | None => _semaphore s = None
       end.
Proof.
  eexists. split; [vm_compute; reflexivity |].
  apply (@outer_semaphore_counts_admitted_attempts
           unlimited plain_provider Demo.capped (Demo.setup None)).
  apply run_reachable with (cs := Demo.refused_then_posted).
  vm_compute. reflexivity.
Defined.

(** X3.  Every attempt that ends in the [except] block is counted once, as
    a rate-limit error or as an other error: [num_rate_limit_errors] is the
    number of rate-limit replies, the two counters add up to the number of
    raised attempts, [num_api_errors] stays between zero and
    [num_other_errors], and [time_of_last_rate_limit_error] is the time of
    the latest rate-limit reply. *)
Theorem error_counters_count_raised_attempts
    `{CapacityTracker} `{Provider} (cfg : Config) (i : Setup) (s : State) :
  reachable cfg i s ->
  num_rate_limit_errors (tracker s)
  = Z.of_nat (length (rate_limit_times (trace s)))
  /\ num_rate_limit_errors (tracker s) + num_other_errors (tracker s)
     = raised_count (trace s)
  /\ 0 <= num_api_errors (tracker s) <= num_other_errors (tracker s)
  /\ time_of_last_rate_limit_error (tracker s)
     = hd (initial_time_of_last_rate_limit_error i) (rate_limit_times (trace s)).
Proof. intros Hr. exact (reachable_error_counters _ _ _ Hr). Qed.

Lemma error_counters_count_raised_attempts_witness :
  exists s,
    @run unlimited plain_provider Demo.cfg Demo.single Demo.refused_twice
    = Some s
    /\ raised_count (trace s) = 2
    /\ num_rate_limit_errors (tracker s)
       = Z.of_nat (length (rate_limit_times (trace s)))
    /\ num_rate_limit_errors (tracker s) + num_other_errors (tracker s)
       = raised_count (trace s)
    /\ 0 <= num_api_errors (tracker s) <= num_other_errors (tracker s)
    /\ time_of_last_rate_limit_error (tracker s)
       = hd (initial_time_of_last_rate_limit_error Demo.single)
           (rate_limit_times (trace s)).
Proof.
  eexists. split; [vm_compute; reflexivity |].
  split; [reflexivity |].
  apply (@error_counters_count_raised_attempts
           unlimited plain_provider Demo.cfg Demo.single).
  apply run_reachable with (cs := Demo.refused_twice).
  vm_compute. reflexivity.
Defined.
(** X4.  The set of completed row indices is not changed by the run.  The
    requests are numbered in the order of the file: the request numbered
    [k], in whichever task it is, is the [k]-th line whose row index is not
    completed, so no task is ever created for a completed row; the number of
    requests started never exceeds the number of such lines and equals it
    when the run has ended. *)
Theorem requests_are_the_pending_lines_in_file_order
    `{CapacityTracker} `{Provider} (cfg : Config) (i : Setup) (s : State) :
  reachable cfg i s ->
  (forall s0, start cfg i = Some s0 ->
     completed_request_ids s = completed_request_ids s0)
  /\ (forall a t, tasks s !! a = Some t ->
        0 <= task_id (t_request t)
        /\ to_do (completed_request_ids s) (request_lines i)
             !! Z.to_nat (task_id (t_request t))
           = Some (generic_request (t_request t))
        /\ generic_request (t_request t) ∈ request_lines i
        /\ original_row_idx (generic_request (t_request t))
             ∉ completed_request_ids s)
  /\ (Z.to_nat (num_tasks_started (tracker s))
      <= length (to_do (completed_request_ids s) (request_lines i)))%nat
  /\ (terminated s ->
      Z.to_nat (num_tasks_started (tracker s))
      = length (to_do (completed_request_ids s) (request_lines i))).
Proof.
  intros Hr.
  destruct (reachable_provenance _ _ _ Hr)
    as (Hdone & _ & Hlen & _ & _ & Hroot & _).
  split; [| split; [| split]].
  - intros s0 Hs0. apply start_inv in Hs0 as [-> _]. exact Hdone.
  - intros a t Hl. destruct (Hroot a t Hl) as [Hpos Hline].
    split; [exact Hpos |]. split; [exact Hline |].
    apply to_do_elem. eapply list_elem_of_lookup_2, Hline.
  - lia.
  - intros Hterm. eapply terminated_all_started; eauto.
Qed.

Lemma requests_are_the_pending_lines_in_file_order_witness :
  exists s,
    Demo.schedule None Demo.both_succeed = Some s
    /\ (forall s0, @start unlimited Demo.cfg (Demo.setup None) = Some s0 ->
          completed_request_ids s = completed_request_ids s0)
    /\ (forall a t, tasks s !! a = Some t ->
          0 <= task_id (t_request t)
          /\ to_do (completed_request_ids s) (request_lines (Demo.setup None))
               !! Z.to_nat (task_id (t_request t))
             = Some (generic_request (t_request t))
          /\ generic_request (t_request t) ∈ request_lines (Demo.setup None)
          /\ original_row_idx (generic_request (t_request t))
               ∉ completed_request_ids s)
    /\ (Z.to_nat (num_tasks_started (tracker s))
        <= length (to_do (completed_request_ids s)
                     (request_lines (Demo.setup None))))%nat
    /\ (terminated s ->
        Z.to_nat (num_tasks_started (tracker s))
        = length (to_do (completed_request_ids s)
                    (request_lines (Demo.setup None)))).
Proof.
  eexists. split; [vm_compute; reflexivity |].
  apply (@requests_are_the_pending_lines_in_file_order
           unlimited plain_provider Demo.cfg (Demo.setup None)).
  apply run_reachable with (cs := Demo.both_succeed).
  vm_compute. reflexivity.
Defined.

(** X5.  No request is lost or doubled: each number below
    [num_tasks_started] belongs to exactly one request that is in a task
    which has not put it back, in the retry queue, or in the hands of the
    retry loop; no other number is in use. *)
Theorem each_request_is_in_one_place
    `{CapacityTracker} `{Provider} (cfg : Config) (i : Setup) (s : State)
    (k : Z) :
  reachable cfg i s ->
  count (holder k) (tasks s)
  + count_requests k (queue_of_requests_to_retry s)
  + count_requests k (retry_in_hand s)
  = if (0 <=? k) && (k <? num_tasks_started (tracker s)) then 1 else 0.
Proof. intros Hr. exact (reachable_numbered _ _ _ Hr k). Qed.

Lemma each_request_is_in_one_place_witness :
  exists s,
    Demo.schedule None Demo.refused_then_posted = Some s
    /\ count_requests 0 (queue_of_requests_to_retry s) = 1
    /\ count (holder 0) (tasks s)
       + count_requests 0 (queue_of_requests_to_retry s)
       + count_requests 0 (retry_in_hand s)
       = if (0 <=? 0) && (0 <? num_tasks_started (tracker s)) then 1 else 0.
Proof.
  eexists. split; [vm_compute; reflexivity |].
  split; [reflexivity |].
  apply (@each_request_is_in_one_place
           unlimited plain_provider Demo.cfg (Demo.setup None)).
  apply run_reachable with (cs := Demo.refused_then_posted).
  vm_compute. reflexivity.
Defined.



(** X7.  When [process_requests_from_file] has returned, the records that
    the run appended are, in some order, one for each line of the request
    file whose row index was not completed at the start. *)
Theorem finished_run_has_one_record_per_pending_line
    `{CapacityTracker} `{Provider} (cfg : Config) (i : Setup) (s : State) :
  reachable cfg i s ->
  terminated s ->
  map generic_request_of (appended (trace s))
  ≡ₚ to_do (completed_request_ids s) (request_lines i).
Proof. intros Hr Hterm. eapply terminated_records; eauto. Qed.

Lemma finished_run_has_one_record_per_pending_line_witness :
  exists s,
    Demo.schedule None Demo.both_succeed = Some s
    /\ map generic_request_of (appended (trace s))
       ≡ₚ to_do (completed_request_ids s) (request_lines (Demo.setup None)).
Proof.
  eexists. split; [vm_compute; reflexivity |].
  apply (@finished_run_has_one_record_per_pending_line
           unlimited plain_provider Demo.cfg (Demo.setup None)).
  - apply run_reachable with (cs := Demo.both_succeed).
    vm_compute. reflexivity.
  - reflexivity.
Defined.
(** ** The limits of the processor *)

Module LimitsFacts.
Import Limits.

Lemma truthy_nonzero (x : option Z) :
  truthy x = true -> exists n, x = Some n /\ n <> 0.
Proof.
  destruct x as [n |]; simpl; [| discriminate].
  intros Hn. exists n. split; [reflexivity |].
  apply negb_true_iff, Z.eqb_neq in Hn. exact Hn.
Qed.

Lemma first_truthy_zero (manual header fallback : option Z) :
  (if truthy manual then manual else if truthy header then header else fallback)
  = Some 0 ->
  fallback = Some 0.
Proof.
  destruct (truthy manual) eqn:Hm.
  - apply truthy_nonzero in Hm as (n & -> & Hn). intros [= ->]. contradiction.
  - destruct (truthy header) eqn:Hh; [| auto].
    apply truthy_nonzero in Hh as (n & -> & Hn). intros [= ->]. contradiction.
Qed.

End LimitsFacts.

(** X8.  A limit of zero counts as not given.  [max_concurrent_requests]
    never is zero, so the semaphore made from it lets some request in;
    [max_requests_per_minute] and [max_tokens_per_minute] are zero only if
    the default of the cost map is; and a configured limit that is not
    zero is the one returned, whatever the headers said. *)
Theorem limits_of_zero_count_as_unset (self : Limits.Attributes) :
  Limits.max_concurrent_requests self <> Some 0
  /\ (Limits.max_requests_per_minute self = Some 0 ->
      Limits.default_max_requests_per_minute self = Some 0)
  /\ (Limits.max_tokens_per_minute self = Some 0 ->
      Limits.default_max_tokens_per_minute self = Some 0)
  /\ (forall n, n <> 0 ->
        (Limits.manual_max_concurrent_requests self = Some n ->
         Limits.max_concurrent_requests self = Some n)
        /\ (Limits.manual_max_requests_per_minute self = Some n ->
            Limits.max_requests_per_minute self = Some n)
        /\ (Limits.manual_max_tokens_per_minute self = Some n ->
            Limits.max_tokens_per_minute self = Some n)).
Proof.
  split; [| split; [| split]].
  - unfold Limits.max_concurrent_requests. intros Hz.
    apply LimitsFacts.first_truthy_zero in Hz. discriminate.
  - apply LimitsFacts.first_truthy_zero.
  - apply LimitsFacts.first_truthy_zero.
  - intros n Hn.
    assert (Ht : Limits.truthy (Some n) = true)
      by (simpl; apply negb_true_iff, Z.eqb_neq, Hn).
    unfold Limits.max_concurrent_requests, Limits.max_requests_per_minute,
      Limits.max_tokens_per_minute.
    repeat split; intros ->; rewrite Ht; reflexivity.
Qed.

(** X9.  After [OpenAIOnlineRequestProcessor.__init__], for a base URL
    other than the one of DeepSeek, the header-based limits are zero, so
    the two limits per minute are the configured value when that is given
    and not zero, and the default otherwise.  In the run model the
    semaphore is made from the configured [max_concurrent_requests] in the
    same way. *)
Theorem openai_limits_are_configured_or_default
    (config_rpm config_tpm config_concurrent default_rpm default_tpm : option Z)
    (cfg : Config) :
  let self :=
    Limits.after_openai_init false
      (Limits.after_init config_rpm config_tpm config_concurrent
         default_rpm default_tpm) in
  Limits.max_requests_per_minute self
  = (if Limits.truthy config_rpm then config_rpm else default_rpm)
  /\ Limits.max_tokens_per_minute self
     = (if Limits.truthy config_tpm then config_tpm else default_tpm)
  /\ (config_concurrent = manual_max_concurrent_requests cfg ->
      Limits.max_concurrent_requests self = max_concurrent_requests cfg).
Proof.
  simpl. unfold Limits.max_requests_per_minute, Limits.max_tokens_per_minute,
    Limits.max_concurrent_requests, max_concurrent_requests. simpl.
  split; [reflexivity |]. split; [reflexivity |].
  intros ->. destruct (manual_max_concurrent_requests cfg) as [n |]; simpl;
    [destruct (n =? 0) |]; reflexivity.
Qed.

(** ** Rate limits from the response headers *)

(** X10.  [get_rate_limits] of the earlier processor never returns a limit
    of zero, and when one of the two headers is missing it returns both
    defaults, also for the header that is there. *)
Theorem legacy_rate_limits_never_zero
    (int : string -> Exn + Z) (headers : Headers.Headers) (rpm tpm : Z) :
  Headers.get_rate_limits int headers = inr (rpm, tpm) ->
  rpm <> 0 /\ tpm <> 0
  /\ (Headers.get headers "x-ratelimit-limit-requests" = None
      \/ Headers.get headers "x-ratelimit-limit-tokens" = None ->
      rpm = 30000 /\ tpm = 150000000).
Proof.
  unfold Headers.get_rate_limits, Headers.header_int.
  destruct (Headers.get headers "x-ratelimit-limit-requests") as [r |];
    destruct (Headers.get headers "x-ratelimit-limit-tokens") as [t |];
    repeat match goal with
           | |- context [int ?x] => destruct (int x) as [? | ?]
           end;
    try discriminate;
    repeat match goal with
           | |- context [?a =? 0] => destruct (Z.eqb_spec a 0)
           end;
    simpl; intros [= <- <-]; try congruence;
    (split; [lia |]); (split; [lia |]);
    intros [Hn | Hn]; try discriminate Hn; split; reflexivity.
Qed.

Lemma legacy_rate_limits_never_zero_witness :
  30000 <> 0 /\ 150000000 <> 0
  /\ (Headers.get [("x-ratelimit-limit-requests", "500")]
        "x-ratelimit-limit-requests" = None
      \/ Headers.get [("x-ratelimit-limit-requests", "500")]
           "x-ratelimit-limit-tokens" = None ->
      30000 = 30000 /\ 150000000 = 150000000).
Proof.
  apply (legacy_rate_limits_never_zero (fun _ => inr 500)
           [("x-ratelimit-limit-requests", "500")]).
  reflexivity.
Defined.

(** ** The token estimate of the OpenAI adapter *)

Module EstimateFacts.
Import OpenAI.

Section Estimate.
Variable encoded_length : string -> option nat.
Variable model_max_tokens : option Z.





Lemma names_dict (message : Message) : is_dict message -> names message <= 1.
Proof.
  unfold is_dict.
  assert (Hzero : forall m : Message, "name" ∉ map fst m -> names m = 0).
  { induction m as [| [key value] m IH]; simpl; intros Hout; [reflexivity |].
    destruct (String.eqb_spec key "name") as [-> | Hne].
    - exfalso. apply Hout. apply elem_of_cons. auto.
    - rewrite IH; [reflexivity |]. intros Hin. apply Hout.
      apply elem_of_cons. auto. }
  induction message as [| [key value] message IH]; simpl; intros Hnd; [lia |].
  apply NoDup_cons in Hnd as [Hout Hnd].
  destruct (String.eqb_spec key "name") as [-> | Hne].
  - rewrite (Hzero message Hout). lia.
  - specialize (IH Hnd). lia.
Qed.

Lemma add_items_lower (message : Message) (n : Z) :
  n - names message <= fold_left (OpenAI.add_item encoded_length) message n.
Proof.
  revert n. induction message as [| [key value] message IH]; intros n;
    cbn [fold_left names]; [lia |].
  specialize (IH (OpenAI.add_item encoded_length n (key, value))).
  assert (n - (if String.eqb key "name" then 1 else 0)
          <= OpenAI.add_item encoded_length n (key, value)).
  { unfold OpenAI.add_item.
    assert (0 <= Z.of_nat (String.length value) / 4)
      by (apply Z.div_pos; lia).
    destruct (encoded_length value); destruct (String.eqb key "name");
      cbv zeta; lia. }
  lia.
Qed.

Lemma add_messages_lower (messages : list Message) (n : Z) :
  Forall is_dict messages ->
  n + 3 * Z.of_nat (length messages)
  <= fold_left (OpenAI.add_message encoded_length) messages n.
Proof.
  intros Hd. revert n.
  induction Hd as [| m messages Hm Hd IH]; intros n;
    cbn [fold_left length]; [lia |].
  specialize (IH (OpenAI.add_message encoded_length n m)).
  assert (n + 3 <= OpenAI.add_message encoded_length n m).
  { unfold OpenAI.add_message.
    pose proof (add_items_lower m (n + 4)). pose proof (names_dict m Hm). lia. }
  lia.
Qed.

End Estimate.

End EstimateFacts.


(** X13.  When no message has a key twice, the estimate of the input
    tokens is at least three for each message and two for the reply: a
    ["name"] key takes one from the four of its message, and the tokens of
    a value never count below zero. *)
Theorem token_estimate_at_least_three_per_message
    (encoded_length : string -> option nat) (model_max_tokens : option Z)
    (messages : list Message) :
  Forall OpenAI.is_dict messages ->
  3 * Z.of_nat (length messages) + 2
  <= tc_input (OpenAI.estimate_total_tokens encoded_length model_max_tokens
                 messages).
Proof.
  intros Hd. simpl.
  pose proof (EstimateFacts.add_messages_lower encoded_length messages 0 Hd).
  lia.
Qed.

Lemma token_estimate_at_least_three_per_message_witness :
  3 * Z.of_nat (length [[("name", ""); ("content", "hi")]]) + 2
  <= tc_input (OpenAI.estimate_total_tokens (fun _ => Some 0%nat) None
                 [[("name", ""); ("content", "hi")]]).
Proof.
  apply (token_estimate_at_least_three_per_message (fun _ => Some 0%nat) None
           [[("name", ""); ("content", "hi")]]).
  repeat constructor; simpl; rewrite ?elem_of_cons, ?elem_of_nil;
    intros Hin; repeat destruct Hin as [Hin | Hin]; try discriminate Hin;
    try destruct Hin.
Defined.
(** ** Structured output support *)

Module TextFacts.

Lemma contains_cons (sep : string) (c : ascii) (rest : string) :
  Text.contains sep (String c rest)
  = String.prefix sep (String c rest) || Text.contains sep rest.
Proof.
  unfold Text.contains. cbn [String.index].
  destruct (String.prefix sep (String c rest)); [reflexivity |].
  destruct (String.index 0 sep rest); reflexivity.
Qed.

End TextFacts.

(** X14.  For a model whose lower-case name contains ["gpt-4o-mini-"],
    [check_structured_output_support] never returns: it raises at the date
    parse of line 158 or, when the date parses, at line 159, which calls the
    module [datetime]. *)
Theorem dated_mini_model_makes_the_check_raise
    (strptime : string -> Exn + Structured.Date) (model : string) :
  Text.contains "gpt-4o-mini-" (Text.lower model) = true ->
  exists e,
    Structured.check_structured_output_support strptime model = inl e
    /\ (forall text date,
          Structured.split_second "gpt-4o-mini-" (Text.lower model) = Some text ->
          strptime text = inr date ->
          e = Structured.module_not_callable).
Proof.
  intros Hc. unfold Structured.check_structured_output_support. cbv zeta.
  destruct (String.eqb_spec (Text.lower model) "gpt-4o-mini") as [Heq | Hne].
  - rewrite Heq in Hc. vm_compute in Hc. discriminate.
  - rewrite Hc. unfold Structured.date_after.
    destruct (Structured.split_second "gpt-4o-mini-" (Text.lower model))
      as [text |]; [destruct (strptime text) as [e | date] eqn:Hs |];
      eexists; (split; [reflexivity |]); intros text' date' [= <-] Hd;
      congruence.
Qed.

Lemma dated_mini_model_makes_the_check_raise_witness :
  exists e,
    Structured.check_structured_output_support
      (fun _ => inr (2024, 7, 18)) "gpt-4o-mini-2024-07-18" = inl e
    /\ (forall text date,
          Structured.split_second "gpt-4o-mini-"
            (Text.lower "gpt-4o-mini-2024-07-18") = Some text ->
          (fun _ : string => @inr Exn Structured.Date (2024, 7, 18)) text
          = inr date ->
          e = Structured.module_not_callable).
Proof.
  apply (dated_mini_model_makes_the_check_raise
           (fun _ => inr (2024, 7, 18)) "gpt-4o-mini-2024-07-18").
  vm_compute. reflexivity.
Defined.

(** ** The name of the response file *)

Module FilesFacts.

Lemma replace_absent (old new text : string) :
  Text.contains old text = false -> Files.replace old new text = text.
Proof.
  unfold Files.replace. induction text as [| c rest IH]; [reflexivity |].
  rewrite TextFacts.contains_cons. intros Hc.
  apply orb_false_iff in Hc as [Hp Hr].
  cbn [Files.replace_from]. rewrite Hp, (IH Hr). reflexivity.
Qed.

Lemma prefix_app (p f : string) : String.prefix p (String.append p f) = true.
Proof.
  induction p as [| c p IH]; simpl; [destruct f; reflexivity |].
  destruct (ascii_dec c c) as [_ | Hne]; [exact IH | destruct Hne; reflexivity].
Qed.

Lemma replace_from_skip (old new p f : string) :
  Files.replace_from old new (String.length p) (String.append p f)
  = Files.replace_from old new 0 f.
Proof. induction p as [| c p IH]; simpl; [reflexivity | exact IH]. Qed.

Lemma replace_prefix (old new f : string) :
  old <> EmptyString ->
  Files.replace old new (String.append old f)
  = String.append new (Files.replace old new f).
Proof.
  unfold Files.replace. destruct old as [| c old]; [congruence |]. intros _.
  change (String.append (String c old) f) with (String c (String.append old f)).
  cbn [Files.replace_from].
  change (String c (String.append old f))
    with (String.append (String c old) f).
  rewrite prefix_app.
  replace (String.length (String c old) - 1)%nat with (String.length old)
    by (simpl; lia).
  rewrite replace_from_skip. reflexivity.
Qed.

End FilesFacts.

(** X15.  [requests_to_responses] names the response file by replacing
    ["requests_"] in the name of the request file.  A name without
    ["requests_"] is left as it is, so the responses are then appended to
    the request file itself; a name that starts with it gets ["responses_"]
    in its place. *)
Theorem response_file_keeps_a_name_without_requests (f : string) :
  (Text.contains "requests_" f = false -> Files.response_file_of f = f)
  /\ Files.response_file_of (String.append "requests_" f)
     = String.append "responses_" (Files.response_file_of f).
Proof.
  split.
  - apply FilesFacts.replace_absent.
  - apply FilesFacts.replace_prefix. discriminate.
Qed.
